(** * jaws: the live-session synchronisation engine

    A shallow embedding of the per-connection core of jaws (wire codec,
    handler registry, element registry, event loop, handler dispatcher)
    together with the properties its specification states about it. *)

From Stdlib Require Import ZArith List Bool Lia String Ascii.
From Stdlib Require Import Strings.Byte.
From stdpp Require Import base option list gmap strings pretty.

Local Open Scope Z_scope.

(** ** Go values shared by the whole development *)

(** A Go [error]: [None] is the nil error, [Some s] an error whose
    [Error()] text is [s]. *)
Definition error := option string.

(** A [*Request] pointer, compared by identity in the source. *)
Definition ptr := nat.

(** * Handler registry (Request.elems)  *)

Module Registry.
Section Defs.

(** The application state the user callbacks act on. *)
Variable App : Type.

(** [type EventFn func(rq *Request, id, evt, val string) error]; a handler
    may change application state, which is threaded explicitly. *)
Definition EventFn : Type := ptr -> string -> string -> string -> App -> App * error.

(** [rq.elems map[string]EventFn]: a registered id may carry the nil handler. *)
Local Abbreviation Elems := (gmap string (option EventFn)).

(** [var metaIds = map[string]struct{}{...}] *)
Definition metaIds : gset string :=
  {[ " reload"%string; " ping"%string; " redirect"%string; " alert"%string ]}.

(** [MakeID] is not part of the sources at hand: the n-th call of the
    process-wide generator yields [MakeID n]. *)
Variable MakeID : nat -> string.

(** The generating loop of [RegisterEventFn]:
    [for { jid = MakeID(); if _, ok := rq.elems[jid]; !ok { rq.elems[jid] = fn; break } }].
    [next] counts the calls already made to [MakeID]; the result is the jid,
    the new map and the new call count.  [None] means the fuel ran out. *)
Fixpoint RegisterEventFn_gen (fuel : nat) (next : nat) (elems : Elems) (fn : option EventFn)
  : option (string * Elems * nat) :=
  match fuel with
  | O => None
  | S fuel' =>
      let jid := MakeID next in
      match elems !! jid with
      | None => Some (jid, <[jid := fn]> elems, S next)
      | Some _ => RegisterEventFn_gen fuel' (S next) elems fn
      end
  end.

(** [func (rq *Request) RegisterEventFn(jid string, fn EventFn) string] *)
Definition RegisterEventFn (fuel : nat) (next : nat) (elems : Elems)
  (jid : string) (fn : option EventFn) : option (string * Elems * nat) :=
  if decide (jid <> ""%string) then
    match elems !! jid, fn with
    | Some _, None => Some (jid, elems, next)
    | _, _ => Some (jid, <[jid := fn]> elems, next)
    end
  else RegisterEventFn_gen fuel next elems fn.

(** [func (rq *Request) Register(jid string) string] *)
Definition Register (fuel next : nat) (elems : Elems) (jid : string) :=
  RegisterEventFn fuel next elems jid None.

(** [func (rq *Request) GetEventFn(jid string) (fn EventFn, ok bool)] *)
Definition GetEventFn (elems : Elems) (jid : string) : option EventFn * bool :=
  match elems !! jid with
  | Some fn => (fn, true)
  | None => (None, bool_decide (jid ∈ metaIds))
  end.

(** [func (rq *Request) SetEventFn(jid string, fn EventFn)] *)
Definition SetEventFn (elems : Elems) (jid : string) (fn : option EventFn) : Elems :=
  <[jid := fn]> elems.

End Defs.
End Registry.

(** * Element registry (Request.elems, Request.tagMap; ui.go) *)

Module Elements.
Section Defs.

(** The [UI] interface value and the [data []interface{}] of an element. *)
Variable UI : Type.
Variable Data : Type.

(** Tags are [interface{}] map keys: any comparable Go value. *)
Context {Tag : Type} `{Countable Tag}.

(** [elem.Jid()] used as a map key, i.e. boxed into [interface{}]. *)
Variable jidTag : Z -> Tag.

(** [type Element struct]; [rq] is the back pointer to the owning Request. *)
Record Element := mkElement {
  jid : Z;
  ui : UI;
  Data_ : Data;
  rq : ptr
}.

(** The fields of [Request] the element registry owns. *)
Record Store := mkStore {
  elems : list Element;
  tagMap : gmap Tag (list Element)
}.

(** [rq.tagMap[tag] = append(rq.tagMap[tag], elem)]; a missing key reads as
    the nil slice. *)
Definition tagMap_append (tm : gmap Tag (list Element)) (tag : Tag) (elem : Element)
  : gmap Tag (list Element) :=
  <[tag := default [] (tm !! tag) ++ [elem]]> tm.

(** [func (rq *Request) newElementLocked(tags []interface{}, ui UI, data []interface{}) (elem *Element)] *)
Definition newElementLocked (self : ptr) (st : Store) (tags : list Tag) (u : UI) (d : Data)
  : option Element * Store :=
  if decide (0 < length tags)%nat then
    let elem := mkElement (Z.of_nat (length (elems st)) + 1) u d self in
    let elems1 := elems st ++ [elem] in
    let tm1 := tagMap_append (tagMap st) (jidTag (jid elem)) elem in
    let tm2 := foldl (fun tm tag => tagMap_append tm tag elem) tm1 tags in
    (Some elem, mkStore elems1 tm2)
  else (None, st).

(** [func (rq *Request) GetElement(jid string) (e *Element)], after the
    [strconv.Atoi] of its argument succeeded with [n]. *)
Definition GetElement (st : Store) (n : Z) : option Element :=
  if decide (0 < n) then
    if decide (n <= Z.of_nat (length (elems st))) then elems st !! Z.to_nat (n - 1)
    else None
  else None.

(** The collecting loop of [Request.Render]:
    [for _, tag := range tags { todo = append(todo, rq.tagMap[tag]...) }] *)
Definition Render_todo (st : Store) (tags : list Tag) : list Element :=
  foldl (fun todo tag => todo ++ default [] (tagMap st !! tag)) [] tags.

End Defs.

Arguments Store UI Data Tag {_ _}.
Arguments mkElement {UI Data}.
Arguments jid {UI Data}.
Arguments ui {UI Data}.
Arguments Data_ {UI Data}.
Arguments rq {UI Data}.
Arguments mkStore {UI Data Tag _ _}.
Arguments elems {UI Data Tag _ _}.
Arguments tagMap {UI Data Tag _ _}.
Arguments tagMap_append {UI Data Tag _ _}.
Arguments newElementLocked {UI Data Tag _ _}.
Arguments GetElement {UI Data Tag _ _}.
Arguments Render_todo {UI Data Tag _ _}.

End Elements.

(** * Connection event loop and handler dispatcher (Request.process,
      Request.eventCaller) *)

Module Loop.
Section Defs.

Variable App : Type.

Local Abbreviation EventFn := (Registry.EventFn App).

(** [type Message struct]: target id, command, payload, and the request
    that broadcast it ([from], nil when none). *)
Record Message := mkMessage {
  Elem : string;
  What : string;
  Data : string;
  from : option ptr
}.

(** [type eventFnCall struct { fn EventFn; msg *Message }] *)
Record eventFnCall := mkCall {
  fn : option EventFn;
  msg : option Message
}.

(** A Go channel as the sender sees it: the buffered values, the capacity
    given to [make], and whether a receiver is parked on it. *)
Record chan (A : Type) := mkChan {
  queue : list A;
  capacity : nat;
  receiver_waiting : bool
}.
Arguments mkChan {A}.
Arguments queue {A}.
Arguments capacity {A}.
Arguments receiver_waiting {A}.

(** [make(chan A, n)] *)
Definition make_chan {A} (n : nat) : chan A := mkChan [] n false.

(** A send can proceed when a receiver is parked or the buffer has room. *)
Definition can_send {A} (c : chan A) : bool :=
  receiver_waiting c || (length (queue c) <? capacity c)%nat.

Definition send {A} (c : chan A) (x : A) : chan A :=
  mkChan (queue c ++ [x]) (capacity c) false.

(** The double quote character, which [html.EscapeString] replaces. *)
Definition dquote : ascii := "034"%char.

(** [html.EscapeString]: the five replacements of [htmlEscaper]. *)
Fixpoint EscapeString (s : string) : string :=
  match s with
  | EmptyString => EmptyString
  | String c rest =>
      (if Ascii.eqb c "&" then "&amp;"
       else if Ascii.eqb c "'" then "&#39;"
       else if Ascii.eqb c "<" then "&lt;"
       else if Ascii.eqb c ">" then "&gt;"
       else if Ascii.eqb c dquote then "&#34;"
       else String c EmptyString) +:+ EscapeString rest
  end.

(** [func makeAlertDangerMessage(err error) (msg *Message)] *)
Definition makeAlertDangerMessage (err : error) : option Message :=
  match err with
  | Some text => Some (mkMessage " alert" "danger" (EscapeString text) None)
  | None => None
  end.

(** The lines the loop and the dispatcher hand to the logger. *)
Inductive LogLine :=
| EventCallChFull (rq : ptr) (m : Message)
| OutboundMsgChFull (rq : ptr) (m : Message)
| OutboundFullSendingEventError (text : string).

(** What one connection's loop and dispatcher own; [outboundMsgCh] carries
    [*Message] pointers. *)
Record State := mkState {
  eventCallCh : chan eventFnCall;
  outboundMsgCh : chan (option Message);
  logged : list LogLine;
  app : App
}.

(** The case the loop's [select] took; a receive carries the pointer it
    got, nil when the channel was closed. *)
Inductive Selected :=
| JawsDone
| CtxDone
| FromSendCh (m : option Message)
| FromBroadcastCh (m : option Message)
| FromIncomingCh (m : option Message).

Definition received (s : Selected) : option Message :=
  match s with
  | JawsDone | CtxDone => None
  | FromSendCh m | FromBroadcastCh m | FromIncomingCh m => m
  end.

Definition is_incoming (s : Selected) : bool :=
  match s with FromIncomingCh _ => true | _ => false end.

(** How one pass through the loop body ends. *)
Inductive Outcome :=
| Continue (st : State)
| Return (st : State)
| Panic.

(** The [select] that offers a message to [outboundMsgCh]: every ready case
    may be taken, [default] only when none is ready. *)
Definition offer_outbound (self : ptr) (jawsDone ctxDone : bool) (st : State) (m : Message)
  : list Outcome :=
  let ready :=
    (if jawsDone then [Continue st] else []) ++
    (if ctxDone then [Continue st] else []) ++
    (if can_send (outboundMsgCh st)
     then [Continue (mkState (eventCallCh st) (send (outboundMsgCh st) (Some m))
                       (logged st) (app st))]
     else []) in
  match ready with
  | [] => [Return (mkState (eventCallCh st) (outboundMsgCh st)
                     (logged st ++ [OutboundMsgChFull self m]) (app st))]
  | _ => ready
  end.

(** One pass through the body of the [for] loop of [Request.process], for
    the request at address [self] with handler map [elems]; [jawsDone] and
    [ctxDone] tell whether the two done channels are closed when the inner
    [select] runs.  The result lists every outcome the pass can have. *)
Definition process_step (self : ptr) (elems : gmap string (option EventFn))
  (jawsDone ctxDone : bool) (st : State) (sel : Selected) : list Outcome :=
  match received sel with
  | None => [Return st]
  | Some m =>
      if decide (from m = Some self) then [Continue st]
      else
        match Registry.GetEventFn App elems (Elem m) with
        | (f, true) =>
            if is_incoming sel || bool_decide (What m = "trigger"%string) then
              match f with
              | Some _ =>
                  if can_send (eventCallCh st)
                  then [Continue (mkState (send (eventCallCh st) (mkCall f (Some m)))
                                    (outboundMsgCh st) (logged st) (app st))]
                  else [Return (mkState (eventCallCh st) (outboundMsgCh st)
                                  (logged st ++ [EventCallChFull self m]) (app st))]
              | None => [Continue st]
              end
            else if bool_decide (What m = "hook"%string) then
              match f with
              | None => [Panic]
              | Some h =>
                  let '(app', err) := h self (Elem m) (What m) (Data m) (app st) in
                  let st' := mkState (eventCallCh st) (outboundMsgCh st) (logged st) app' in
                  match makeAlertDangerMessage err with
                  | Some alert => offer_outbound self jawsDone ctxDone st' alert
                  | None => [Continue st']
                  end
              end
            else offer_outbound self jawsDone ctxDone st m
        | (_, false) => [Continue st]
        end
  end.

(** The state [Request.process] starts from:
    [eventCallCh := make(chan eventFnCall, cap(outboundMsgCh))]. *)
Definition process_init (outbound : chan (option Message)) (a : App) : State :=
  mkState (make_chan (capacity outbound)) outbound [] a.

(** One iteration of [for call := range eventCallCh] in
    [Request.eventCaller], for the call just received; [None] is the panic
    of calling a nil function or reading through a nil message. *)
Definition eventCaller_step (self : ptr) (st : State) (call : eventFnCall) : option State :=
  match fn call, msg call with
  | Some h, Some m =>
      let '(app', err) := h self (Elem m) (What m) (Data m) (app st) in
      match err with
      | Some text =>
          if can_send (outboundMsgCh st)
          then Some (mkState (eventCallCh st)
                       (send (outboundMsgCh st) (makeAlertDangerMessage err)) (logged st) app')
          else Some (mkState (eventCallCh st) (outboundMsgCh st)
                       (logged st ++ [OutboundFullSendingEventError text]) app')
      | None => Some (mkState (eventCallCh st) (outboundMsgCh st) (logged st) app')
      end
  | _, _ => None
  end.

(** [func (rq *Request) Broadcast(msg *Message)]: stamps the sender, then
    hands the message to [Jaws.Broadcast], which is not part of the sources
    at hand and is taken as [publish]. *)
Definition Broadcast {Hub : Type} (publish : Message -> Hub -> Hub)
  (self : ptr) (m : Message) (hub : Hub) : Hub :=
  publish (mkMessage (Elem m) (What m) (Data m) (Some self)) hub.





End Defs.

Arguments mkChan {A}.
Arguments queue {A}.
Arguments capacity {A}.
Arguments receiver_waiting {A}.
Arguments Continue {App}.
Arguments Return {App}.
Arguments Panic {App}.
Arguments mkState {App}.
Arguments eventCallCh {App}.
Arguments outboundMsgCh {App}.
Arguments logged {App}.
Arguments app {App}.
Arguments mkCall {App}.
Arguments fn {App}.
Arguments msg {App}.

End Loop.

(** * Reconnection check (Request.start) *)

Module Start.
Section Defs.

(** [net.IP] with its nil value, and the helpers [parseIP] and [equalIP],
    which are not part of the sources at hand; [IP_String] is
    [net.IP.String], [Quote] the [%q] verb of [fmt]. *)
Variable IP : Type.
Variable IP_nil : IP.
Variable parseIP : string -> IP.
Variable equalIP : IP -> IP -> bool.
Variable IP_String : IP -> string.
Variable Quote : string -> string.
Variable JawsKeyString : Z -> string.

(** The one field of [http.Request] the check reads. *)
Record HttpRequest := mkHttpRequest { RemoteAddr : string }.

(** The fields of [Request] the check reads. *)
Record Request := mkRequest {
  JawsKey : Z;
  remoteIP : IP
}.

(** What [newRequest] records about the peer:
    [if hr != nil { rq.remoteIP = parseIP(hr.RemoteAddr) }]; a pooled
    request has the nil IP. *)
Definition newRequest (jawsKey : Z) (hr : option HttpRequest) : Request :=
  match hr with
  | Some h => mkRequest jawsKey (parseIP (RemoteAddr h))
  | None => mkRequest jawsKey IP_nil
  end.

(** [actualIP] as [start] computes it. *)
Definition actualIP (hr : option HttpRequest) : IP :=
  match hr with
  | Some h => parseIP (RemoteAddr h)
  | None => IP_nil
  end.

(** [func (rq *Request) start(hr *http.Request) error] *)
Definition start (rq : Request) (hr : option HttpRequest) : error :=
  let expectIP := remoteIP rq in
  if equalIP expectIP (actualIP hr) then None
  else Some ("/jaws/" +:+ JawsKeyString (JawsKey rq) +:+ ": expected IP "
             +:+ Quote (IP_String expectIP) +:+ ", got "
             +:+ Quote (IP_String (actualIP hr)))%string.

End Defs.
End Start.

(** * Typed input handlers (maybeInputFloat, maybeInputBool, maybeInputDate) *)

Module Input.
Section Defs.

Variable App : Type.

Local Abbreviation EventFn := (Registry.EventFn App).

(** [float64] with its zero value and [strconv.ParseFloat(val, 64)]. *)
Variable float64 : Type.
Variable float64_zero : float64.
Variable ParseFloat : string -> float64 * error.

(** [time.Time] with its zero value and [time.Parse(layout, val)]. *)
Variable Time : Type.
Variable Time_zero : Time.
Variable time_Parse : string -> string -> Time * error.

(** [strconv.Quote], used by the error texts of [strconv]. *)
Variable Quote : string -> string.

(** [const ISO8601 = "2006-01-02"] *)
Definition ISO8601 : string := "2006-01-02".

(** [strconv.ParseBool] *)
Definition ParseBool (str : string) : bool * error :=
  if bool_decide (str ∈ ["1"; "t"; "T"; "TRUE"; "true"; "True"]%string) then (true, None)
  else if bool_decide (str ∈ ["0"; "f"; "F"; "FALSE"; "false"; "False"]%string) then (false, None)
  else (false, Some ("strconv.ParseBool: parsing " +:+ Quote str +:+ ": invalid syntax")%string).

(** The user callbacks. *)
Definition InputTextFn : Type := ptr -> string -> App -> App * error.
Definition InputFloatFn : Type := ptr -> float64 -> App -> App * error.
Definition InputBoolFn : Type := ptr -> bool -> App -> App * error.
Definition InputDateFn : Type := ptr -> Time -> App -> App * error.

(** The closure [wf] built by [maybeInputText]. *)
Definition inputText_wf (fn : InputTextFn) : EventFn :=
  fun rq id evt val a =>
    if bool_decide (evt = "input"%string) then fn rq val a else (a, None).

(** The closure [wf] built by [maybeInputFloat]. *)
Definition inputFloat_wf (fn : InputFloatFn) : EventFn :=
  fun rq id evt val a =>
    if bool_decide (evt = "input"%string) then
      if bool_decide (val <> ""%string) then
        match ParseFloat val with
        | (_, Some e) => (a, Some e)
        | (v, None) => fn rq v a
        end
      else fn rq float64_zero a
    else (a, None).

(** The closure [wf] built by [maybeInputBool]. *)
Definition inputBool_wf (fn : InputBoolFn) : EventFn :=
  fun rq id evt val a =>
    if bool_decide (evt = "input"%string) then
      if bool_decide (val <> ""%string) then
        match ParseBool val with
        | (_, Some e) => (a, Some e)
        | (v, None) => fn rq v a
        end
      else fn rq false a
    else (a, None).

(** The closure [wf] built by [maybeInputDate]. *)
Definition inputDate_wf (fn : InputDateFn) : EventFn :=
  fun rq id evt val a =>
    if bool_decide (evt = "input"%string) then
      if bool_decide (val <> ""%string) then
        match time_Parse ISO8601 val with
        | (_, Some e) => (a, Some e)
        | (v, None) => fn rq v a
        end
      else fn rq Time_zero a
    else (a, None).

Variable MakeID : nat -> string.

(** [func (rq *Request) maybeInputFloat(jid string, fn InputFloatFn) string];
    a nil [fn] leaves [wf] nil. *)
Definition maybeInputFloat (fuel next : nat) (elems : gmap string (option EventFn))
  (jid : string) (fn : option InputFloatFn) :=
  Registry.RegisterEventFn App MakeID fuel next elems jid (inputFloat_wf <$> fn).

(** [func (rq *Request) maybeInputBool(jid string, fn InputBoolFn) string] *)
Definition maybeInputBool (fuel next : nat) (elems : gmap string (option EventFn))
  (jid : string) (fn : option InputBoolFn) :=
  Registry.RegisterEventFn App MakeID fuel next elems jid (inputBool_wf <$> fn).

(** [func (rq *Request) maybeInputDate(jid string, fn InputDateFn) string] *)
Definition maybeInputDate (fuel next : nat) (elems : gmap string (option EventFn))
  (jid : string) (fn : option InputDateFn) :=
  Registry.RegisterEventFn App MakeID fuel next elems jid (inputDate_wf <$> fn).

End Defs.
End Input.

(** * Bytes and UTF-8 (Go's [byte], [unicode/utf8]) *)

(** A Go [byte] as a number, and the truncating conversion [byte(x)]. *)
Definition bz (b : byte) : Z := Z.of_N (Byte.to_N b).

Definition zb (z : Z) : byte := default x00 (Byte.of_N (Z.to_N (z mod 256))).

(** [int32(x)] and [uint32(x)] of a wider value: wrap-around. *)
Definition int32 (z : Z) : Z := (z + 2 ^ 31) mod 2 ^ 32 - 2 ^ 31.
Definition uint32 (z : Z) : Z := z mod 2 ^ 32.

(** [s[lo:hi]] on a slice that is long enough. *)
Definition slice {A} (s : list A) (lo hi : nat) : list A := take (hi - lo) (drop lo s).

Module utf8.

Definition RuneError : Z := 0xFFFD.
Definition RuneSelf : Z := 0x80.
Definition MaxRune : Z := 0x10FFFF.
Definition surrogateMin : Z := 0xD800.
Definition surrogateMax : Z := 0xDFFF.

Definition tx : Z := 0x80.
Definition t2 : Z := 0xC0.
Definition t3 : Z := 0xE0.
Definition t4 : Z := 0xF0.
Definition maskx : Z := 0x3F.
Definition mask2 : Z := 0x1F.
Definition mask3 : Z := 0x0F.
Definition mask4 : Z := 0x07.
Definition rune1Max : Z := 0x7F.
Definition rune2Max : Z := 0x7FF.
Definition rune3Max : Z := 0xFFFF.
Definition locb : Z := 0x80.
Definition hicb : Z := 0xBF.

(** The information bytes of the [first] table. *)
Definition xx : Z := 0xF1.
Definition as_ : Z := 0xF0.
Definition s1 : Z := 0x02.
Definition s2 : Z := 0x13.
Definition s3 : Z := 0x03.
Definition s4 : Z := 0x23.
Definition s5 : Z := 0x34.
Definition s6 : Z := 0x04.
Definition s7 : Z := 0x44.

(** [first[b]]: the table, row by row. *)
Definition first (b : Z) : Z :=
  if b <? 0x80 then as_
  else if b <? 0xC2 then xx
  else if b <? 0xE0 then s1
  else if b =? 0xE0 then s2
  else if b <? 0xED then s3
  else if b =? 0xED then s4
  else if b <? 0xF0 then s3
  else if b =? 0xF0 then s5
  else if b <? 0xF4 then s6
  else if b =? 0xF4 then s7
  else xx.

(** [acceptRanges[i]] as [(lo, hi)]; the entries past the fifth are zero. *)
Definition acceptRanges (i : Z) : Z * Z :=
  if i =? 0 then (locb, hicb)
  else if i =? 1 then (0xA0, hicb)
  else if i =? 2 then (locb, 0x9F)
  else if i =? 3 then (0x90, hicb)
  else if i =? 4 then (locb, 0x8F)
  else (0, 0).

(** [func DecodeRune(p []byte) (rune, int)] *)
Definition DecodeRune (p : list byte) : Z * nat :=
  match p with
  | [] => (RuneError, 0%nat)
  | p0 :: rest0 =>
      let x := first (bz p0) in
      if as_ <=? x then
        let mask := Z.shiftr (int32 (Z.shiftl x 31)) 31 in
        (Z.lor (Z.land (bz p0) (Z.lnot mask)) (Z.land RuneError mask), 1%nat)
      else
        let sz := Z.land x 7 in
        let accept := acceptRanges (Z.shiftr x 4) in
        if Z.of_nat (length p) <? sz then (RuneError, 1%nat)
        else
          match rest0 with
          | [] => (RuneError, 1%nat)
          | p1 :: rest1 =>
              let b1 := bz p1 in
              if (b1 <? fst accept) || (snd accept <? b1) then (RuneError, 1%nat)
              else if sz <=? 2 then
                (Z.lor (Z.shiftl (Z.land (bz p0) mask2) 6) (Z.land b1 maskx), 2%nat)
              else
                match rest1 with
                | [] => (RuneError, 1%nat)
                | p2 :: rest2 =>
                    let b2 := bz p2 in
                    if (b2 <? locb) || (hicb <? b2) then (RuneError, 1%nat)
                    else if sz <=? 3 then
                      (Z.lor (Z.lor (Z.shiftl (Z.land (bz p0) mask3) 12)
                                (Z.shiftl (Z.land b1 maskx) 6))
                         (Z.land b2 maskx), 3%nat)
                    else
                      match rest2 with
                      | [] => (RuneError, 1%nat)
                      | p3 :: _ =>
                          let b3 := bz p3 in
                          if (b3 <? locb) || (hicb <? b3) then (RuneError, 1%nat)
                          else
                            (Z.lor (Z.lor (Z.lor (Z.shiftl (Z.land (bz p0) mask4) 18)
                                             (Z.shiftl (Z.land b1 maskx) 12))
                                      (Z.shiftl (Z.land b2 maskx) 6))
                               (Z.land b3 maskx), 4%nat)
                      end
                end
          end
  end.

(** [func ValidRune(r rune) bool] *)
Definition ValidRune (r : Z) : bool :=
  if (0 <=? r) && (r <? surrogateMin) then true
  else if (surrogateMax <? r) && (r <=? MaxRune) then true
  else false.

(** The three-byte form shared by two cases of [appendRuneNonASCII]. *)
Definition encode3 (r : Z) : list byte :=
  [zb (Z.lor t3 (bz (zb (Z.shiftr r 12))));
   zb (Z.lor tx (Z.land (bz (zb (Z.shiftr r 6))) maskx));
   zb (Z.lor tx (Z.land (bz (zb r)) maskx))].

(** [func AppendRune(p []byte, r rune) []byte], as the bytes appended. *)
Definition AppendRune (r : Z) : list byte :=
  let i := uint32 r in
  if i <=? rune1Max then [zb r]
  else if i <=? rune2Max then
    [zb (Z.lor t2 (bz (zb (Z.shiftr r 6))));
     zb (Z.lor tx (Z.land (bz (zb r)) maskx))]
  else if (MaxRune <? i) || ((surrogateMin <=? i) && (i <=? surrogateMax)) then
    encode3 RuneError
  else if i <=? rune3Max then encode3 r
  else
    [zb (Z.lor t4 (bz (zb (Z.shiftr r 18))));
     zb (Z.lor tx (Z.land (bz (zb (Z.shiftr r 12))) maskx));
     zb (Z.lor tx (Z.land (bz (zb (Z.shiftr r 6))) maskx));
     zb (Z.lor tx (Z.land (bz (zb r)) maskx))].

End utf8.

(** * [bytes.IndexByte] and [bytes.ToValidUTF8] *)

Module bytes.

(** [func IndexByte(b []byte, c byte) int] *)
Fixpoint IndexByte (b : list byte) (c : byte) : Z :=
  match b with
  | [] => -1
  | x :: rest =>
      if Byte.eqb x c then 0
      else let i := IndexByte rest c in if i <? 0 then -1 else i + 1
  end.

(** The loop of [func ToValidUTF8(s, replacement []byte) []byte]; [invalid]
    tells that the previous byte was part of an invalid sequence.  Every
    pass consumes at least one byte, so [length s] passes suffice. *)
Fixpoint ToValidUTF8_loop (fuel : nat) (s replacement : list byte) (invalid : bool)
  : list byte :=
  match fuel with
  | O => []
  | S fuel' =>
      match s with
      | [] => []
      | c :: rest =>
          if bz c <? utf8.RuneSelf then c :: ToValidUTF8_loop fuel' rest replacement false
          else
            let wid := snd (utf8.DecodeRune s) in
            if (wid =? 1)%nat then
              (if invalid then [] else replacement)
                ++ ToValidUTF8_loop fuel' rest replacement true
            else take wid s ++ ToValidUTF8_loop fuel' (drop wid s) replacement false
      end
  end.

Definition ToValidUTF8 (s replacement : list byte) : list byte :=
  ToValidUTF8_loop (length s) s replacement false.

End bytes.

(** * Quoting (Go's [strconv.AppendQuote] and [strconv.Unquote]) *)

Module strconv.

(** [utf8.Valid]: no position decodes to an invalid byte. *)
Fixpoint Valid_loop (fuel : nat) (p : list byte) : bool :=
  match fuel with
  | O => true
  | S fuel' =>
      match p with
      | [] => true
      | c :: rest =>
          if bz c <? utf8.RuneSelf then Valid_loop fuel' rest
          else
            let wid := snd (utf8.DecodeRune p) in
            if (wid =? 1)%nat then false else Valid_loop fuel' (drop wid p)
      end
  end.

Definition Valid (p : list byte) : bool := Valid_loop (length p) p.

(** [const lowerhex = "0123456789abcdef"], indexed. *)
Definition lowerhex (i : Z) : byte :=
  nth (Z.to_nat i)
    [x30; x31; x32; x33; x34; x35; x36; x37; x38; x39; x61; x62; x63; x64; x65; x66] x00.

(** [func unhex(b byte) (v rune, ok bool)] *)
Definition unhex (b : byte) : option Z :=
  let c := bz b in
  if (0x30 <=? c) && (c <=? 0x39) then Some (c - 0x30)
  else if (0x61 <=? c) && (c <=? 0x66) then Some (c - 0x61 + 10)
  else if (0x41 <=? c) && (c <=? 0x46) then Some (c - 0x41 + 10)
  else None.

(** [func contains(s string, c byte) bool] *)
Definition contains (s : list byte) (c : byte) : bool := negb (bytes.IndexByte s c <? 0).

Section Quote.

(** [IsPrint] consults generated tables for the runes above Latin-1; the
    tables are taken as [isPrintWide]. *)
Variable isPrintWide : Z -> bool.

(** [func IsPrint(r rune) bool] *)
Definition IsPrint (r : Z) : bool :=
  if r <=? 0xFF then
    if (0x20 <=? r) && (r <? 0x7F) then true
    else if (0xA1 <=? r) && (r <=? 0xFF) then negb (r =? 0xAD)
    else false
  else isPrintWide r.

(** [for s := hi; s >= 0; s -= 4 { buf = append(buf, lowerhex[r>>uint(s)&0xF]) }],
    for [n] digits. *)
Fixpoint hexdigits (n : nat) (r : Z) : list byte :=
  match n with
  | O => []
  | S n' => lowerhex (Z.land (Z.shiftr r (4 * Z.of_nat n')) 0xF) :: hexdigits n' r
  end.

(** [func appendEscapedRune(buf []byte, r rune, quote byte, ASCIIonly, graphicOnly bool) []byte]
    with both flags false, as the bytes appended. *)
Definition appendEscapedRune (r : Z) (quote : byte) : list byte :=
  if (r =? bz quote) || (r =? 0x5C) then [x5c; zb r]
  else if IsPrint r then utf8.AppendRune r
  else if r =? 0x07 then [x5c; x61]
  else if r =? 0x08 then [x5c; x62]
  else if r =? 0x0C then [x5c; x66]
  else if r =? 0x0A then [x5c; x6e]
  else if r =? 0x0D then [x5c; x72]
  else if r =? 0x09 then [x5c; x74]
  else if r =? 0x0B then [x5c; x76]
  else if (r <? 0x20) || (r =? 0x7F) then
    [x5c; x78; lowerhex (Z.shiftr (bz (zb r)) 4); lowerhex (Z.land (bz (zb r)) 0xF)]
  else if negb (utf8.ValidRune r) then [x5c; x75] ++ hexdigits 4 0xFFFD
  else if r <? 0x10000 then [x5c; x75] ++ hexdigits 4 r
  else [x5c; x55] ++ hexdigits 8 r.

(** The loop of [appendQuotedWith]; every pass consumes at least one byte,
    so [length s] passes suffice. *)
Fixpoint appendQuoted_loop (fuel : nat) (s : list byte) (quote : byte) : list byte :=
  match fuel with
  | O => []
  | S fuel' =>
      match s with
      | [] => []
      | s0 :: _ =>
          let '(r, width) :=
            if utf8.RuneSelf <=? bz s0 then utf8.DecodeRune s else (bz s0, 1%nat) in
          (if (width =? 1)%nat && (r =? utf8.RuneError) then
             [x5c; x78; lowerhex (Z.shiftr (bz s0) 4); lowerhex (Z.land (bz s0) 0xF)]
           else appendEscapedRune r quote)
            ++ appendQuoted_loop fuel' (drop width s) quote
      end
  end.

(** [func AppendQuote(dst []byte, s string) []byte], as the bytes appended. *)
Definition AppendQuote (s : list byte) : list byte :=
  [x22] ++ appendQuoted_loop (length s) s x22 ++ [x22].

End Quote.

(** The digit loop of the hexadecimal escapes of [UnquoteChar]:
    [v = v<<4 | x] in [rune] arithmetic; [None] when a byte is no digit. *)
Definition hex_step (acc : option Z) (b : byte) : option Z :=
  match acc, unhex b with
  | Some v, Some x => Some (int32 (Z.lor (Z.shiftl v 4) x))
  | _, _ => None
  end.

Definition hex_value (digits : list byte) : option Z := foldl hex_step (Some 0) digits.

(** The digit loop of the octal escapes: [v = (v << 3) | x]. *)
Definition octal_step (acc : option Z) (b : byte) : option Z :=
  match acc with
  | Some v =>
      let x := bz b - 0x30 in
      if (x <? 0) || (7 <? x) then None else Some (Z.lor (Z.shiftl v 3) x)
  | None => None
  end.

(** The escapes [\x], [\u] and [\U] of [UnquoteChar], with [n] digits;
    [multi] is false for [\x]. *)
Definition unquote_hex (n : nat) (multi : bool) (s : list byte) : option (Z * bool * list byte) :=
  if (length s <? n)%nat then None
  else
    match hex_value (take n s) with
    | None => None
    | Some v =>
        if multi then
          if utf8.ValidRune v then Some (v, true, drop n s) else None
        else Some (v, false, drop n s)
    end.

(** [func UnquoteChar(s string, quote byte) (value rune, multibyte bool, tail string, err error)];
    [None] is [ErrSyntax]. *)
Definition UnquoteChar (s : list byte) (quote : byte) : option (Z * bool * list byte) :=
  match s with
  | [] => None
  | c :: s1 =>
      if Byte.eqb c quote && (Byte.eqb quote x27 || Byte.eqb quote x22) then None
      else if utf8.RuneSelf <=? bz c then
        let '(r, size) := utf8.DecodeRune s in Some (r, true, drop size s)
      else if negb (Byte.eqb c x5c) then Some (bz c, false, s1)
      else
        match s1 with
        | [] => None
        | c1 :: s2 =>
            let c := bz c1 in
            if c =? 0x61 then Some (0x07, false, s2)
            else if c =? 0x62 then Some (0x08, false, s2)
            else if c =? 0x66 then Some (0x0C, false, s2)
            else if c =? 0x6E then Some (0x0A, false, s2)
            else if c =? 0x72 then Some (0x0D, false, s2)
            else if c =? 0x74 then Some (0x09, false, s2)
            else if c =? 0x76 then Some (0x0B, false, s2)
            else if c =? 0x78 then unquote_hex 2 false s2
            else if c =? 0x75 then unquote_hex 4 true s2
            else if c =? 0x55 then unquote_hex 8 true s2
            else if (0x30 <=? c) && (c <=? 0x37) then
              if (length s2 <? 2)%nat then None
              else
                match foldl octal_step (Some (c - 0x30)) (take 2 s2) with
                | None => None
                | Some v => if 255 <? v then None else Some (v, false, drop 2 s2)
                end
            else if c =? 0x5C then Some (0x5C, false, s2)
            else if (c =? 0x27) || (c =? 0x22) then
              if Byte.eqb c1 quote then Some (c, false, s2) else None
            else None
        end
  end.

(** What [Unquote] returns: the string, [ErrSyntax], or the loop model out
    of passes. *)
Inductive UnquoteResult :=
| Unquoted (s : list byte)
| ErrSyntax
| OutOfFuel.

(** The escape-processing loop of [unquote] for a double-quoted string:
    [in_] is what is left to read, [buf] what was decoded so far. *)
Fixpoint unquote_loop (fuel : nat) (in_ : list byte) (buf : list byte) : UnquoteResult :=
  match in_ with
  | [] => ErrSyntax
  | c :: rest =>
      if Byte.eqb c x22 then
        (* the terminating quote; [Unquote] rejects anything after it *)
        match rest with [] => Unquoted buf | _ => ErrSyntax end
      else
        match fuel with
        | O => OutOfFuel
        | S fuel' =>
            match UnquoteChar in_ x22 with
            | None => ErrSyntax
            | Some (r, multibyte, rem) =>
                if Byte.eqb c x0a then ErrSyntax
                else
                  unquote_loop fuel' rem
                    (buf ++ (if (r <? utf8.RuneSelf) || negb multibyte then [zb r]
                             else utf8.AppendRune r))
            end
        end
  end.

(** [func Unquote(s string) (string, error)] on a string that starts with
    a double quote: the double-quote case of [unquote], then the check that
    nothing follows the closing quote. *)
Definition Unquote_double (in_ : list byte) : UnquoteResult :=
  if (length in_ <? 2)%nat then ErrSyntax
  else
    let end0 := bytes.IndexByte (drop 1 in_) x22 in
    if end0 <? 0 then ErrSyntax
    else
      let end_ := Z.to_nat (end0 + 2) in
      if negb (contains (take end_ in_) x5c) && negb (contains (take end_ in_) x0a)
         && Valid (slice in_ 1 (end_ - 1))
      then
        match drop end_ in_ with
        | [] => Unquoted (slice in_ 1 (end_ - 1))
        | _ => ErrSyntax
        end
      else unquote_loop (length in_) (drop 1 in_) [].

End strconv.

(** * Wire codec (wsmsg.go) *)

(** How a Go function call ends: with its results, with a run-time panic
    (index or slice bounds out of range), or, for the loop models that take
    fuel, without having finished. *)
Inductive GoResult (A : Type) :=
| Returns (a : A)
| Panics
| Unfinished.
Arguments Returns {A}.
Arguments Panics {A}.
Arguments Unfinished {A}.

#[global] Instance GoResult_ret : MRet GoResult := fun A a => Returns a.
#[global] Instance GoResult_bind : MBind GoResult := fun A B f m =>
  match m with
  | Returns a => f a
  | Panics => Panics
  | Unfinished => Unfinished
  end.

(** [s[i]] with its bounds check. *)
Definition go_index {A} (s : list A) (i : Z) : GoResult A :=
  if 0 <=? i then
    match s !! Z.to_nat i with
    | Some x => Returns x
    | None => Panics
    end
  else Panics.

(** [s[lo:hi]] with its bounds check. *)
Definition go_slice {A} (s : list A) (lo hi : Z) : GoResult (list A) :=
  if (0 <=? lo) && (lo <=? hi) && (hi <=? Z.of_nat (length s))
  then Returns (slice s (Z.to_nat lo) (Z.to_nat hi))
  else Panics.

(** The command type of package [what], which is not part of the sources
    at hand: the type with its zero value, [What.String], [what.Parse] and
    [What.IsValid]. *)
Class WhatPkg := {
  What : Type;
  What_zero : What;
  What_String : What -> list byte;
  what_Parse : list byte -> What;
  What_IsValid : What -> bool
}.

(** The text form of a [Jid], not part of the sources at hand:
    [Jid.Append] (as the bytes it appends) and [JidParseString]. *)
Class JidPkg := {
  Jid_Append : Z -> list byte;
  JidParseString : list byte -> Z
}.

Module wire.
Section Defs.

Context `{WhatPkg} `{JidPkg}.
Variable isPrintWide : Z -> bool.

(** [type wsMsg struct { Data string; Jid Jid; What what.What }] *)
Record wsMsg := mkWsMsg {
  Data : list byte;
  Jid : Z;
  What_ : What
}.

(** [wsMsg{}] *)
Definition wsMsg_zero : wsMsg := mkWsMsg [] 0 What_zero.

(** [func (m *wsMsg) IsValid() bool] *)
Definition IsValid (m : wsMsg) : bool := What_IsValid (What_ m).

(** [func (m *wsMsg) Append(b []byte) []byte] *)
Definition Append (m : wsMsg) (b : list byte) : list byte :=
  let b := b ++ What_String (What_ m) in
  let b := b ++ [x09] in
  let b :=
    if 0 <=? Jid m then
      (if 0 <? Jid m then b ++ Jid_Append (Jid m) else b) ++ [x09]
    else b in
  let b :=
    if (0 <? length (Data m))%nat then b ++ strconv.AppendQuote isPrintWide (Data m)
    else b in
  b ++ [x0a].

(** [func (m *wsMsg) Format() string] *)
Definition Format (m : wsMsg) : list byte := Append m [].

(** [func wsParse(txt []byte) (wsMsg, bool)] *)
Definition wsParse (txt0 : list byte) : GoResult (wsMsg * bool) :=
  let txt := bytes.ToValidUTF8 txt0 [] in
  let len := Z.of_nat (length txt) in
  if 0 <? len then
    last ← go_index txt (len - 1);
    if Byte.eqb last x0a then
      let nl1 := bytes.IndexByte txt x09 in
      if 0 <=? nl1 then
        rest ← go_slice txt (nl1 + 1) len;
        let nl2 := bytes.IndexByte rest x09 in
        if 0 <=? nl2 then
          let nl2 := nl2 + (nl1 + 1) in
          token ← go_slice txt 0 nl1;
          let wht := what_Parse token in
          if What_IsValid wht then
            data ← go_slice txt (nl2 + 1) (len - 1);
            first ← go_index txt (nl2 + 1);
            if Byte.eqb first x22 then
              match strconv.Unquote_double data with
              | strconv.Unquoted data' =>
                  jid ← go_slice txt (nl1 + 1) nl2;
                  mret (mkWsMsg data' (JidParseString jid) wht, true)
              | strconv.ErrSyntax => mret (wsMsg_zero, false)
              | strconv.OutOfFuel => Unfinished
              end
            else
              jid ← go_slice txt (nl1 + 1) nl2;
              mret (mkWsMsg data (JidParseString jid) wht, true)
          else mret (wsMsg_zero, false)
        else mret (wsMsg_zero, false)
      else mret (wsMsg_zero, false)
    else mret (wsMsg_zero, false)
  else mret (wsMsg_zero, false).

End Defs.

Arguments wsMsg {_}.
Arguments mkWsMsg {_}.
Arguments Data {_}.
Arguments Jid {_}.
Arguments What_ {_}.

End wire.

(** ** The missing packages, read off the specification *)

(** Modelled from the spec: package [what], absent from the sources at
    hand. Commands form a fixed enumeration (Input, Click, Trigger, Value,
    Inner, SetAttr, RemoveAttr, Alert, Redirect, Reload, Ping); a frame
    carries the command by name, and decoding fails for unrecognized
    tokens. *)
Module SpecWhat.

Inductive What :=
| invalid | Input | Click | Trigger | Value | Inner | SetAttr | RemoveAttr
| Alert | Redirect | Reload | Ping.

Definition all : list What :=
  [Input; Click; Trigger; Value; Inner; SetAttr; RemoveAttr; Alert; Redirect; Reload; Ping].

Definition String (w : What) : list byte :=
  list_byte_of_string
    match w with
    | invalid => "invalid"
    | Input => "Input"
    | Click => "Click"
    | Trigger => "Trigger"
    | Value => "Value"
    | Inner => "Inner"
    | SetAttr => "SetAttr"
    | RemoveAttr => "RemoveAttr"
    | Alert => "Alert"
    | Redirect => "Redirect"
    | Reload => "Reload"
    | Ping => "Ping"
    end%string.

Definition bytes_eqb (a b : list byte) : bool :=
  (length a =? length b)%nat && forallb (fun p => Byte.eqb (fst p) (snd p)) (combine a b).

Definition Parse (s : list byte) : What :=
  match filter (fun w => bytes_eqb (String w) s = true) all with
  | w :: _ => w
  | [] => invalid
  end.

Definition IsValid (w : What) : bool :=
  match w with invalid => false | _ => true end.

#[global] Instance pkg : WhatPkg := Build_WhatPkg What invalid String Parse IsValid.

End SpecWhat.

(** Modelled from the spec: the text form of a jid, absent from the sources
    at hand: a compact fixed-radix form that is not decimal. Radix 32 with
    the digits of [strconv.AppendInt] is taken. *)
Module SpecJid.

Definition digits : list byte :=
  list_byte_of_string "0123456789abcdefghijklmnopqrstuv".

Definition digit (d : Z) : byte := nth (Z.to_nat d) digits x00.

Definition undigit (b : byte) : option Z :=
  let c := bz b in
  if (0x30 <=? c) && (c <=? 0x39) then Some (c - 0x30)
  else if (0x61 <=? c) && (c <=? 0x76) then Some (c - 0x61 + 10)
  else None.

(** Most significant digit first; [acc] holds the digits already produced. *)
Fixpoint format (fuel : nat) (n : Z) (acc : list byte) : list byte :=
  match fuel with
  | O => acc
  | S fuel' =>
      if n <? 32 then digit n :: acc
      else format fuel' (n / 32) (digit (n mod 32) :: acc)
  end.

Definition Append (jid : Z) : list byte := format (Z.to_nat jid) jid [].

Definition parse_step (acc : option Z) (b : byte) : option Z :=
  match acc, undigit b with
  | Some v, Some d => Some (v * 32 + d)
  | _, _ => None
  end.

Definition ParseString (s : list byte) : Z :=
  match s with
  | [] => 0
  | _ => default 0 (foldl parse_step (Some 0) s)
  end.

#[global] Instance pkg : JidPkg := Build_JidPkg Append ParseString.

End SpecJid.

(** * The codec model on known inputs *)

(** A string literal as Go bytes. *)
Definition bytes_of (s : string) : list byte := list_byte_of_string s.

Example DecodeRune_two_bytes : utf8.DecodeRune [xc3; xa9; x41] = (0xE9, 2%nat).
Proof. reflexivity. Qed.

Example DecodeRune_three_bytes : utf8.DecodeRune [xe2; x82; xac] = (0x20AC, 3%nat).
Proof. reflexivity. Qed.

Example DecodeRune_four_bytes : utf8.DecodeRune [xf0; x9f; x98; x80] = (0x1F600, 4%nat).
Proof. reflexivity. Qed.

Example DecodeRune_bad_byte : utf8.DecodeRune [xff; x41] = (0xFFFD, 1%nat).
Proof. reflexivity. Qed.

Example DecodeRune_surrogate : utf8.DecodeRune [xed; xa0; x80] = (0xFFFD, 1%nat).
Proof. reflexivity. Qed.

Example DecodeRune_truncated : utf8.DecodeRune [xe2; x82] = (0xFFFD, 1%nat).
Proof. reflexivity. Qed.

Example AppendRune_samples :
  utf8.AppendRune 0xE9 = [xc3; xa9]
  /\ utf8.AppendRune 0x20AC = [xe2; x82; xac]
  /\ utf8.AppendRune 0x1F600 = [xf0; x9f; x98; x80]
  /\ utf8.AppendRune 0xD800 = [xef; xbf; xbd]
  /\ utf8.AppendRune (-1) = [xef; xbf; xbd].
Proof. repeat split. Qed.

Example ToValidUTF8_drops_invalid :
  bytes.ToValidUTF8 [x41; xff; xfe; x42; xc3; xa9; xc3] [] = [x41; x42; xc3; xa9].
Proof. reflexivity. Qed.

Example ToValidUTF8_replaces_runs :
  bytes.ToValidUTF8 [x41; xff; xfe; x42; xc3] [x3f] = [x41; x3f; x42; x3f].
Proof. reflexivity. Qed.

Example IndexByte_samples :
  bytes.IndexByte [x41; x09; x42; x09] x09 = 1 /\ bytes.IndexByte [x41; x42] x09 = -1.
Proof. split; reflexivity. Qed.

Example AppendQuote_plain :
  strconv.AppendQuote (fun _ => true) (bytes_of "quux") = [x22] ++ bytes_of "quux" ++ [x22].
Proof. reflexivity. Qed.

Example AppendQuote_escapes :
  strconv.AppendQuote (fun _ => true) [x64; x0a; x6d; x22; x5c; x01; xff; xc3; xa9; x7f; x09]
  = [x22] ++ bytes_of "d\nm\" ++ [x22] ++ bytes_of "\\\x01\xff" ++ [xc3; xa9]
      ++ bytes_of "\x7f\t" ++ [x22].
Proof. reflexivity. Qed.

Example AppendQuote_unprintable_runes :
  strconv.AppendQuote (fun _ => false) [xc3; xa9; xe2; x80; xa8; xf0; x9f; x98; x80]
  = [x22; xc3; xa9] ++ bytes_of "\u2028\U0001f600" ++ [x22].
Proof. reflexivity. Qed.

Example Unquote_escapes :
  strconv.Unquote_double ([x22] ++ bytes_of "a\101\x4aé" ++ [x22])
  = strconv.Unquoted [x61; x41; x4a; xc3; xa9].
Proof. reflexivity. Qed.

Example Unquote_rejects :
  strconv.Unquote_double ([x22] ++ bytes_of "a" ++ [x22] ++ bytes_of "b") = strconv.ErrSyntax
  /\ strconv.Unquote_double ([x22] ++ bytes_of "a\q" ++ [x22]) = strconv.ErrSyntax
  /\ strconv.Unquote_double ([x22] ++ bytes_of "a") = strconv.ErrSyntax
  /\ strconv.Unquote_double ([x22] ++ bytes_of "a\" ++ [x22]) = strconv.ErrSyntax.
Proof. repeat split. Qed.

(** The frames of the package's own test, with the jid text of [SpecJid]. *)
Example Append_value_frame :
  wire.Append (fun _ => true) (wire.mkWsMsg (bytes_of "quux") 1 SpecWhat.Value) []
  = bytes_of "Value" ++ [x09] ++ bytes_of "1" ++ [x09; x22] ++ bytes_of "quux" ++ [x22; x0a].
Proof. reflexivity. Qed.

Example Append_alert_frame :
  wire.Append (fun _ => true)
    (wire.mkWsMsg (bytes_of "danger" ++ [x0a] ++ bytes_of "meh") 0 SpecWhat.Alert) []
  = bytes_of "Alert" ++ [x09; x09; x22] ++ bytes_of "danger\nmeh" ++ [x22; x0a].
Proof. reflexivity. Qed.

Example wsParse_input_frame :
  wire.wsParse (bytes_of "Input" ++ [x09] ++ bytes_of "1" ++ [x09] ++ bytes_of "bar" ++ [x0a])
  = Returns (wire.mkWsMsg (bytes_of "bar") 1 SpecWhat.Input, true).
Proof. reflexivity. Qed.

Example wsParse_unknown_command :
  wire.wsParse (bytes_of "Bogus" ++ [x09; x09; x0a]) = Returns (wire.wsMsg_zero, false).
Proof. reflexivity. Qed.

(** * Senders, handler wrappers and recycling of a Request *)

Module Api.
Section Defs.

Variable App : Type.

Local Abbreviation EventFn := (Registry.EventFn App).
Local Abbreviation Elems := (gmap string (option EventFn)).
Local Abbreviation Message := Loop.Message.

(** [func (rq *Request) Trigger(id, val string)]; [publish] is
    [Jaws.Broadcast], as for [Loop.Broadcast]. *)
Definition Trigger {Hub : Type} (publish : Message -> Hub -> Hub)
  (self : ptr) (id val : string) (hub : Hub) : Hub :=
  Loop.Broadcast publish self (Loop.mkMessage id "trigger" val None) hub.

(** [func (rq *Request) SetInner(jid string, innerHtml string)] *)
Definition SetInner {Hub : Type} (publish : Message -> Hub -> Hub)
  (self : ptr) (jid innerHtml : string) (hub : Hub) : Hub :=
  Loop.Broadcast publish self (Loop.mkMessage jid "inner" innerHtml None) hub.

(** [func (rq *Request) SetTextValue(jid, val string)] *)
Definition SetTextValue {Hub : Type} (publish : Message -> Hub -> Hub)
  (self : ptr) (jid val : string) (hub : Hub) : Hub :=
  Loop.Broadcast publish self (Loop.mkMessage jid "value" val None) hub.

(** [func (rq *Request) getDoneCh(msg *Message)]: the two done channels,
    or the panic for a request that is dead, its [Jaws] field being nil as
    [recycle] leaves it. *)
Definition getDoneCh {A : Type} (alive : bool) (doneChs : A) : option A :=
  if alive then Some doneChs else None.

(** [func (rq *Request) Send(msg *Message) bool].  [None] is the panic of
    [getDoneCh].  Otherwise the list holds every way the [select] can end,
    given which done channels are closed and whether the loop is receiving
    on the unbuffered [sendCh]: the result of [Send] and what the loop
    received; the empty list means that [Send] blocks. *)
Definition Send (alive jawsDone ctxDone receiving : bool) (m : Message)
  : option (list (bool * option Message)) :=
  match getDoneCh alive (jawsDone, ctxDone) with
  | Some (jawsDoneCh, ctxDoneCh) =>
      Some ((if jawsDoneCh then [(false, None)] else []) ++
            (if ctxDoneCh then [(false, None)] else []) ++
            (if receiving then [(true, Some m)] else []))
  | None => None
  end.

(** The senders below build a message and pass it to [Send], taken as
    [send]. *)
Section Senders.

Context {R : Type}.
Variable send : Message -> R.

(** [func (rq *Request) SetAttr(jid, attr, val string)] *)
Definition SetAttr (jid attr val : string) : R :=
  send (Loop.mkMessage jid "sattr" (attr +:+ String "010" val) None).

(** [func (rq *Request) RemoveAttr(jid, attr string)] *)
Definition RemoveAttr (jid attr : string) : R :=
  send (Loop.mkMessage jid "rattr" attr None).

(** [func (rq *Request) Alert(lvl, msg string)] *)
Definition Alert (lvl msg : string) : R :=
  send (Loop.mkMessage " alert" lvl msg None).

(** [func (rq *Request) Redirect(url string)] *)
Definition Redirect (url : string) : R :=
  send (Loop.mkMessage " redirect" url "" None).

End Senders.

(** [func (rq *Request) OnEvent(jid string, fn EventFn) error]: the new
    handler map and the nil error. *)
Definition OnEvent (elems : Elems) (jid : string) (fn : option EventFn) : Elems * error :=
  (Registry.SetEventFn App elems jid fn, None).

(** The clearing loop of [func (rq *Request) recycle()]:
    [for k := range rq.elems { delete(rq.elems, k) }], visiting the keys in
    [order]. *)
Definition recycle_elems (order : list string) (elems : Elems) : Elems :=
  foldl (fun m k => delete k m) elems order.

(** [type ClickFn func(rq *Request) error] *)
Definition ClickFn : Type := ptr -> App -> App * error.

(** The closure [wf] built by [maybeEvent]. *)
Definition event_wf (event : string) (fn : ClickFn) : EventFn :=
  fun rq id evt val a =>
    if bool_decide (evt = event) then fn rq a else (a, None).

Variable MakeID : nat -> string.

(** [func (rq *Request) maybeEvent(id, event string, fn ClickFn) string];
    a nil [fn] leaves [wf] nil. *)
Definition maybeEvent (fuel next : nat) (elems : Elems)
  (id event : string) (fn : option ClickFn) :=
  Registry.RegisterEventFn App MakeID fuel next elems id (event_wf event <$> fn).

(** [func (rq *Request) maybeClick(jid string, fn ClickFn) string] *)
Definition maybeClick (fuel next : nat) (elems : Elems) (jid : string) (fn : option ClickFn) :=
  maybeEvent fuel next elems jid "click" fn.

(** [func (rq *Request) maybeInputText(jid string, fn InputTextFn) string] *)
Definition maybeInputText (fuel next : nat) (elems : Elems)
  (jid : string) (fn : option (Input.InputTextFn App)) :=
  Registry.RegisterEventFn App MakeID fuel next elems jid (Input.inputText_wf App <$> fn).

(** [func (rq *Request) OnTrigger(jid string, fn ClickFn) error]: the jid
    is dropped, the error is nil. *)
Definition OnTrigger (fuel next : nat) (elems : Elems) (jid : string) (fn : option ClickFn)
  : option (Elems * nat * error) :=
  r ← maybeEvent fuel next elems jid "trigger" fn;
  Some (r.1.2, r.2, None).

(** [func (rq *Request) OnClick(jid string, fn ClickFn) error] *)
Definition OnClick (fuel next : nat) (elems : Elems) (jid : string) (fn : option ClickFn)
  : option (Elems * nat * error) :=
  r ← maybeClick fuel next elems jid fn;
  Some (r.1.2, r.2, None).

(** [func (rq *Request) OnInput(jid string, fn InputTextFn) error] *)
Definition OnInput (fuel next : nat) (elems : Elems)
  (jid : string) (fn : option (Input.InputTextFn App))
  : option (Elems * nat * error) :=
  r ← maybeInputText fuel next elems jid fn;
  Some (r.1.2, r.2, None).

(** [strings.IndexByte] *)
Fixpoint IndexByte (s : string) (c : ascii) : Z :=
  match s with
  | EmptyString => -1
  | String x rest =>
      if Ascii.eqb x c then 0
      else let i := IndexByte rest c in if i <? 0 then -1 else i + 1
  end.

(** [s[n:]], for [n] up to the length of [s]. *)
Fixpoint string_from (n : nat) (s : string) : string :=
  match n, s with
  | S n', String _ rest => string_from n' rest
  | _, _ => s
  end.

(** [func radioGroup(jid string) string]; [None] is the panic for a jid
    without a slash. *)
Definition radioGroup (jid : string) : option string :=
  let slash := IndexByte jid "/" in
  if decide (slash <> -1) then Some (string_from (Z.to_nat (slash + 1)) jid)
  else None.

End Defs.

(** [UiInputBool.JawsEvent], of the revision whose handlers take the
    command as a [what.What]; the command type and [what.Input] are taken
    as given. *)
Section UiInputBool.

Variable App : Type.
Variable What : Type.
Context `{EqDecision What}.
Variable what_Input : What.
Variable Quote : string -> string.

(** The fields of [UiInputBool] the handler reads and writes: the legacy
    [EventFn] of the embedded [UiHtml], and [Value]. *)
Record UiInputBool := mkUiInputBool {
  EventFn_ : option (ptr -> What -> string -> string -> App -> App * error);
  Value : bool
}.

(** [func (ui *UiInputBool) JawsEvent(rq *Request, wht what.What, jid, val string) (err error)] *)
Definition JawsEvent (ui : UiInputBool) (rq : ptr) (wht : What) (jid val : string) (a : App)
  : UiInputBool * App * error :=
  match EventFn_ ui with
  | Some f => let '(a', err) := f rq wht jid val a in (ui, a', err)
  | None =>
      if decide (wht = what_Input) then
        if bool_decide (val <> ""%string) then
          match Input.ParseBool Quote val with
          | (_, Some e) => (ui, a, Some e)
          | (v, None) => (mkUiInputBool (EventFn_ ui) v, a, None)
          end
        else (mkUiInputBool (EventFn_ ui) false, a, None)
      else (ui, a, None)
  end.

End UiInputBool.

End Api.

(** * The reader and the writer of a connection (ws.go) *)

Module ws.

(** [websocket.MessageType]; [MessageNone] is its zero value, which a
    failed read returns. *)
Inductive MessageType := MessageNone | MessageText | MessageBinary.

#[global] Instance MessageType_eq_dec : EqDecision MessageType.
Proof. solve_decision. Defined.

(** What one call of [ws.Read] returned. *)
Record ReadResult := mkRead {
  typ : MessageType;
  txt : list byte;
  err : error
}.

(** The case the reader's [select] takes when it has a message to send:
    one of the two done channels, or the send on the unbuffered
    [incomingMsgCh]. *)
Inductive SendCase := CtxDone | JawsDone | Sent.

(** How a run of [wsReader] over the reads it is given ends. *)
Inductive ReaderEnd :=
| ReadFailed (cause : string)  (* the loop ended on a read error *)
| ReaderDone                   (* returned from inside the [select] *)
| Reading                      (* blocked in [ws.Read]: the reads are used up *)
| ParseFailed.                 (* [wsParse] did not return *)

(** What [wsReader] passes to [ccf] at the end of a run, if it calls it:
    [if ccf != nil { ccf(err) }] is reached only when the loop ended. *)
Definition reader_cancel (ccf_set : bool) (e : ReaderEnd) : option string :=
  match e with
  | ReadFailed cause => if ccf_set then Some cause else None
  | _ => None
  end.

(** One step of the writer's [select]: a done channel, or a receive from
    [outboundCh], which yields nil-and-not-ok once the channel is closed,
    together with the result the following [ws.Write] has. *)
Inductive WriterCase :=
| WCtxDone
| WJawsDone
| WClosed
| WRecv (msg : list byte) (write_err : error).

(** How a run of [wsWriter] ends. *)
Inductive WriterEnd :=
| WriteFailed (cause : string)
| WriterDone
| Waiting.

Definition writer_cancel (ccf_set : bool) (e : WriterEnd) : option string :=
  match e with
  | WriteFailed cause => if ccf_set then Some cause else None
  | _ => None
  end.

(** [func wsWriter(ctx, ccf, jawsDoneCh, outboundCh, ws)]: the messages
    handed to [ws.Write], in order, and how the run ends. *)
Fixpoint wsWriter (cases : list WriterCase) : list (list byte) * WriterEnd :=
  match cases with
  | [] => ([], Waiting)
  | WCtxDone :: _ | WJawsDone :: _ | WClosed :: _ => ([], WriterDone)
  | WRecv msg write_err :: rest =>
      match write_err with
      | Some cause => ([msg], WriteFailed cause)
      | None => let '(written, e) := wsWriter rest in (msg :: written, e)
      end
  end.

Section Reader.

Context `{WhatPkg} `{JidPkg}.

(** [func wsReader(ctx, ccf, jawsDoneCh, incomingMsgCh, ws)]: the messages
    sent on [incomingMsgCh], in order, and how the run ends. *)
Fixpoint wsReader (reads : list (ReadResult * SendCase)) : list wire.wsMsg * ReaderEnd :=
  match reads with
  | [] => ([], Reading)
  | (r, taken) :: rest =>
      let next :=
        match err r with
        | None => wsReader rest
        | Some cause => ([], ReadFailed cause)
        end in
      if decide (typ r = MessageText) then
        match wire.wsParse (txt r) with
        | Returns (m, true) =>
            match taken with
            | CtxDone | JawsDone => ([], ReaderDone)
            | Sent => let '(delivered, e) := next in (m :: delivered, e)
            end
        | Returns (_, false) => next
        | Panics | Unfinished => ([], ParseFailed)
        end
      else next
  end.

End Reader.

End ws.

(** * Event dispatch of a UI object (uihtml.go) *)

Module Html.
Section Defs.

(** The command type of package [what] with the two commands the dispatch
    compares with, [float64] and [time.Time] with their zero values and
    parsers, and [strconv.Quote] for the error text of [ParseBool]. *)
Variable What : Type.
Context `{EqDecision What}.
Variable what_Input : What.
Variable what_Click : What.
Variable float64 : Type.
Variable float64_zero : float64.
Variable ParseFloat : string -> float64 * error.
Variable Time : Type.
Variable Time_zero : Time.
Variable time_Parse : string -> string -> Time * error.
Variable Quote : string -> string.

(** What the type switch of [JawsEvent] finds out about the dynamic type
    of [ui.Tag]: whether it is a [*NamedBoolArray], and which of the setter
    interfaces it implements. *)
Record TagKind := mkTagKind {
  isNamedBoolArray : bool;
  isStringSetter : bool;
  isFloatSetter : bool;
  isBoolSetter : bool;
  isTimeSetter : bool
}.

(** [type UiHtml struct]: which of the three handlers are set, and the
    tag. *)
Record UiHtml := mkUiHtml {
  ClickHandler : bool;
  EventHandler : bool;
  EventFn : bool;
  Tag : TagKind
}.

(** The calls [JawsEvent] makes on its handlers, on the tag and on the
    element. *)
Inductive Call :=
| CallEventFn (wht : What) (val : string)
| CallJawsClick (val : string)
| CallJawsEvent (wht : What) (val : string)
| CallSet (val : string)
| CallJawsSetString (val : string)
| CallJawsSetFloat (v : float64)
| CallJawsSetBool (v : bool)
| CallJawsSetTime (v : Time)
| CallLog
| CallDirty.

(** [func (ui *UiHtml) JawsEvent(e *Element, wht what.What, val string) (err error)]:
    the calls made, in order, and the error returned; [result] tells what
    each call returns, and [debug] is [deadlock.Debug]. *)
Definition JawsEvent (ui : UiHtml) (debug : bool) (result : Call -> error)
  (wht : What) (val : string) : list Call * error :=
  if EventFn ui then ([CallEventFn wht val], result (CallEventFn wht val))
  else if bool_decide (wht = what_Click) && ClickHandler ui then
    ([CallJawsClick val], result (CallJawsClick val))
  else if EventHandler ui then ([CallJawsEvent wht val], result (CallJawsEvent wht val))
  else if bool_decide (wht = what_Input) then
    if isNamedBoolArray (Tag ui) then ([CallSet val; CallDirty], None)
    else if isStringSetter (Tag ui) then
      ([CallJawsSetString val; CallDirty], result (CallJawsSetString val))
    else if isFloatSetter (Tag ui) then
      if bool_decide (val <> ""%string) then
        match ParseFloat val with
        | (_, Some e) => ([], Some e)
        | (v, None) => ([CallJawsSetFloat v; CallDirty], result (CallJawsSetFloat v))
        end
      else ([CallJawsSetFloat float64_zero; CallDirty], result (CallJawsSetFloat float64_zero))
    else if isBoolSetter (Tag ui) then
      if bool_decide (val <> ""%string) then
        match Input.ParseBool Quote val with
        | (_, Some e) => ([], Some e)
        | (v, None) => ([CallJawsSetBool v; CallDirty], result (CallJawsSetBool v))
        end
      else ([CallJawsSetBool false; CallDirty], result (CallJawsSetBool false))
    else if isTimeSetter (Tag ui) then
      if bool_decide (val <> ""%string) then
        match time_Parse Input.ISO8601 val with
        | (_, Some e) => ([], Some e)
        | (v, None) => ([CallJawsSetTime v; CallDirty], result (CallJawsSetTime v))
        end
      else ([CallJawsSetTime Time_zero; CallDirty], result (CallJawsSetTime Time_zero))
    else ((if debug then [CallLog] else []) ++ [CallDirty], None)
  else ([], None).

(** The calls that change the value behind the tag. *)
Definition is_setter (c : Call) : bool :=
  match c with
  | CallSet _ | CallJawsSetString _ | CallJawsSetFloat _ | CallJawsSetBool _
  | CallJawsSetTime _ => true
  | _ => false
  end.

End Defs.

Arguments CallEventFn {What float64 Time}.
Arguments CallJawsClick {What float64 Time}.
Arguments CallJawsEvent {What float64 Time}.
Arguments CallSet {What float64 Time}.
Arguments CallJawsSetString {What float64 Time}.
Arguments CallJawsSetFloat {What float64 Time}.
Arguments CallJawsSetBool {What float64 Time}.
Arguments CallJawsSetTime {What float64 Time}.
Arguments CallLog {What float64 Time}.
Arguments CallDirty {What float64 Time}.
Arguments is_setter {What float64 Time}.

End Html.

(** * Properties of the handler registry *)

Section RegistryProofs.

Variable App : Type.
Variable MakeID : nat -> string.

(** [MakeID] documents its results as unique within the lifetime of the
    program. *)
Hypothesis MakeID_unique : Inj (=) (=) MakeID.

Local Abbreviation Elems := (gmap string (option (Registry.EventFn App))).
Local Abbreviation gen := (Registry.RegisterEventFn_gen App MakeID).

(** What the generating loop returns is the first fresh id it drew. *)
Lemma RegisterEventFn_gen_sound fuel next (elems : Elems) fn jid elems' next' :
  gen fuel next elems fn = Some (jid, elems', next') ->
  elems !! jid = None /\ elems' = <[jid := fn]> elems /\
  (next < next')%nat /\ jid = MakeID (pred next').
Proof.
  revert next. induction fuel as [|fuel IH]; intros next; simpl; [discriminate|].
  destruct (elems !! MakeID next) eqn:E.
  - intros H. destruct (IH _ H) as (? & ? & ? & ?). repeat split; auto; lia.
  - intros [= <- <- <-]. simpl. repeat split; auto; lia.
Qed.

(** Distinct ids that are all registered cannot outnumber the map. *)
Lemma drawn_ids_bounded (elems : Elems) a n :
  (forall j, (a <= j < a + n)%nat -> is_Some (elems !! MakeID j)) ->
  (n <= size elems)%nat.
Proof.
  intros Hin.
  assert (Hsub : list_to_set (C := gset string) (MakeID <$> seq a n) ⊆ dom elems).
  { apply elem_of_subseteq. intros x. rewrite elem_of_list_to_set, list_elem_of_fmap.
    intros (j & -> & Hj). apply elem_of_seq in Hj.
    apply elem_of_dom, Hin. lia. }
  apply subseteq_size in Hsub.
  rewrite size_list_to_set in Hsub
    by (apply NoDup_fmap_2; [exact MakeID_unique | apply NoDup_seq]).
  rewrite length_fmap, length_seq, size_dom in Hsub. exact Hsub.
Qed.

(** With more fuel than registered ids the generating loop returns. *)
Lemma RegisterEventFn_gen_total fuel next0 next (elems : Elems) fn :
  (next0 <= next)%nat ->
  (forall j, (next0 <= j < next)%nat -> is_Some (elems !! MakeID j)) ->
  (size elems < (next - next0) + fuel)%nat ->
  is_Some (gen fuel next elems fn).
Proof.
  revert next. induction fuel as [|fuel IH]; intros next Hle Hall Hsz.
  - exfalso.
    assert ((next - next0) <= size elems)%nat; [|lia].
    apply (drawn_ids_bounded elems next0). intros j Hj. apply Hall. lia.
  - simpl. destruct (elems !! MakeID next) eqn:E; [|eauto].
    apply IH; [lia| |lia].
    intros j Hj. destruct (decide (j = next)) as [->|]; [eauto|apply Hall; lia].
Qed.

(** C6. RegisterEventFn follows the registerHandler contract: with an empty
    jid it returns a generated id that was not in the map and is now bound to
    the handler; with an existing jid and the nil handler it returns the jid
    and leaves the map, hence the earlier handler, as it was; and GetEventFn
    reports each reserved pseudo-id as registered whatever the map holds. *)
Theorem RegisterEventFn_contract (elems : Elems) (fuel next : nat) :
  (size elems < fuel)%nat ->
  (forall fn, exists jid next',
      Registry.RegisterEventFn App MakeID fuel next elems "" fn
        = Some (jid, <[jid := fn]> elems, next')
      /\ elems !! jid = None
      /\ Registry.GetEventFn App (<[jid := fn]> elems) jid = (fn, true))
  /\ (forall jid prior, jid <> ""%string -> elems !! jid = Some prior ->
      Registry.RegisterEventFn App MakeID fuel next elems jid None
        = Some (jid, elems, next)
      /\ Registry.GetEventFn App elems jid = (prior, true))
  /\ (forall jid, jid ∈ [" alert"; " reload"; " redirect"; " ping"]%string ->
      snd (Registry.GetEventFn App elems jid) = true).
Proof.
  intros Hfuel. split; [|split].
  - intros fn. unfold Registry.RegisterEventFn.
    destruct (decide ("" <> ""))%string as [Hne|_]; [congruence|].
    destruct (RegisterEventFn_gen_total fuel next next elems fn) as [[[jid e'] n'] Hgen];
      [lia | intros; lia | lia |].
    destruct (RegisterEventFn_gen_sound _ _ _ _ _ _ _ Hgen) as (Hfresh & -> & _ & _).
    exists jid, n'. repeat split; auto.
    unfold Registry.GetEventFn. by rewrite lookup_insert_eq.
  - intros jid prior Hne Hin. unfold Registry.RegisterEventFn, Registry.GetEventFn.
    destruct (decide (jid <> ""%string)); [|contradiction].
    by rewrite Hin.
  - intros jid Hmeta. unfold Registry.GetEventFn.
    destruct (elems !! jid); [reflexivity|]. simpl.
    apply bool_decide_eq_true. unfold Registry.metaIds.
    set_unfold. tauto.
Qed.

End RegistryProofs.

(** A generator in the style of the package's own: a prefix and a counter. *)
Definition MakeID_counter (n : nat) : string := "jaws." +:+ pretty n.

Lemma MakeID_counter_unique : Inj (=) (=) MakeID_counter.
Proof.
  intros a b H. unfold MakeID_counter in H.
  apply (inj pretty). by simplify_eq/=.
Qed.

Lemma RegisterEventFn_contract_witness :
  (forall fn, exists jid next',
      Registry.RegisterEventFn unit MakeID_counter 2 0 {[ "jaws.0"%string := None ]} "" fn
        = Some (jid, <[jid := fn]> {[ "jaws.0"%string := None ]}, next')
      /\ ({[ "jaws.0"%string := None ]} : gmap string (option (Registry.EventFn unit))) !! jid = None
      /\ Registry.GetEventFn unit (<[jid := fn]> {[ "jaws.0"%string := None ]}) jid = (fn, true))
  /\ (forall jid prior, jid <> ""%string ->
      ({[ "jaws.0"%string := None ]} : gmap string (option (Registry.EventFn unit))) !! jid = Some prior ->
      Registry.RegisterEventFn unit MakeID_counter 2 0 {[ "jaws.0"%string := None ]} jid None
        = Some (jid, {[ "jaws.0"%string := None ]}, 0%nat)
      /\ Registry.GetEventFn unit {[ "jaws.0"%string := None ]} jid = (prior, true))
  /\ (forall jid, jid ∈ [" alert"; " reload"; " redirect"; " ping"]%string ->
      snd (Registry.GetEventFn unit {[ "jaws.0"%string := None ]} jid) = true).
Proof.
  apply (RegisterEventFn_contract unit MakeID_counter MakeID_counter_unique).
  rewrite map_size_singleton. lia.
Defined.

(** * Properties of the element registry *)

Section ElementsProofs.

Import Elements.

Variable UI : Type.
Variable Data : Type.
Context {Tag : Type} `{Countable Tag}.
Variable jidTag : Z -> Tag.

Local Abbreviation TagMap := (gmap Tag (list (Element UI Data))).

(** After an append under [tag] the element is listed under [tag]. *)
Lemma tagMap_append_here (tm : TagMap) tag e :
  e ∈ default [] (tagMap_append tm tag e !! tag).
Proof.
  unfold tagMap_append. rewrite lookup_insert_eq. simpl.
  apply elem_of_app. right. apply list_elem_of_here.
Qed.

(** An append never removes an element from any tag's list. *)
Lemma tagMap_append_keeps (tm : TagMap) tag tag' e e' :
  e ∈ default [] (tm !! tag) ->
  e ∈ default [] (tagMap_append tm tag' e' !! tag).
Proof.
  intros Hin. unfold tagMap_append.
  destruct (decide (tag' = tag)) as [->|Hne].
  - rewrite lookup_insert_eq. simpl. apply elem_of_app. by left.
  - by rewrite lookup_insert_ne.
Qed.

Lemma foldl_append_keeps (tags : list Tag) (tm : TagMap) tag e e' :
  e ∈ default [] (tm !! tag) ->
  e ∈ default [] (foldl (fun tm t => tagMap_append tm t e') tm tags !! tag).
Proof.
  revert tm. induction tags as [|t tags IH]; intros tm Hin; simpl; [exact Hin|].
  apply IH. by apply tagMap_append_keeps.
Qed.

Lemma foldl_append_indexes (tags : list Tag) (tm : TagMap) tag e :
  tag ∈ tags ->
  e ∈ default [] (foldl (fun tm t => tagMap_append tm t e) tm tags !! tag).
Proof.
  revert tm. induction tags as [|t tags IH]; intros tm Hin; simpl.
  - by apply elem_of_nil in Hin.
  - apply elem_of_cons in Hin as [->|Hin].
    + apply foldl_append_keeps, tagMap_append_here.
    + by apply IH.
Qed.

(** C7. With a non-empty tag list [newElementLocked] gives the element the
    jid one above the number of elements already stored (so 1 on a fresh
    connection, and the next call gets the next jid), appends it to the
    element list where [GetElement] finds it under that jid, and lists it in
    the tag map under its own jid and under every tag supplied; with an empty
    tag list it returns nil and leaves the store as it was. *)
Theorem newElementLocked_allocates (self : ptr) (st : Store UI Data Tag) (tags : list Tag) (u : UI) (d : Data) :
  (0 < length tags)%nat ->
  exists e st',
    newElementLocked jidTag self st tags u d = (Some e, st')
    /\ jid e = Z.of_nat (length (elems st)) + 1
    /\ (elems st = [] -> jid e = 1)
    /\ elems st' = elems st ++ [e]
    /\ GetElement st' (jid e) = Some e
    /\ e ∈ default [] (tagMap st' !! jidTag (jid e))
    /\ (forall tag, tag ∈ tags -> e ∈ default [] (tagMap st' !! tag))
    /\ (forall tags2 u2 d2, (0 < length tags2)%nat ->
          exists e2 st2, newElementLocked jidTag self st' tags2 u2 d2 = (Some e2, st2)
                         /\ jid e2 = jid e + 1)
    /\ newElementLocked jidTag self st [] u d = (None, st).
Proof.
  intros Hlen. unfold newElementLocked.
  destruct (decide (0 < length tags)%nat) as [_|]; [|contradiction].
  eexists _, _. split; [reflexivity|]. cbn [jid elems tagMap].
  split; [reflexivity|].
  split; [intros ->; reflexivity|].
  split; [reflexivity|].
  split.
  { unfold GetElement. cbn [elems].
    rewrite length_app. cbn [length].
    destruct (decide (0 < Z.of_nat (length (elems st)) + 1)); [|lia].
    destruct (decide (Z.of_nat (length (elems st)) + 1
                      <= Z.of_nat (length (elems st) + 1))); [|lia].
    replace (Z.to_nat (Z.of_nat (length (elems st)) + 1 - 1)) with (length (elems st)) by lia.
    by rewrite list_lookup_middle. }
  split; [apply foldl_append_keeps, tagMap_append_here|].
  split; [intros tag Hin; by apply foldl_append_indexes|].
  split.
  { intros tags2 u2 d2 Hlen2.
    destruct (decide (0 < length tags2)%nat) as [_|]; [|contradiction].
    eexists _, _. split; [reflexivity|]. cbn [jid elems].
    rewrite length_app. cbn [length]. lia. }
  destruct (decide (0 < length (@nil Tag))%nat) as [Hbad|_]; [simpl in Hbad; lia|reflexivity].
Qed.

End ElementsProofs.

Lemma newElementLocked_allocates_witness :
  exists e st',
    Elements.newElementLocked (UI := unit) (Data := unit) (fun j => Z.to_nat j) 7%nat
      (Elements.mkStore [] ∅) [100%nat; 200%nat] tt tt = (Some e, st')
    /\ Elements.jid e = 1
    /\ Elements.elems st' = [e]
    /\ e ∈ default [] (Elements.tagMap st' !! 1%nat)
    /\ e ∈ default [] (Elements.tagMap st' !! 200%nat).
Proof.
  destruct (newElementLocked_allocates unit unit (fun j => Z.to_nat j) 7%nat
              (Elements.mkStore [] ∅) [100%nat; 200%nat] tt tt)
    as (e & st' & Hnew & Hjid & _ & Helems & _ & Hself & Htags & _).
  - simpl. lia.
  - exists e, st'. simpl in Hjid, Helems.
    split; [exact Hnew|]. split; [exact Hjid|]. split; [exact Helems|].
    split.
    + rewrite Hjid in Hself. exact Hself.
    + apply Htags. apply elem_of_cons. right. apply list_elem_of_here.
Defined.

(** * Properties of the event loop and the dispatcher *)

Section LoopProofs.

Import Loop.

Variable App : Type.

Local Abbreviation EventFn := (Registry.EventFn App).
Local Abbreviation Elems := (gmap string (option EventFn)).

(** C2. A message whose origin field is the connection running the loop is
    dropped by that loop and the loop goes on: whatever case delivered it and
    whatever its command, the pass ends in [Continue] with the handler-call
    queue, the outbound queue, the log and the application state untouched.
    [Broadcast] hands to the hub the message with its origin set to the
    broadcasting request, so a broadcast that reaches its own sender's loop is
    dropped there. *)
Theorem self_broadcast_discarded (self : ptr) (elems : Elems) (jawsDone ctxDone : bool)
    (st : State App) (sel : Selected) (m : Message) :
  received sel = Some m ->
  from m = Some self ->
  process_step App self elems jawsDone ctxDone st sel = [Continue st]
  /\ (forall (Hub : Type) (publish : Message -> Hub -> Hub) (hub : Hub) (m0 : Message),
        exists stamped,
          Broadcast publish self m0 hub = publish stamped hub
          /\ from stamped = Some self
          /\ Elem stamped = Elem m0 /\ What stamped = What m0 /\ Data stamped = Data m0
          /\ forall sel', received sel' = Some stamped ->
               process_step App self elems jawsDone ctxDone st sel' = [Continue st]).
Proof.
  intros Hrecv Hfrom. split.
  - unfold process_step. rewrite Hrecv.
    destruct (decide (from m = Some self)); [reflexivity|contradiction].
  - intros Hub publish hub m0.
    exists (mkMessage (Elem m0) (What m0) (Data m0) (Some self)).
    repeat split.
    intros sel' Hrecv'. unfold process_step. rewrite Hrecv'. simpl.
    destruct (decide (Some self = Some self)); [reflexivity|contradiction].
Qed.

(** C3. A message that targets an id which is neither a key of the
    connection's handler map nor a reserved meta id is dropped: the pass ends
    in [Continue] with both queues, the log and the application state
    untouched. *)
Theorem unregistered_target_discarded (self : ptr) (elems : Elems) (jawsDone ctxDone : bool)
    (st : State App) (sel : Selected) (m : Message) :
  received sel = Some m ->
  elems !! Elem m = None ->
  Elem m ∉ [" alert"; " reload"; " redirect"; " ping"]%string ->
  process_step App self elems jawsDone ctxDone st sel = [Continue st].
Proof.
  intros Hrecv Hkey Hmeta. unfold process_step. rewrite Hrecv.
  destruct (decide (from m = Some self)); [reflexivity|].
  unfold Registry.GetEventFn. rewrite Hkey.
  rewrite bool_decide_eq_false_2; [reflexivity|].
  intros Hin. apply Hmeta. unfold Registry.metaIds in Hin.
  set_unfold. tauto.
Qed.






(** C8. When the dispatched handler returns a non-nil error the dispatcher
    offers to the outbound channel the alert message (target " alert", level
    "danger", the error text HTML-escaped): it is enqueued when the channel
    can take it, and otherwise dropped with one log line and the channel left
    as it was; either way the iteration completes.  A nil result leaves the
    outbound channel and the log untouched. *)
Theorem eventCaller_reports_error (self : ptr) (st : State App) (h : EventFn) (m : Message) :
  let '(app', err) := h self (Elem m) (What m) (Data m) (app st) in
  match err with
  | Some text =>
      let alert := mkMessage " alert" "danger" (EscapeString text) None in
      eventCaller_step App self st (mkCall (Some h) (Some m))
        = Some (if can_send (outboundMsgCh st)
                then mkState (eventCallCh st) (send (outboundMsgCh st) (Some alert))
                       (logged st) app'
                else mkState (eventCallCh st) (outboundMsgCh st)
                       (logged st ++ [OutboundFullSendingEventError text]) app')
  | None =>
      eventCaller_step App self st (mkCall (Some h) (Some m))
        = Some (mkState (eventCallCh st) (outboundMsgCh st) (logged st) app')
  end.
Proof.
  unfold eventCaller_step. cbn [fn msg].
  destruct (h self (Elem m) (What m) (Data m) (app st)) as [app' [text|]]; [|reflexivity].
  cbn [makeAlertDangerMessage].
  destruct (can_send (outboundMsgCh st)); reflexivity.
Qed.

End LoopProofs.

(** Sample data: a connection at address 1 with one handler under "btn". *)
Definition sample_handler : Registry.EventFn nat :=
  fun _ _ _ val n => (S n, if decide (val = "bad"%string) then Some "no <b>"%string else None).

Definition sample_elems : gmap string (option (Registry.EventFn nat)) :=
  {[ "btn"%string := Some sample_handler ]}.

Definition sample_state (evcap outcap : nat) : Loop.State nat :=
  Loop.mkState (Loop.make_chan evcap) (Loop.make_chan outcap) [] 0%nat.

Lemma self_broadcast_discarded_witness :
  Loop.process_step nat 1%nat sample_elems false false (sample_state 1 1)
    (Loop.FromBroadcastCh (Some (Loop.mkMessage "btn" "inner" "x" (Some 1%nat))))
  = [Loop.Continue (sample_state 1 1)].
Proof.
  apply (self_broadcast_discarded nat 1%nat sample_elems false false (sample_state 1 1)
           (Loop.FromBroadcastCh (Some (Loop.mkMessage "btn" "inner" "x" (Some 1%nat))))
           (Loop.mkMessage "btn" "inner" "x" (Some 1%nat))); reflexivity.
Defined.

Lemma unregistered_target_discarded_witness :
  Loop.process_step nat 1%nat sample_elems false false (sample_state 1 1)
    (Loop.FromIncomingCh (Some (Loop.mkMessage "nobody" "input" "x" None)))
  = [Loop.Continue (sample_state 1 1)].
Proof.
  apply (unregistered_target_discarded nat 1%nat sample_elems false false (sample_state 1 1)
           (Loop.FromIncomingCh (Some (Loop.mkMessage "nobody" "input" "x" None)))
           (Loop.mkMessage "nobody" "input" "x" None)).
  - reflexivity.
  - reflexivity.
  - cbn [Loop.Elem]. intros Hin. set_unfold. intuition discriminate.
Defined.


(** The dispatcher on the sample handler: a failing call leaves the alert
    on the outbound channel, and drops it with a log line when the channel
    is full. *)
Example eventCaller_alert_enqueued :
  Loop.eventCaller_step nat 1%nat (sample_state 1 1)
    (Loop.mkCall (Some sample_handler) (Some (Loop.mkMessage "btn" "input" "bad" None)))
  = Some (Loop.mkState (Loop.make_chan 1)
            (Loop.mkChan [Some (Loop.mkMessage " alert" "danger" "no &lt;b&gt;" None)] 1 false)
            [] 1%nat).
Proof. reflexivity. Qed.

Example eventCaller_alert_dropped :
  Loop.eventCaller_step nat 1%nat (sample_state 1 0)
    (Loop.mkCall (Some sample_handler) (Some (Loop.mkMessage "btn" "input" "bad" None)))
  = Some (Loop.mkState (Loop.make_chan 1) (Loop.make_chan 0)
            [Loop.OutboundFullSendingEventError "no <b>"] 1%nat).
Proof. reflexivity. Qed.

Example eventCaller_no_error :
  Loop.eventCaller_step nat 1%nat (sample_state 1 1)
    (Loop.mkCall (Some sample_handler) (Some (Loop.mkMessage "btn" "input" "ok" None)))
  = Some (Loop.mkState (Loop.make_chan 1) (Loop.make_chan 1) [] 1%nat).
Proof. reflexivity. Qed.

(** The loop on the sample connection: an incoming event is queued for its
    handler, an update from another connection goes out, and a full outbound
    channel ends the loop. *)
Example process_queues_incoming :
  Loop.process_step nat 1%nat sample_elems false false (sample_state 1 1)
    (Loop.FromIncomingCh (Some (Loop.mkMessage "btn" "input" "x" None)))
  = [Loop.Continue
       (Loop.mkState
          (Loop.mkChan [Loop.mkCall (Some sample_handler)
                          (Some (Loop.mkMessage "btn" "input" "x" None))] 1 false)
          (Loop.make_chan 1) [] 0%nat)].
Proof. reflexivity. Qed.

Example process_forwards_update :
  Loop.process_step nat 1%nat sample_elems false false (sample_state 1 1)
    (Loop.FromBroadcastCh (Some (Loop.mkMessage "btn" "inner" "x" (Some 2%nat))))
  = [Loop.Continue
       (Loop.mkState (Loop.make_chan 1)
          (Loop.mkChan [Some (Loop.mkMessage "btn" "inner" "x" (Some 2%nat))] 1 false)
          [] 0%nat)].
Proof. reflexivity. Qed.

Example process_outbound_full :
  Loop.process_step nat 1%nat sample_elems false false (sample_state 1 0)
    (Loop.FromBroadcastCh (Some (Loop.mkMessage "btn" "inner" "x" (Some 2%nat))))
  = [Loop.Return
       (Loop.mkState (Loop.make_chan 1) (Loop.make_chan 0)
          [Loop.OutboundMsgChFull 1%nat (Loop.mkMessage "btn" "inner" "x" (Some 2%nat))]
          0%nat)].
Proof. reflexivity. Qed.

(** * Properties of the reconnection check *)

Section StartProofs.

Import Start.

Variable IP : Type.
Variable IP_nil : IP.
Variable parseIP : string -> IP.
Variable equalIP : IP -> IP -> bool.
Variable IP_String : IP -> string.
Variable Quote : string -> string.
Variable JawsKeyString : Z -> string.

Local Abbreviation start := (Start.start IP IP_nil parseIP equalIP IP_String Quote JawsKeyString).
Local Abbreviation newRequest := (Start.newRequest IP IP_nil parseIP).
Local Abbreviation actualIP := (Start.actualIP IP IP_nil parseIP).

(** C9. [start] returns the nil error exactly when [equalIP] holds between
    the IP stored in the request and the IP parsed from the remote address of
    the HTTP request now presented (the nil IP when there is none), and a
    non-nil error otherwise; for a request made by [newRequest] the stored IP
    is the one parsed from the remote address seen at creation.  Where
    [equalIP] decides equality of IPs, [start] returns nil exactly when the
    two IPs are equal. *)
Theorem start_checks_remote_ip (rq : Request IP) (hr : option HttpRequest) :
  (start rq hr = None <-> equalIP (remoteIP IP rq) (actualIP hr) = true)
  /\ (equalIP (remoteIP IP rq) (actualIP hr) = false -> exists text, start rq hr = Some text)
  /\ (forall key first again,
        start (newRequest key (Some first)) (Some again) = None
        <-> equalIP (parseIP (RemoteAddr first)) (parseIP (RemoteAddr again)) = true)
  /\ ((forall a b, equalIP a b = true <-> a = b) ->
      (start rq hr = None <-> remoteIP IP rq = actualIP hr)
      /\ (remoteIP IP rq <> actualIP hr -> exists text, start rq hr = Some text)).
Proof.
  unfold Start.start. split; [|split; [|split]].
  - destruct (equalIP (remoteIP IP rq) (actualIP hr)); split; congruence.
  - intros ->. eauto.
  - intros key first again. cbn [Start.newRequest Start.actualIP remoteIP].
    destruct (equalIP (parseIP (RemoteAddr first)) (parseIP (RemoteAddr again)));
      split; congruence.
  - intros Heq. rewrite <- Heq.
    destruct (equalIP (remoteIP IP rq) (actualIP hr)); split;
      (split; congruence) || (intros; eauto; congruence).
Qed.

End StartProofs.

(** * Properties of the typed input handlers *)

Section InputProofs.

Import Input.

Variable App : Type.
Variable float64 : Type.
Variable float64_zero : float64.
Variable ParseFloat : string -> float64 * error.
Variable Time : Type.
Variable Time_zero : Time.
Variable time_Parse : string -> string -> Time * error.
Variable Quote : string -> string.

Local Abbreviation inputFloat_wf := (Input.inputFloat_wf App float64 float64_zero ParseFloat).
Local Abbreviation inputBool_wf := (Input.inputBool_wf App Quote).
Local Abbreviation inputDate_wf := (Input.inputDate_wf App Time Time_zero time_Parse).

(** C10. For the handlers that [maybeInputFloat], [maybeInputBool] and
    [maybeInputDate] register, an "input" event with the empty payload runs
    the user callback on the zero value of its type (0, false, the zero time)
    and returns what the callback returns, whatever the parser would have
    said; with a non-empty payload the parser decides: its error is returned
    with the application state untouched, otherwise the callback runs on the
    parsed value. *)
Theorem typed_input_empty_payload_is_zero (rq : ptr) (id : string) (a : App) :
  (forall fn, inputFloat_wf fn rq id "input" "" a = fn rq float64_zero a)
  /\ (forall fn, inputBool_wf fn rq id "input" "" a = fn rq false a)
  /\ (forall fn, inputDate_wf fn rq id "input" "" a = fn rq Time_zero a)
  /\ (forall fn val, val <> ""%string ->
        inputFloat_wf fn rq id "input" val a
        = match ParseFloat val with (_, Some e) => (a, Some e) | (v, None) => fn rq v a end)
  /\ (forall fn val, val <> ""%string ->
        inputBool_wf fn rq id "input" val a
        = match ParseBool Quote val with (_, Some e) => (a, Some e) | (v, None) => fn rq v a end)
  /\ (forall fn val, val <> ""%string ->
        inputDate_wf fn rq id "input" val a
        = match time_Parse ISO8601 val with (_, Some e) => (a, Some e) | (v, None) => fn rq v a end)
  /\ (forall MakeID fuel next elems jid fn,
        maybeInputFloat App float64 float64_zero ParseFloat MakeID fuel next elems jid (Some fn)
        = Registry.RegisterEventFn App MakeID fuel next elems jid (Some (inputFloat_wf fn)))
  /\ (forall MakeID fuel next elems jid fn,
        maybeInputBool App Quote MakeID fuel next elems jid (Some fn)
        = Registry.RegisterEventFn App MakeID fuel next elems jid (Some (inputBool_wf fn)))
  /\ (forall MakeID fuel next elems jid fn,
        maybeInputDate App Time Time_zero time_Parse MakeID fuel next elems jid (Some fn)
        = Registry.RegisterEventFn App MakeID fuel next elems jid (Some (inputDate_wf fn))).
Proof.
  repeat split; try reflexivity;
    intros fn val Hval;
    unfold Input.inputFloat_wf, Input.inputBool_wf, Input.inputDate_wf;
    rewrite bool_decide_eq_true_2 by reflexivity;
    rewrite bool_decide_eq_true_2 by exact Hval; reflexivity.
Qed.

End InputProofs.

(** * Bytes, bits and UTF-8: basic facts *)

Lemma bz_range b : 0 <= bz b < 256.
Proof. unfold bz. pose proof (Byte.to_N_bounded b). lia. Qed.

Lemma zb_bz b : zb (bz b) = b.
Proof.
  unfold zb. rewrite Z.mod_small by apply bz_range.
  unfold bz. rewrite N2Z.id, Byte.of_to_N. reflexivity.
Qed.

Lemma bz_zb z : bz (zb z) = z mod 256.
Proof.
  unfold zb, bz. pose proof (Z.mod_pos_bound z 256 ltac:(lia)) as Hm.
  destruct (Byte.of_N (Z.to_N (z mod 256))) as [b|] eqn:E; simpl.
  - apply Byte.to_of_N in E. rewrite E. lia.
  - apply Byte.of_N_None_iff in E. lia.
Qed.

Lemma bz_zb_small z : 0 <= z < 256 -> bz (zb z) = z.
Proof. intros. rewrite bz_zb. apply Z.mod_small. lia. Qed.

Lemma bz_inj a b : bz a = bz b -> a = b.
Proof. intros E. rewrite <- (zb_bz a), <- (zb_bz b), E. reflexivity. Qed.

Lemma zb_eq z b : bz b = z -> zb z = b.
Proof. intros <-. apply zb_bz. Qed.

Lemma byte_eqb_true a b : Byte.eqb a b = true <-> a = b.
Proof. split; [apply Byte.byte_dec_bl | apply Byte.byte_dec_lb]. Qed.

Lemma byte_eqb_false a b : Byte.eqb a b = false <-> a <> b.
Proof.
  destruct (Byte.eqb a b) eqn:E.
  - apply byte_eqb_true in E. split; congruence.
  - split; [|reflexivity]. intros _ ->.
    assert (Byte.eqb b b = true) by (apply byte_eqb_true; reflexivity). congruence.
Qed.

Lemma byte_eqb_bz a b : Byte.eqb a b = (bz a =? bz b).
Proof.
  destruct (Z.eqb_spec (bz a) (bz b)) as [E|E].
  - apply byte_eqb_true, bz_inj, E.
  - apply byte_eqb_false. congruence.
Qed.

(** Bit operations on disjoint fields are sums. *)
Lemma land_shifted_small hi lo k :
  0 <= k -> 0 <= lo < 2 ^ k -> Z.land (hi * 2 ^ k) lo = 0.
Proof.
  intros Hk Hlo. apply Z.bits_inj'. intros n Hn.
  rewrite Z.land_spec, Z.bits_0.
  destruct (Z.lt_ge_cases n k) as [Hlt|Hge].
  - rewrite Z.mul_pow2_bits_low by lia. reflexivity.
  - rewrite <- (Z.mod_small lo (2 ^ k)) by lia.
    rewrite Z.mod_pow2_bits_high by lia. apply andb_false_r.
Qed.

Lemma lor_add_disjoint a b k :
  0 <= k -> 0 <= b < 2 ^ k -> a mod 2 ^ k = 0 -> Z.lor a b = a + b.
Proof.
  intros Hk Hb Ha.
  assert (Hpos : 0 < 2 ^ k) by (apply Z.pow_pos_nonneg; lia).
  assert (E : a = a / 2 ^ k * 2 ^ k).
  { pose proof (Z.div_mod a (2 ^ k) ltac:(lia)). lia. }
  rewrite E at 1 2.
  rewrite <- Z.lxor_lor by (apply land_shifted_small; lia).
  rewrite <- Z.add_nocarry_lxor by (apply land_shifted_small; lia).
  lia.
Qed.


(** ** The shape of what [DecodeRune] accepts *)

Lemma first_spec b : 0 <= b < 256 ->
  (utf8.first b = utf8.as_ /\ b < 0x80)
  \/ (utf8.first b = utf8.xx /\ (0x80 <= b < 0xC2 \/ 0xF5 <= b))
  \/ (utf8.first b = utf8.s1 /\ 0xC2 <= b < 0xE0)
  \/ (utf8.first b = utf8.s2 /\ b = 0xE0)
  \/ (utf8.first b = utf8.s3 /\ (0xE1 <= b < 0xED \/ 0xEE <= b < 0xF0))
  \/ (utf8.first b = utf8.s4 /\ b = 0xED)
  \/ (utf8.first b = utf8.s5 /\ b = 0xF0)
  \/ (utf8.first b = utf8.s6 /\ 0xF1 <= b < 0xF4)
  \/ (utf8.first b = utf8.s7 /\ b = 0xF4).
Proof.
  intros Hb. unfold utf8.first.
  repeat match goal with
         | |- context [if ?x <? ?y then _ else _] => destruct (Z.ltb_spec x y)
         | |- context [if ?x =? ?y then _ else _] => destruct (Z.eqb_spec x y)
         end;
    try (subst b); (repeat (first [left; split; [reflexivity | lia] | right])); try lia.
Qed.

(** A continuation byte. *)
Definition cont (b : byte) : Prop := 0x80 <= bz b <= 0xBF.

(** The byte sequences of two, three and four bytes that encode a rune. *)
Definition seq2 (p0 p1 : byte) : Prop := 0xC2 <= bz p0 <= 0xDF /\ cont p1.

Definition seq3 (p0 p1 p2 : byte) : Prop :=
  0xE0 <= bz p0 <= 0xEF /\ cont p1 /\ (bz p0 = 0xE0 -> 0xA0 <= bz p1)
  /\ (bz p0 = 0xED -> bz p1 <= 0x9F) /\ cont p2.

Definition seq4 (p0 p1 p2 p3 : byte) : Prop :=
  0xF0 <= bz p0 <= 0xF4 /\ cont p1 /\ (bz p0 = 0xF0 -> 0x90 <= bz p1)
  /\ (bz p0 = 0xF4 -> bz p1 <= 0x8F) /\ cont p2 /\ cont p3.

(** The runes they encode, as sums of their payload bits. *)
Definition rune2 (p0 p1 : byte) : Z := (bz p0 - 0xC0) * 64 + (bz p1 - 0x80).

Definition rune3 (p0 p1 p2 : byte) : Z :=
  (bz p0 - 0xE0) * 4096 + (bz p1 - 0x80) * 64 + (bz p2 - 0x80).

Definition rune4 (p0 p1 p2 p3 : byte) : Z :=
  (bz p0 - 0xF0) * 262144 + (bz p1 - 0x80) * 4096 + (bz p2 - 0x80) * 64 + (bz p3 - 0x80).

Lemma pack2 a b : 0 <= b < 64 -> Z.lor (Z.shiftl a 6) b = a * 64 + b.
Proof.
  intros Hb. rewrite Z.shiftl_mul_pow2 by lia.
  rewrite (lor_add_disjoint _ _ 6) by (try apply Z.mod_mul; lia). lia.
Qed.

Lemma pack3 a b c :
  0 <= b < 64 -> 0 <= c < 64 ->
  Z.lor (Z.lor (Z.shiftl a 12) (Z.shiftl b 6)) c = a * 4096 + b * 64 + c.
Proof.
  intros Hb Hc. rewrite !Z.shiftl_mul_pow2 by lia.
  rewrite (lor_add_disjoint (a * 2 ^ 12) _ 12) by (try apply Z.mod_mul; lia).
  rewrite (lor_add_disjoint _ c 6); [lia | lia | lia |].
  change (2 ^ 12) with (64 * 2 ^ 6).
  rewrite Z.mul_assoc, <- Z.mul_add_distr_r. apply Z.mod_mul. lia.
Qed.

Lemma pack4 a b c d :
  0 <= b < 64 -> 0 <= c < 64 -> 0 <= d < 64 ->
  Z.lor (Z.lor (Z.lor (Z.shiftl a 18) (Z.shiftl b 12)) (Z.shiftl c 6)) d
  = a * 262144 + b * 4096 + c * 64 + d.
Proof.
  intros Hb Hc Hd. rewrite !Z.shiftl_mul_pow2 by lia.
  rewrite (lor_add_disjoint (a * 2 ^ 18) _ 18) by (try apply Z.mod_mul; lia).
  rewrite (lor_add_disjoint _ (c * 2 ^ 6) 12); [| lia | lia |].
  2:{ change (2 ^ 18) with (64 * 2 ^ 12).
      rewrite Z.mul_assoc, <- Z.mul_add_distr_r. apply Z.mod_mul. lia. }
  rewrite (lor_add_disjoint _ d 6); [lia | lia | lia |].
  change (2 ^ 18) with (4096 * 2 ^ 6). change (2 ^ 12) with (64 * 2 ^ 6).
  rewrite !Z.mul_assoc, <- !Z.mul_add_distr_r. apply Z.mod_mul. lia.
Qed.

Lemma land_mask_low x m k : 0 <= k -> m = Z.ones k -> Z.land x m = x mod 2 ^ k.
Proof. intros Hk ->. apply Z.land_ones, Hk. Qed.


(** Replaces a closed subterm of the goal, or of a hypothesis, by its value. *)
Ltac eval_closed X := let v := eval vm_compute in X in change X with v.

Lemma DecodeRune_ascii p0 rest :
  bz p0 < 0x80 -> utf8.DecodeRune (p0 :: rest) = (bz p0, 1%nat).
Proof.
  intros Hlt. unfold utf8.DecodeRune, utf8.first.
  destruct (Z.ltb_spec (bz p0) 0x80); [|lia].
  eval_closed (utf8.as_ <=? utf8.as_). cbv iota beta zeta.
  eval_closed (Z.shiftr (int32 (Z.shiftl utf8.as_ 31)) 31).
  eval_closed (Z.lnot 0). rewrite Z.land_m1_r, Z.land_0_r, Z.lor_0_r. reflexivity.
Qed.

Lemma DecodeRune_bad_lead p0 rest :
  utf8.first (bz p0) = utf8.xx -> utf8.DecodeRune (p0 :: rest) = (utf8.RuneError, 1%nat).
Proof.
  intros Hx. unfold utf8.DecodeRune. rewrite Hx.
  eval_closed (utf8.as_ <=? utf8.xx). cbv iota beta zeta.
  eval_closed (Z.shiftr (int32 (Z.shiftl utf8.xx 31)) 31).
  eval_closed (Z.lnot (-1)). rewrite Z.land_m1_r, Z.land_0_r, Z.lor_0_l. reflexivity.
Qed.

(** [DecodeRune] once the row of [first] is known to be a lead byte. *)
Definition decode_lead (sz : Z) (accept : Z * Z) (p0 : byte) (rest0 : list byte) : Z * nat :=
  if Z.of_nat (length (p0 :: rest0)) <? sz then (utf8.RuneError, 1%nat)
  else
    match rest0 with
    | [] => (utf8.RuneError, 1%nat)
    | p1 :: rest1 =>
        if (bz p1 <? fst accept) || (snd accept <? bz p1) then (utf8.RuneError, 1%nat)
        else if sz <=? 2 then
          (Z.lor (Z.shiftl (Z.land (bz p0) utf8.mask2) 6) (Z.land (bz p1) utf8.maskx), 2%nat)
        else
          match rest1 with
          | [] => (utf8.RuneError, 1%nat)
          | p2 :: rest2 =>
              if (bz p2 <? utf8.locb) || (utf8.hicb <? bz p2) then (utf8.RuneError, 1%nat)
              else if sz <=? 3 then
                (Z.lor (Z.lor (Z.shiftl (Z.land (bz p0) utf8.mask3) 12)
                          (Z.shiftl (Z.land (bz p1) utf8.maskx) 6))
                   (Z.land (bz p2) utf8.maskx), 3%nat)
              else
                match rest2 with
                | [] => (utf8.RuneError, 1%nat)
                | p3 :: _ =>
                    if (bz p3 <? utf8.locb) || (utf8.hicb <? bz p3) then (utf8.RuneError, 1%nat)
                    else
                      (Z.lor (Z.lor (Z.lor (Z.shiftl (Z.land (bz p0) utf8.mask4) 18)
                                       (Z.shiftl (Z.land (bz p1) utf8.maskx) 12))
                                (Z.shiftl (Z.land (bz p2) utf8.maskx) 6))
                         (Z.land (bz p3) utf8.maskx), 4%nat)
                end
          end
    end.

Lemma DecodeRune_lead p0 rest0 x :
  utf8.first (bz p0) = x -> (utf8.as_ <=? x) = false ->
  utf8.DecodeRune (p0 :: rest0)
  = decode_lead (Z.land x 7) (utf8.acceptRanges (Z.shiftr x 4)) p0 rest0.
Proof. intros Hx Hlead. unfold utf8.DecodeRune. rewrite Hx, Hlead. reflexivity. Qed.

Lemma cont_low b : cont b -> Z.land (bz b) utf8.maskx = bz b - 0x80 /\ 0 <= bz b - 0x80 < 64.
Proof.
  unfold cont. intros Hb.
  rewrite (land_mask_low _ _ 6) by (lia || reflexivity).
  change (2 ^ 6) with 64. split; [|lia]. Z.div_mod_to_equations. lia.
Qed.

(** Decides every [_ <? _] test of the goal that the hypotheses settle. *)
Ltac settle_tests :=
  unfold utf8.locb, utf8.hicb in *;
  repeat match goal with
         | |- context [?x <? ?y] =>
             first [ replace (x <? y) with false by (symmetry; apply Z.ltb_ge; lia)
                   | replace (x <? y) with true by (symmetry; apply Z.ltb_lt; lia) ]
         end;
  cbn [orb andb negb].


Ltac first_is :=
  unfold utf8.first;
  repeat match goal with
         | |- context [if ?x <? ?y then _ else _] => destruct (Z.ltb_spec x y); try lia
         | |- context [if ?x =? ?y then _ else _] => destruct (Z.eqb_spec x y); try lia
         end; try reflexivity.

Lemma DecodeRune_2 p0 p1 rest :
  seq2 p0 p1 -> utf8.DecodeRune (p0 :: p1 :: rest) = (rune2 p0 p1, 2%nat).
Proof.
  intros [H0 H1].
  assert (Hf : utf8.first (bz p0) = utf8.s1) by first_is.
  rewrite (DecodeRune_lead _ _ _ Hf eq_refl).
  eval_closed (Z.land utf8.s1 7). eval_closed (utf8.acceptRanges (Z.shiftr utf8.s1 4)).
  unfold decode_lead. cbn [length fst snd].
  destruct (cont_low p1 H1) as [E1 R1]. unfold cont in H1.
  settle_tests. eval_closed (2 <=? 2). cbv iota. f_equal.
  rewrite E1, pack2 by lia. unfold rune2. f_equal.
  rewrite (land_mask_low _ _ 5) by (lia || reflexivity).
  change (2 ^ 5) with 32. Z.div_mod_to_equations. lia.
Qed.

Lemma DecodeRune_3 p0 p1 p2 rest :
  seq3 p0 p1 p2 -> utf8.DecodeRune (p0 :: p1 :: p2 :: rest) = (rune3 p0 p1 p2, 3%nat).
Proof.
  intros (H0 & H1 & Hlo & Hhi & H2).
  destruct (cont_low p1 H1) as [E1 R1]. destruct (cont_low p2 H2) as [E2 R2].
  unfold cont in H1, H2.
  assert (Hr : utf8.DecodeRune (p0 :: p1 :: p2 :: rest)
               = (Z.lor (Z.lor (Z.shiftl (Z.land (bz p0) utf8.mask3) 12)
                           (Z.shiftl (Z.land (bz p1) utf8.maskx) 6))
                    (Z.land (bz p2) utf8.maskx), 3%nat)).
  { destruct (Z.eq_dec (bz p0) 0xE0) as [Ea|Na]; [|destruct (Z.eq_dec (bz p0) 0xED) as [Eb|Nb]].
    - assert (Hf : utf8.first (bz p0) = utf8.s2) by first_is.
      rewrite (DecodeRune_lead _ _ _ Hf eq_refl).
      eval_closed (Z.land utf8.s2 7). eval_closed (utf8.acceptRanges (Z.shiftr utf8.s2 4)).
      unfold decode_lead. cbn [length fst snd]. settle_tests.
      eval_closed (3 <=? 2). eval_closed (3 <=? 3). reflexivity.
    - assert (Hf : utf8.first (bz p0) = utf8.s4) by first_is.
      rewrite (DecodeRune_lead _ _ _ Hf eq_refl).
      eval_closed (Z.land utf8.s4 7). eval_closed (utf8.acceptRanges (Z.shiftr utf8.s4 4)).
      unfold decode_lead. cbn [length fst snd]. settle_tests.
      eval_closed (3 <=? 2). eval_closed (3 <=? 3). reflexivity.
    - assert (Hf : utf8.first (bz p0) = utf8.s3) by first_is.
      rewrite (DecodeRune_lead _ _ _ Hf eq_refl).
      eval_closed (Z.land utf8.s3 7). eval_closed (utf8.acceptRanges (Z.shiftr utf8.s3 4)).
      unfold decode_lead. cbn [length fst snd]. settle_tests.
      eval_closed (3 <=? 2). eval_closed (3 <=? 3). reflexivity. }
  rewrite Hr. f_equal. rewrite E1, E2, pack3 by lia. unfold rune3. do 2 f_equal.
  rewrite (land_mask_low _ _ 4) by (lia || reflexivity).
  change (2 ^ 4) with 16. Z.div_mod_to_equations. lia.
Qed.

Lemma DecodeRune_4 p0 p1 p2 p3 rest :
  seq4 p0 p1 p2 p3 ->
  utf8.DecodeRune (p0 :: p1 :: p2 :: p3 :: rest) = (rune4 p0 p1 p2 p3, 4%nat).
Proof.
  intros (H0 & H1 & Hlo & Hhi & H2 & H3).
  destruct (cont_low p1 H1) as [E1 R1]. destruct (cont_low p2 H2) as [E2 R2].
  destruct (cont_low p3 H3) as [E3 R3].
  unfold cont in H1, H2, H3.
  assert (Hr : utf8.DecodeRune (p0 :: p1 :: p2 :: p3 :: rest)
               = (Z.lor (Z.lor (Z.lor (Z.shiftl (Z.land (bz p0) utf8.mask4) 18)
                                  (Z.shiftl (Z.land (bz p1) utf8.maskx) 12))
                           (Z.shiftl (Z.land (bz p2) utf8.maskx) 6))
                    (Z.land (bz p3) utf8.maskx), 4%nat)).
  { destruct (Z.eq_dec (bz p0) 0xF0) as [Ea|Na]; [|destruct (Z.eq_dec (bz p0) 0xF4) as [Eb|Nb]].
    - assert (Hf : utf8.first (bz p0) = utf8.s5) by first_is.
      rewrite (DecodeRune_lead _ _ _ Hf eq_refl).
      eval_closed (Z.land utf8.s5 7). eval_closed (utf8.acceptRanges (Z.shiftr utf8.s5 4)).
      unfold decode_lead. cbn [length fst snd]. settle_tests.
      eval_closed (4 <=? 2). eval_closed (4 <=? 3). reflexivity.
    - assert (Hf : utf8.first (bz p0) = utf8.s7) by first_is.
      rewrite (DecodeRune_lead _ _ _ Hf eq_refl).
      eval_closed (Z.land utf8.s7 7). eval_closed (utf8.acceptRanges (Z.shiftr utf8.s7 4)).
      unfold decode_lead. cbn [length fst snd]. settle_tests.
      eval_closed (4 <=? 2). eval_closed (4 <=? 3). reflexivity.
    - assert (Hf : utf8.first (bz p0) = utf8.s6) by first_is.
      rewrite (DecodeRune_lead _ _ _ Hf eq_refl).
      eval_closed (Z.land utf8.s6 7). eval_closed (utf8.acceptRanges (Z.shiftr utf8.s6 4)).
      unfold decode_lead. cbn [length fst snd]. settle_tests.
      eval_closed (4 <=? 2). eval_closed (4 <=? 3). reflexivity. }
  rewrite Hr. f_equal. rewrite E1, E2, E3, pack4 by lia. unfold rune4. do 3 f_equal.
  rewrite (land_mask_low _ _ 3) by (lia || reflexivity).
  change (2 ^ 3) with 8. Z.div_mod_to_equations. lia.
Qed.


(** ** [AppendRune] gives back the bytes [DecodeRune] read *)

Lemma enc_lead t k x b :
  0 <= k <= 8 -> t mod 2 ^ k = 0 -> 0 <= x < 2 ^ k -> bz b = t + x ->
  zb (Z.lor t (bz (zb x))) = b.
Proof.
  intros Hk Ht Hx Hb.
  assert (2 ^ k <= 2 ^ 8) by (apply Z.pow_le_mono_r; lia).
  change (2 ^ 8) with 256 in *.
  rewrite bz_zb_small by lia.
  rewrite (lor_add_disjoint t x k) by lia.
  apply zb_eq. lia.
Qed.

Lemma enc_cont x b :
  bz b = 0x80 + x mod 64 -> zb (Z.lor utf8.tx (Z.land (bz (zb x)) utf8.maskx)) = b.
Proof.
  intros Hb. rewrite bz_zb.
  rewrite (land_mask_low _ _ 6) by (lia || reflexivity).
  change (2 ^ 6) with 64.
  assert (E : (x mod 256) mod 64 = x mod 64) by (Z.div_mod_to_equations; lia).
  rewrite E.
  rewrite (lor_add_disjoint utf8.tx _ 6); [ | lia | change (2 ^ 6) with 64; Z.div_mod_to_equations; lia | reflexivity].
  apply zb_eq. unfold utf8.tx. lia.
Qed.

Lemma rune2_range p0 p1 : seq2 p0 p1 -> 0x80 <= rune2 p0 p1 <= 0x7FF.
Proof. unfold seq2, cont, rune2. lia. Qed.

Lemma rune3_range p0 p1 p2 :
  seq3 p0 p1 p2 ->
  0x800 <= rune3 p0 p1 p2 <= 0xFFFF /\ ~ (0xD800 <= rune3 p0 p1 p2 <= 0xDFFF).
Proof. unfold seq3, cont, rune3. lia. Qed.

Lemma rune4_range p0 p1 p2 p3 :
  seq4 p0 p1 p2 p3 -> 0x10000 <= rune4 p0 p1 p2 p3 <= 0x10FFFF.
Proof. unfold seq4, cont, rune4. lia. Qed.

Ltac settle_leb :=
  repeat match goal with
         | |- context [?x <=? ?y] =>
             first [ replace (x <=? y) with false by (symmetry; apply Z.leb_gt; lia)
                   | replace (x <=? y) with true by (symmetry; apply Z.leb_le; lia) ]
         end.

Lemma AppendRune_2 p0 p1 : seq2 p0 p1 -> utf8.AppendRune (rune2 p0 p1) = [p0; p1].
Proof.
  intros Hs. pose proof (rune2_range _ _ Hs) as Hr. destruct Hs as [H0 H1]. unfold cont in H1.
  unfold utf8.AppendRune, uint32, utf8.rune1Max, utf8.rune2Max.
  rewrite Z.mod_small by lia. settle_leb. cbv iota.
  rewrite Z.shiftr_div_pow2 by lia. change (2 ^ 6) with 64.
  f_equal; [|f_equal].
  - apply (enc_lead _ 5); [lia | reflexivity | | ];
      change (2 ^ 5) with 32; unfold rune2, utf8.t2 in *; Z.div_mod_to_equations; lia.
  - apply enc_cont. unfold rune2. Z.div_mod_to_equations. lia.
Qed.

Lemma AppendRune_3 p0 p1 p2 : seq3 p0 p1 p2 -> utf8.AppendRune (rune3 p0 p1 p2) = [p0; p1; p2].
Proof.
  intros Hs. pose proof (rune3_range _ _ _ Hs) as [Hr Hsur].
  destruct Hs as (H0 & H1 & Hlo & Hhi & H2). unfold cont in H1, H2.
  unfold utf8.AppendRune, uint32, utf8.rune1Max, utf8.rune2Max, utf8.rune3Max,
    utf8.MaxRune, utf8.surrogateMin, utf8.surrogateMax.
  rewrite Z.mod_small by lia. settle_leb. settle_tests. cbv iota.
  destruct (Z.leb_spec 0xD800 (rune3 p0 p1 p2)); destruct (Z.leb_spec (rune3 p0 p1 p2) 0xDFFF);
    cbn [andb]; try lia.
  all: unfold utf8.encode3; rewrite !Z.shiftr_div_pow2 by lia;
    change (2 ^ 12) with 4096; change (2 ^ 6) with 64;
    (f_equal; [|f_equal; [|f_equal]]);
    [ apply (enc_lead _ 4); [lia | reflexivity | | ];
      change (2 ^ 4) with 16; unfold rune3, utf8.t3 in *; Z.div_mod_to_equations; lia
    | apply enc_cont; unfold rune3; Z.div_mod_to_equations; lia
    | apply enc_cont; unfold rune3; Z.div_mod_to_equations; lia ].
Qed.

Lemma AppendRune_4 p0 p1 p2 p3 :
  seq4 p0 p1 p2 p3 -> utf8.AppendRune (rune4 p0 p1 p2 p3) = [p0; p1; p2; p3].
Proof.
  intros Hs. pose proof (rune4_range _ _ _ _ Hs) as Hr.
  destruct Hs as (H0 & H1 & Hlo & Hhi & H2 & H3). unfold cont in H1, H2, H3.
  unfold utf8.AppendRune, uint32, utf8.rune1Max, utf8.rune2Max, utf8.rune3Max,
    utf8.MaxRune, utf8.surrogateMin, utf8.surrogateMax.
  rewrite Z.mod_small by lia. settle_leb. settle_tests. cbv iota.
  rewrite !Z.shiftr_div_pow2 by lia.
  change (2 ^ 18) with 262144; change (2 ^ 12) with 4096; change (2 ^ 6) with 64.
  (f_equal; [|f_equal; [|f_equal; [|f_equal]]]).
  - apply (enc_lead _ 3); [lia | reflexivity | | ];
      change (2 ^ 3) with 8; unfold rune4, utf8.t4 in *; Z.div_mod_to_equations; lia.
  - apply enc_cont; unfold rune4; Z.div_mod_to_equations; lia.
  - apply enc_cont; unfold rune4; Z.div_mod_to_equations; lia.
  - apply enc_cont; unfold rune4; Z.div_mod_to_equations; lia.
Qed.


(** ** Everything [DecodeRune] can return *)

Inductive decoded : list byte -> Z -> nat -> Prop :=
| decoded_empty : decoded [] utf8.RuneError 0
| decoded_ascii p0 rest : bz p0 < 0x80 -> decoded (p0 :: rest) (bz p0) 1
| decoded_invalid p0 rest : 0x80 <= bz p0 -> decoded (p0 :: rest) utf8.RuneError 1
| decoded_2 p0 p1 rest : seq2 p0 p1 -> decoded (p0 :: p1 :: rest) (rune2 p0 p1) 2
| decoded_3 p0 p1 p2 rest :
    seq3 p0 p1 p2 -> decoded (p0 :: p1 :: p2 :: rest) (rune3 p0 p1 p2) 3
| decoded_4 p0 p1 p2 p3 rest :
    seq4 p0 p1 p2 p3 -> decoded (p0 :: p1 :: p2 :: p3 :: rest) (rune4 p0 p1 p2 p3) 4.

Ltac eval_closed_in X H := let v := eval vm_compute in X in change X with v in H.

Ltac split_tests_in H :=
  repeat match type of H with
         | context [?x <? ?y] => destruct (Z.ltb_spec x y)
         end;
  cbn [orb] in H.

Ltac decode_leaf H0 H :=
  unfold utf8.locb, utf8.hicb in *;
  match type of H with
  | (utf8.RuneError, 1%nat) = _ =>
      injection H as <- <-; apply decoded_invalid; lia
  | (_, 2%nat) = _ =>
      match type of H0 with
      | utf8.DecodeRune (?p0 :: ?p1 :: _) = _ =>
          let S := fresh "S" in
          assert (S : seq2 p0 p1) by (unfold seq2, cont; lia);
          rewrite (DecodeRune_2 _ _ _ S) in H0; injection H0 as <- <-;
          apply decoded_2, S
      end
  | (_, 3%nat) = _ =>
      match type of H0 with
      | utf8.DecodeRune (?p0 :: ?p1 :: ?p2 :: _) = _ =>
          let S := fresh "S" in
          assert (S : seq3 p0 p1 p2) by (unfold seq3, cont; lia);
          rewrite (DecodeRune_3 _ _ _ _ S) in H0; injection H0 as <- <-;
          apply decoded_3, S
      end
  | (_, 4%nat) = _ =>
      match type of H0 with
      | utf8.DecodeRune (?p0 :: ?p1 :: ?p2 :: ?p3 :: _) = _ =>
          let S := fresh "S" in
          assert (S : seq4 p0 p1 p2 p3) by (unfold seq4, cont; lia);
          rewrite (DecodeRune_4 _ _ _ _ _ S) in H0; injection H0 as <- <-;
          apply decoded_4, S
      end
  end.

Ltac decode_lead_cases H0 x :=
  match type of H0 with
  | utf8.DecodeRune (?p0 :: ?rest0) = _ =>
      let H := fresh "H" in
      pose proof H0 as H;
      rewrite (DecodeRune_lead p0 rest0 x ltac:(assumption) eq_refl) in H;
      eval_closed_in (Z.land x 7) H; eval_closed_in (utf8.acceptRanges (Z.shiftr x 4)) H;
      unfold decode_lead in H;
      destruct rest0 as [|?p1 [|?p2 [|?p3 ?rest]]];
      cbn [length fst snd] in H;
      repeat match type of H with
             | context [?a <=? ?b] => eval_closed_in (a <=? b) H
             end;
      split_tests_in H; try lia;
      decode_leaf H0 H
  end.

Lemma DecodeRune_decoded s r w : utf8.DecodeRune s = (r, w) -> decoded s r w.
Proof.
  intros H0. destruct s as [|p0 rest0].
  { injection H0 as <- <-. constructor. }
  destruct (first_spec (bz p0) (bz_range p0))
    as [[Hf ?]|[[Hf ?]|[[Hf ?]|[[Hf ?]|[[Hf ?]|[[Hf ?]|[[Hf ?]|[[Hf ?]|[Hf ?]]]]]]]]].
  - rewrite DecodeRune_ascii in H0 by lia. injection H0 as <- <-. by constructor.
  - rewrite (DecodeRune_bad_lead _ _ Hf) in H0. injection H0 as <- <-.
    constructor. lia.
  - decode_lead_cases H0 utf8.s1.
  - decode_lead_cases H0 utf8.s2.
  - decode_lead_cases H0 utf8.s3.
  - decode_lead_cases H0 utf8.s4.
  - decode_lead_cases H0 utf8.s5.
  - decode_lead_cases H0 utf8.s6.
  - decode_lead_cases H0 utf8.s7.
Qed.

Lemma DecodeRune_is_decoded s : decoded s (fst (utf8.DecodeRune s)) (snd (utf8.DecodeRune s)).
Proof. apply DecodeRune_decoded. destruct (utf8.DecodeRune s); reflexivity. Qed.


(** * [bytes.IndexByte] *)

Lemma IndexByte_ge b c : -1 <= bytes.IndexByte b c.
Proof.
  induction b as [|x b IH]; simpl; [lia|].
  destruct (Byte.eqb x c); [lia|].
  destruct (Z.ltb_spec (bytes.IndexByte b c) 0); lia.
Qed.

Lemma IndexByte_lt b c : bytes.IndexByte b c < Z.of_nat (length b).
Proof.
  induction b as [|x b IH]; cbn [bytes.IndexByte length]; [lia|].
  destruct (Byte.eqb x c); [lia|].
  destruct (Z.ltb_spec (bytes.IndexByte b c) 0); lia.
Qed.

Lemma IndexByte_here c rest : bytes.IndexByte (c :: rest) c = 0.
Proof.
  simpl. replace (Byte.eqb c c) with true; [reflexivity|].
  symmetry. by apply byte_eqb_true.
Qed.

Lemma IndexByte_skip a b c :
  Forall (fun x => x <> c) a -> 0 <= bytes.IndexByte b c ->
  bytes.IndexByte (a ++ b) c = Z.of_nat (length a) + bytes.IndexByte b c.
Proof.
  intros Ha Hb. induction Ha as [|x a Hx Ha IH]; cbn [app bytes.IndexByte length]; [lia|].
  replace (Byte.eqb x c) with false by (symmetry; by apply byte_eqb_false).
  rewrite IH. destruct (Z.ltb_spec (Z.of_nat (length a) + bytes.IndexByte b c) 0); lia.
Qed.

Lemma IndexByte_absent a c :
  Forall (fun x => x <> c) a -> bytes.IndexByte a c = -1.
Proof.
  intros Ha. induction Ha as [|x a Hx Ha IH]; cbn [bytes.IndexByte]; [reflexivity|].
  replace (Byte.eqb x c) with false by (symmetry; by apply byte_eqb_false).
  rewrite IH. reflexivity.
Qed.

Lemma IndexByte_first a c rest :
  Forall (fun x => x <> c) a -> bytes.IndexByte (a ++ c :: rest) c = Z.of_nat (length a).
Proof.
  intros Ha. rewrite IndexByte_skip by (rewrite ?IndexByte_here; auto; lia).
  rewrite IndexByte_here. lia.
Qed.

Lemma IndexByte_found b c :
  0 <= bytes.IndexByte b c ->
  exists a rest, b = a ++ c :: rest /\ Forall (fun x => x <> c) a
                 /\ bytes.IndexByte b c = Z.of_nat (length a).
Proof.
  induction b as [|x b IH]; cbn [bytes.IndexByte]; [lia|].
  destruct (Byte.eqb x c) eqn:E.
  - apply byte_eqb_true in E as ->. intros _. exists [], b. repeat split. constructor.
  - apply byte_eqb_false in E.
    destruct (Z.ltb_spec (bytes.IndexByte b c) 0); [lia|]. intros _.
    destruct IH as (a & rest & -> & Ha & Hi); [lia|].
    exists (x :: a), rest. repeat split; [by constructor|].
    cbn [length]. lia.
Qed.

Lemma IndexByte_missing b c :
  bytes.IndexByte b c < 0 -> Forall (fun x => x <> c) b.
Proof.
  induction b as [|x b IH]; cbn [bytes.IndexByte]; [constructor|].
  destruct (Byte.eqb x c) eqn:E; [lia|]. apply byte_eqb_false in E.
  destruct (Z.ltb_spec (bytes.IndexByte b c) 0); [|lia]. intros _.
  constructor; auto.
Qed.

Lemma contains_cons x l c :
  strconv.contains (x :: l) c = Byte.eqb x c || strconv.contains l c.
Proof.
  unfold strconv.contains. cbn [bytes.IndexByte].
  destruct (Byte.eqb x c); [reflexivity|]. cbn [orb].
  pose proof (IndexByte_ge l c).
  destruct (Z.ltb_spec (bytes.IndexByte l c) 0) as [Hlt|Hge]; [reflexivity|].
  destruct (Z.ltb_spec (bytes.IndexByte l c + 1) 0); [lia|reflexivity].
Qed.

Lemma contains_app a b c :
  strconv.contains (a ++ b) c = strconv.contains a c || strconv.contains b c.
Proof.
  induction a as [|x a IH]; [reflexivity|].
  cbn [app]. rewrite !contains_cons, IH. apply orb_assoc.
Qed.


(** * Quoting and unquoting: one rune at a time *)

Lemma int32_small z : - 2 ^ 31 <= z < 2 ^ 31 -> int32 z = z.
Proof. intros Hz. unfold int32. rewrite Z.mod_small by lia. lia. Qed.

Lemma unhex_lowerhex d : 0 <= d < 16 -> strconv.unhex (strconv.lowerhex d) = Some d.
Proof.
  intros Hd.
  assert (E : d = 0 \/ d = 1 \/ d = 2 \/ d = 3 \/ d = 4 \/ d = 5 \/ d = 6 \/ d = 7 \/ d = 8
              \/ d = 9 \/ d = 10 \/ d = 11 \/ d = 12 \/ d = 13 \/ d = 14 \/ d = 15) by lia.
  repeat destruct E as [->|E]; try subst d; reflexivity.
Qed.

Lemma hex_step_digit v d :
  0 <= v -> 0 <= d < 16 -> v * 16 + d < 2 ^ 31 ->
  strconv.hex_step (Some v) (strconv.lowerhex d) = Some (v * 16 + d).
Proof.
  intros Hv Hd Hb. unfold strconv.hex_step. rewrite unhex_lowerhex by lia.
  rewrite Z.shiftl_mul_pow2 by lia.
  rewrite (lor_add_disjoint _ _ 4) by (try apply Z.mod_mul; lia).
  change (2 ^ 4) with 16. rewrite int32_small by lia. reflexivity.
Qed.

Lemma hexdigit_value r n :
  0 <= n -> Z.land (Z.shiftr r (4 * n)) 0xF = (r / 16 ^ n) mod 16.
Proof.
  intros Hn. rewrite Z.shiftr_div_pow2 by lia.
  rewrite (land_mask_low _ _ 4) by (lia || reflexivity).
  rewrite Z.pow_mul_r by lia. reflexivity.
Qed.

Lemma hexdigits_value n r v :
  0 <= v -> 0 <= r -> v * 16 ^ Z.of_nat n + r mod 16 ^ Z.of_nat n < 2 ^ 31 ->
  foldl strconv.hex_step (Some v) (strconv.hexdigits n r)
  = Some (v * 16 ^ Z.of_nat n + r mod 16 ^ Z.of_nat n).
Proof.
  revert v. induction n as [|n IH]; intros v Hv Hr Hb.
  - simpl. rewrite Z.mod_1_r. f_equal. lia.
  - cbn [strconv.hexdigits foldl].
    rewrite hexdigit_value by lia.
    set (P := 16 ^ Z.of_nat n) in *.
    assert (HP : 0 < P) by (apply Z.pow_pos_nonneg; lia).
    assert (EP : 16 ^ Z.of_nat (S n) = P * 16).
    { rewrite Nat2Z.inj_succ, Z.pow_succ_r by lia. lia. }
    rewrite EP in *.
    assert (Erem : r mod (P * 16) = r mod P + P * ((r / P) mod 16))
      by (apply Z.rem_mul_r; lia).
    set (d := (r / P) mod 16) in *.
    assert (Hd : 0 <= d < 16) by (apply Z.mod_pos_bound; lia).
    assert (Hm : 0 <= r mod P < P) by (apply Z.mod_pos_bound; lia).
    rewrite hex_step_digit; [| lia | lia | nia].
    rewrite IH; [| lia | lia | nia].
    f_equal. rewrite Erem. lia.
Qed.

Lemma length_hexdigits n r : length (strconv.hexdigits n r) = n.
Proof. induction n; simpl; congruence. Qed.

Lemma hex_value_digits n r :
  0 <= r < 16 ^ Z.of_nat n -> r < 2 ^ 31 ->
  strconv.hex_value (strconv.hexdigits n r) = Some r.
Proof.
  intros Hr Hb. unfold strconv.hex_value.
  rewrite hexdigits_value; rewrite ?Z.mod_small by lia; try lia.
  reflexivity.
Qed.

Lemma unquote_hex_digits n r multi tail :
  0 <= r < 16 ^ Z.of_nat n -> r < 2 ^ 31 ->
  (multi = true -> utf8.ValidRune r = true) ->
  strconv.unquote_hex n multi (strconv.hexdigits n r ++ tail) = Some (r, multi, tail).
Proof.
  intros Hr Hb Hvalid. unfold strconv.unquote_hex.
  rewrite length_app, length_hexdigits.
  replace (n + length tail <? n)%nat with false by (symmetry; apply Nat.ltb_ge; lia).
  rewrite take_app_length' by (symmetry; apply length_hexdigits).
  rewrite hex_value_digits by lia.
  rewrite drop_app_length' by (symmetry; apply length_hexdigits).
  destruct multi; [rewrite Hvalid by reflexivity|]; reflexivity.
Qed.

(** The two hexadecimal digits of a byte, as the quoting loop writes them. *)
Lemma hex_of_byte b :
  [strconv.lowerhex (Z.shiftr (bz b) 4); strconv.lowerhex (Z.land (bz b) 0xF)]
  = strconv.hexdigits 2 (bz b).
Proof.
  cbn [strconv.hexdigits]. change (4 * Z.of_nat 1) with 4. change (4 * Z.of_nat 0) with 0.
  rewrite Z.shiftr_0_r. do 2 f_equal.
  pose proof (bz_range b).
  rewrite !(land_mask_low _ _ 4) by (lia || reflexivity).
  rewrite Z.shiftr_div_pow2 by lia. change (2 ^ 4) with 16.
  rewrite Z.mod_small; [reflexivity|]. Z.div_mod_to_equations. lia.
Qed.


Lemma lowerhex_ascii d : bz (strconv.lowerhex d) < 0x80.
Proof.
  unfold strconv.lowerhex. generalize (Z.to_nat d). intros n.
  do 17 (destruct n as [|n]; [reflexivity|]). destruct n; reflexivity.
Qed.

Lemma hexdigits_ascii n r : Forall (fun b => bz b < 0x80) (strconv.hexdigits n r).
Proof. induction n; simpl; constructor; auto using lowerhex_ascii. Qed.

(** A chunk of text that [ToValidUTF8] keeps as it is: ASCII bytes, or one
    well-formed multi-byte sequence. *)
Inductive utf8_chunk : list byte -> Prop :=
| chunk_ascii l : Forall (fun b => bz b < 0x80) l -> utf8_chunk l
| chunk_2 p0 p1 : seq2 p0 p1 -> utf8_chunk [p0; p1]
| chunk_3 p0 p1 p2 : seq3 p0 p1 p2 -> utf8_chunk [p0; p1; p2]
| chunk_4 p0 p1 p2 p3 : seq4 p0 p1 p2 p3 -> utf8_chunk [p0; p1; p2; p3].

(** The bytes [unquote] appends for what [UnquoteChar] returned. *)
Definition unquoted_bytes (v : Z) (multibyte : bool) : list byte :=
  if (v <? utf8.RuneSelf) || negb multibyte then [zb v] else utf8.AppendRune v.

Lemma UnquoteChar_x s2 :
  strconv.UnquoteChar (x5c :: x78 :: s2) x22 = strconv.unquote_hex 2 false s2.
Proof. reflexivity. Qed.

Lemma UnquoteChar_u s2 :
  strconv.UnquoteChar (x5c :: x75 :: s2) x22 = strconv.unquote_hex 4 true s2.
Proof. reflexivity. Qed.

Lemma UnquoteChar_U s2 :
  strconv.UnquoteChar (x5c :: x55 :: s2) x22 = strconv.unquote_hex 8 true s2.
Proof. reflexivity. Qed.

Lemma UnquoteChar_high c s1 :
  0x80 <= bz c ->
  strconv.UnquoteChar (c :: s1) x22
  = let '(r, size) := utf8.DecodeRune (c :: s1) in Some (r, true, drop size (c :: s1)).
Proof.
  intros Hc. unfold strconv.UnquoteChar.
  rewrite (byte_eqb_bz c x22). change (bz x22) with 34.
  replace (bz c =? 34) with false by (symmetry; apply Z.eqb_neq; lia).
  cbn [andb]. unfold utf8.RuneSelf.
  replace (128 <=? bz c) with true by (symmetry; apply Z.leb_le; lia).
  reflexivity.
Qed.

Section QuoteStep.

Variable isPrintWide : Z -> bool.

Local Abbreviation IsPrint := (strconv.IsPrint isPrintWide).
Local Abbreviation appendEscapedRune := (strconv.appendEscapedRune isPrintWide).
Local Abbreviation appendQuoted_loop := (strconv.appendQuoted_loop isPrintWide).

(** The rune the quoting loop reads at the head of [s], with its width. *)
Definition quote_rune (s : list byte) : Z * nat :=
  match s with
  | [] => (0, 0%nat)
  | s0 :: _ => if utf8.RuneSelf <=? bz s0 then utf8.DecodeRune s else (bz s0, 1%nat)
  end.

(** The text the quoting loop writes for it. *)
Definition quote_chunk (s0 : byte) (r : Z) (w : nat) : list byte :=
  if (w =? 1)%nat && (r =? utf8.RuneError) then
    [x5c; x78; strconv.lowerhex (Z.shiftr (bz s0) 4); strconv.lowerhex (Z.land (bz s0) 0xF)]
  else appendEscapedRune r x22.

Lemma appendQuoted_loop_step fuel s0 rest :
  appendQuoted_loop (S fuel) (s0 :: rest) x22
  = quote_chunk s0 (fst (quote_rune (s0 :: rest))) (snd (quote_rune (s0 :: rest)))
      ++ appendQuoted_loop fuel (drop (snd (quote_rune (s0 :: rest))) (s0 :: rest)) x22.
Proof.
  cbn [strconv.appendQuoted_loop quote_rune].
  destruct (if utf8.RuneSelf <=? bz s0 then utf8.DecodeRune (s0 :: rest) else (bz s0, 1%nat))
    as [r w]. reflexivity.
Qed.

(** What one pass of the quoting loop guarantees about the chunk it writes
    for the first [w] bytes of [s]. *)
Record step_ok (s chunk : list byte) (w : nat) : Prop := {
  step_width : (1 <= w <= length s)%nat;
  step_back : forall tail, exists v mb,
      strconv.UnquoteChar (chunk ++ tail) x22 = Some (v, mb, tail)
      /\ unquoted_bytes v mb = take w s;
  step_head : exists c0 cs, chunk = c0 :: cs /\ c0 <> x22 /\ c0 <> x0a;
  step_raw : (chunk = take w s /\ Forall (fun b => b <> x22 /\ b <> x5c) chunk)
             \/ (exists cs, chunk = x5c :: cs);
  step_utf8 : utf8_chunk chunk
}.

Lemma appendEscapedRune_high r :
  0x80 <= r -> utf8.ValidRune r = true ->
  appendEscapedRune r x22
  = if IsPrint r then utf8.AppendRune r
    else if r <? 0x10000 then [x5c; x75] ++ strconv.hexdigits 4 r
         else [x5c; x55] ++ strconv.hexdigits 8 r.
Proof.
  intros Hr Hv. unfold strconv.appendEscapedRune. change (bz x22) with 34.
  repeat match goal with
         | |- context [r =? ?c] =>
             replace (r =? c) with false by (symmetry; apply Z.eqb_neq; lia)
         end.
  replace (r <? 32) with false by (symmetry; apply Z.ltb_ge; lia).
  rewrite Hv. reflexivity.
Qed.

Lemma high_byte_plain b : 0x80 <= bz b -> b <> x22 /\ b <> x5c /\ b <> x0a.
Proof. intros Hb. repeat split; intros ->; vm_compute in Hb; congruence. Qed.

Lemma ValidRune_range r :
  0 <= r <= 0x10FFFF -> ~ (0xD800 <= r <= 0xDFFF) -> utf8.ValidRune r = true.
Proof.
  intros Hr Hs. unfold utf8.ValidRune, utf8.surrogateMin, utf8.surrogateMax, utf8.MaxRune.
  destruct (Z.leb_spec 0 r); [|lia].
  destruct (Z.ltb_spec r 0xD800); [reflexivity|].
  destruct (Z.ltb_spec 0xDFFF r); [|lia].
  destruct (Z.leb_spec r 0x10FFFF); [reflexivity|lia].
Qed.

Lemma unquoted_bytes_high r : 0x80 <= r -> unquoted_bytes r true = utf8.AppendRune r.
Proof.
  intros Hr. unfold unquoted_bytes, utf8.RuneSelf.
  replace (r <? 128) with false by (symmetry; apply Z.ltb_ge; lia). reflexivity.
Qed.

(** The pass over a well-formed multi-byte sequence. *)
Lemma step_ok_multibyte chunk0 rest r w :
  (2 <= w)%nat -> length chunk0 = w -> utf8.AppendRune r = chunk0 ->
  0x80 <= r <= 0x10FFFF -> utf8.ValidRune r = true ->
  Forall (fun b => 0x80 <= bz b) chunk0 -> utf8_chunk chunk0 ->
  (forall tail, utf8.DecodeRune (chunk0 ++ tail) = (r, w)) ->
  step_ok (chunk0 ++ rest) (appendEscapedRune r x22) w.
Proof.
  intros Hw Hlen Henc Hr Hvalid Hhigh Hchunk Hdec.
  rewrite appendEscapedRune_high by (lia || assumption).
  assert (Htake : take w (chunk0 ++ rest) = chunk0) by (apply take_app_length'; lia).
  destruct chunk0 as [|c0 cs]; [simpl in Hlen; lia|].
  pose proof (Forall_inv Hhigh) as Hc0. cbn beta in Hc0.
  destruct (IsPrint r).
  - rewrite Henc. constructor.
    + rewrite length_app. lia.
    + intros tail. exists r, true. split.
      * cbn [app]. rewrite UnquoteChar_high by lia.
        change (c0 :: cs ++ tail) with ((c0 :: cs) ++ tail). rewrite Hdec.
        rewrite drop_app_length' by lia. reflexivity.
      * rewrite unquoted_bytes_high by lia. congruence.
    + exists c0, cs. destruct (high_byte_plain c0 Hc0) as (? & ? & ?). auto.
    + left. split; [congruence|].
      eapply Forall_impl; [exact Hhigh|]. intros b Hb.
      destruct (high_byte_plain b Hb) as (? & ? & ?). auto.
    + exact Hchunk.
  - assert (Hback : forall n tail, (n = 4%nat \/ n = 8%nat) -> r < 16 ^ Z.of_nat n ->
              strconv.unquote_hex n true (strconv.hexdigits n r ++ tail) = Some (r, true, tail)).
    { intros n tail Hn Hlt. apply unquote_hex_digits; [lia | lia | auto]. }
    destruct (Z.ltb_spec r 0x10000).
    + constructor.
      * rewrite length_app. lia.
      * intros tail. exists r, true. split.
        -- cbn [app]. rewrite UnquoteChar_u. apply Hback; [auto|]. change (16 ^ Z.of_nat 4) with 65536. lia.
        -- rewrite unquoted_bytes_high by lia. congruence.
      * eexists _, _. split; [reflexivity|]. split; discriminate.
      * right. eexists. reflexivity.
      * apply chunk_ascii. cbn [app]. repeat (constructor; [reflexivity|]).
        apply hexdigits_ascii.
    + constructor.
      * rewrite length_app. lia.
      * intros tail. exists r, true. split.
        -- cbn [app]. rewrite UnquoteChar_U. apply Hback; [auto|].
           change (16 ^ Z.of_nat 8) with 4294967296. lia.
        -- rewrite unquoted_bytes_high by lia. congruence.
      * eexists _, _. split; [reflexivity|]. split; discriminate.
      * right. eexists. reflexivity.
      * apply chunk_ascii. cbn [app]. repeat (constructor; [reflexivity|]).
        apply hexdigits_ascii.
Qed.

(** The pass over an invalid byte. *)
Lemma step_ok_invalid s0 rest :
  0x80 <= bz s0 ->
  step_ok (s0 :: rest) (quote_chunk s0 utf8.RuneError 1) 1.
Proof.
  intros Hs0. unfold quote_chunk. cbn [Nat.eqb andb]. rewrite Z.eqb_refl.
  change [x5c; x78; strconv.lowerhex (Z.shiftr (bz s0) 4); strconv.lowerhex (Z.land (bz s0) 0xF)]
    with ([x5c; x78] ++ [strconv.lowerhex (Z.shiftr (bz s0) 4);
                         strconv.lowerhex (Z.land (bz s0) 0xF)]).
  rewrite hex_of_byte. pose proof (bz_range s0) as Hrange. constructor.
  - cbn [length]. lia.
  - intros tail. exists (bz s0), false. split.
    + cbn [app]. rewrite UnquoteChar_x.
      change (strconv.lowerhex (Z.land (Z.shiftr (bz s0) (4 * Z.of_nat 1)) 15)
                :: strconv.lowerhex (Z.land (Z.shiftr (bz s0) (4 * Z.of_nat 0)) 15) :: tail)
        with (strconv.hexdigits 2 (bz s0) ++ tail).
      apply unquote_hex_digits; [change (16 ^ Z.of_nat 2) with 256; lia | lia | discriminate].
    + unfold unquoted_bytes. rewrite orb_true_r, zb_bz. reflexivity.
  - eexists _, _. split; [reflexivity|]. split; discriminate.
  - right. eexists. reflexivity.
  - apply chunk_ascii. cbn [app]. repeat (constructor; [reflexivity|]).
    apply hexdigits_ascii.
Qed.

(** The pass over an ASCII byte, one byte value at a time. *)
Lemma step_ok_ascii s0 rest :
  bz s0 < 0x80 -> step_ok (s0 :: rest) (quote_chunk s0 (bz s0) 1) 1.
Proof.
  intros Hs0.
  destruct s0; try (exfalso; vm_compute in Hs0; discriminate); clear Hs0;
    match goal with
    | |- step_ok _ ?c _ => let v := eval vm_compute in c in change c with v
    end;
    (constructor;
     [ cbn [length]; lia
     | intros tail; eexists _, _; split; reflexivity
     | eexists _, _; split; [reflexivity|]; split; discriminate
     | first [ left; split; [reflexivity|]; repeat constructor; discriminate
             | right; eexists; reflexivity ]
     | apply chunk_ascii; repeat constructor ]).
Qed.

Lemma quote_step_ok s0 rest :
  step_ok (s0 :: rest)
    (quote_chunk s0 (fst (quote_rune (s0 :: rest))) (snd (quote_rune (s0 :: rest))))
    (snd (quote_rune (s0 :: rest))).
Proof.
  unfold quote_rune, utf8.RuneSelf.
  destruct (Z.leb_spec 128 (bz s0)) as [Hhigh|Hlow]; [|apply step_ok_ascii; lia].
  destruct (utf8.DecodeRune (s0 :: rest)) as [r w] eqn:E. cbn [fst snd].
  apply DecodeRune_decoded in E. inversion E; subst.
  - lia.
  - apply step_ok_invalid. lia.
  - match goal with S : seq2 _ _ |- _ =>
      pose proof (rune2_range _ _ S) as Hr; pose proof (AppendRune_2 _ _ S) as Henc;
      pose proof S as [S0 S1]; unfold cont in S1
    end.
    unfold quote_chunk. cbn [Nat.eqb andb].
    apply (step_ok_multibyte [s0; p1] rest0); try assumption; try (cbn [length]; lia).
    + apply ValidRune_range; lia.
    + repeat constructor; lia.
    + by apply chunk_2.
    + intros tail. by apply DecodeRune_2.
  - match goal with S : seq3 _ _ _ |- _ =>
      pose proof (rune3_range _ _ _ S) as [Hr Hsur]; pose proof (AppendRune_3 _ _ _ S) as Henc;
      pose proof S as (S0 & S1 & _ & _ & S2); unfold cont in S1, S2
    end.
    unfold quote_chunk. cbn [Nat.eqb andb].
    apply (step_ok_multibyte [s0; p1; p2] rest0); try assumption; try (cbn [length]; lia).
    + apply ValidRune_range; lia.
    + repeat constructor; lia.
    + by apply chunk_3.
    + intros tail. by apply DecodeRune_3.
  - match goal with S : seq4 _ _ _ _ |- _ =>
      pose proof (rune4_range _ _ _ _ S) as Hr; pose proof (AppendRune_4 _ _ _ _ S) as Henc;
      pose proof S as (S0 & S1 & _ & _ & S2 & S3); unfold cont in S1, S2, S3
    end.
    unfold quote_chunk. cbn [Nat.eqb andb].
    apply (step_ok_multibyte [s0; p1; p2; p3] rest0); try assumption; try (cbn [length]; lia).
    + apply ValidRune_range; lia.
    + repeat constructor; lia.
    + by apply chunk_4.
    + intros tail. by apply DecodeRune_4.
Qed.

End QuoteStep.


(** * Unquoting what was quoted *)

Section QuoteLoop.

Variable isPrintWide : Z -> bool.

Local Abbreviation appendQuoted_loop := (strconv.appendQuoted_loop isPrintWide).
Local Abbreviation quote_rune := quote_rune.
Local Abbreviation quote_chunk := (quote_chunk isPrintWide).

Lemma appendQuoted_loop_nil fuel : appendQuoted_loop fuel [] x22 = [].
Proof. destruct fuel; reflexivity. Qed.

(** The escape-processing loop reads back the quoted body. *)
Lemma unquote_loop_quoted fuel : forall s buf fuel2,
  (length s <= fuel)%nat ->
  (length (appendQuoted_loop fuel s x22) <= fuel2)%nat ->
  strconv.unquote_loop fuel2 (appendQuoted_loop fuel s x22 ++ [x22]) buf
  = strconv.Unquoted (buf ++ s).
Proof.
  induction fuel as [|fuel IH]; intros s buf fuel2 Hs Hfuel2.
  - destruct s; [|simpl in Hs; lia]. simpl. destruct fuel2; by rewrite app_nil_r.
  - destruct s as [|s0 rest].
    { simpl. destruct fuel2; by rewrite app_nil_r. }
    rewrite appendQuoted_loop_step in *.
    destruct (quote_step_ok isPrintWide s0 rest) as [Hw Hback Hhead _ _].
    set (w := snd (quote_rune (s0 :: rest))) in *.
    set (chunk := quote_chunk s0 (fst (quote_rune (s0 :: rest))) w) in *.
    set (body' := appendQuoted_loop fuel (drop w (s0 :: rest)) x22) in *.
    destruct Hhead as (c0 & cs & Hchunk & Hq & Hnl).
    destruct (Hback (body' ++ [x22])) as (v & mb & Hunq & Hbytes).
    rewrite <- app_assoc.
    rewrite length_app, Hchunk in Hfuel2. cbn [length] in Hfuel2.
    destruct fuel2 as [|fuel2]; [lia|].
    rewrite Hchunk in *. cbn [app strconv.unquote_loop] in *.
    replace (Byte.eqb c0 x22) with false by (symmetry; by apply byte_eqb_false).
    rewrite Hunq.
    replace (Byte.eqb c0 x0a) with false by (symmetry; by apply byte_eqb_false).
    fold (unquoted_bytes v mb). rewrite Hbytes.
    unfold body'. rewrite IH.
    + rewrite <- app_assoc, take_drop. reflexivity.
    + rewrite length_drop. lia.
    + fold body'. lia.
Qed.

(** When no backslash precedes the first quote of a quoted body, that quote
    is the closing one and the body is the string itself. *)
Lemma quoted_without_backslash fuel : forall s tail,
  (length s <= fuel)%nat ->
  let body := appendQuoted_loop fuel s x22 in
  let k := bytes.IndexByte (body ++ x22 :: tail) x22 in
  strconv.contains (take (Z.to_nat (k + 1)) (body ++ x22 :: tail)) x5c = false ->
  k = Z.of_nat (length body) /\ body = s.
Proof.
  induction fuel as [|fuel IH]; intros s tail Hs.
  - destruct s; [|simpl in Hs; lia]. cbn zeta. simpl. auto.
  - destruct s as [|s0 rest].
    { cbn zeta. simpl. auto. }
    cbn zeta. rewrite appendQuoted_loop_step.
    destruct (quote_step_ok isPrintWide s0 rest) as [Hw _ _ Hraw _].
    set (w := snd (quote_rune (s0 :: rest))) in *.
    set (chunk := quote_chunk s0 (fst (quote_rune (s0 :: rest))) w) in *.
    specialize (IH (drop w (s0 :: rest)) tail).
    set (body' := appendQuoted_loop fuel (drop w (s0 :: rest)) x22) in *.
    cbn zeta in IH.
    assert (Hk' : 0 <= bytes.IndexByte (body' ++ x22 :: tail) x22).
    { destruct (Z.lt_ge_cases (bytes.IndexByte (body' ++ x22 :: tail) x22) 0) as [Hneg|]; [|lia].
      apply IndexByte_missing in Hneg. apply Forall_app in Hneg as [_ Hneg].
      apply Forall_inv in Hneg. congruence. }
    rewrite <- app_assoc.
    destruct Hraw as [[Hchunk Hplain]|[cs Hesc]].
    + rewrite IndexByte_skip; [| eapply Forall_impl; [exact Hplain|]; by intros ? [? ?] | exact Hk'].
      replace (Z.to_nat (Z.of_nat (length chunk)
                         + bytes.IndexByte (body' ++ x22 :: tail) x22 + 1))
        with (length chunk + Z.to_nat (bytes.IndexByte (body' ++ x22 :: tail) x22 + 1))%nat
        by lia.
      rewrite take_app_add, contains_app. intros Hno.
      apply orb_false_iff in Hno as [_ Hno].
      destruct IH as [Hk Hbody]; [rewrite length_drop; lia | exact Hno |].
      split.
      * rewrite length_app. lia.
      * rewrite Hbody, Hchunk. apply take_drop.
    + intros Hno. exfalso.
      rewrite Hesc in Hno.
      pose proof (IndexByte_ge ((x5c :: cs) ++ body' ++ x22 :: tail) x22) as Hge.
      assert (Hpos : 0 <= bytes.IndexByte ((x5c :: cs) ++ body' ++ x22 :: tail) x22).
      { destruct (Z.lt_ge_cases (bytes.IndexByte ((x5c :: cs) ++ body' ++ x22 :: tail) x22) 0)
          as [Hneg|]; [|lia].
        apply IndexByte_missing in Hneg. apply Forall_app in Hneg as [_ Hneg].
        apply Forall_app in Hneg as [_ Hneg]. apply Forall_inv in Hneg. congruence. }
      replace (Z.to_nat (bytes.IndexByte ((x5c :: cs) ++ body' ++ x22 :: tail) x22 + 1))
        with (S (Z.to_nat (bytes.IndexByte ((x5c :: cs) ++ body' ++ x22 :: tail) x22)))
        in Hno by lia.
      cbn [app take] in Hno. rewrite contains_cons in Hno. discriminate.
Qed.

(** [Unquote] inverts [AppendQuote]. *)
Lemma Unquote_AppendQuote s :
  strconv.Unquote_double (strconv.AppendQuote isPrintWide s) = strconv.Unquoted s.
Proof.
  unfold strconv.AppendQuote, strconv.Unquote_double.
  set (body := appendQuoted_loop (length s) s x22).
  cbn [app length drop]. rewrite drop_0.
  replace (S (length (body ++ [x22])) <? 2)%nat with false
    by (symmetry; apply Nat.ltb_ge; rewrite length_app; cbn [length]; lia).
  pose proof (quoted_without_backslash (length s) s [] (le_n _)) as Hfast.
  cbn zeta in Hfast. fold body in Hfast.
  set (k := bytes.IndexByte (body ++ [x22]) x22) in *.
  assert (Hk : 0 <= k).
  { destruct (Z.lt_ge_cases k 0) as [Hneg|]; [|lia].
    apply IndexByte_missing in Hneg. apply Forall_app in Hneg as [_ Hneg].
    apply Forall_inv in Hneg. congruence. }
  replace (k <? 0) with false by (symmetry; apply Z.ltb_ge; lia).
  replace (Z.to_nat (k + 2)) with (S (Z.to_nat (k + 1))) by lia.
  cbn [take]. rewrite contains_cons. cbn [orb Byte.eqb].
  change (Byte.eqb x22 x5c) with false. cbn [orb].
  destruct (strconv.contains (take (Z.to_nat (k + 1)) (body ++ [x22])) x5c) eqn:Hbs.
  - cbn [negb andb]. apply unquote_loop_quoted; [lia|].
    unfold body. rewrite length_app. cbn [length]. lia.
  - destruct (Hfast eq_refl) as [Hlen Hbody].
    replace (Z.to_nat (k + 1)) with (length body + 1)%nat by lia.
    match goal with |- (if ?c then _ else _) = _ => destruct c end.
    + cbn [skipn]. rewrite drop_app_add. cbn [skipn].
      unfold slice. cbn [skipn]. rewrite drop_0.
      replace (S (length body + 1) - 1 - 1)%nat with (length body) by lia.
      rewrite take_app_length. by rewrite Hbody.
    + apply unquote_loop_quoted; [lia|].
      unfold body. rewrite length_app. cbn [length]. lia.
Qed.

End QuoteLoop.


(** * [bytes.ToValidUTF8] on well-formed text *)

Lemma decoded_width s r w : decoded s r w -> s <> [] -> (1 <= w <= 4)%nat /\ (w <= length s)%nat.
Proof. intros Hd Hs. inversion Hd; subst; cbn [length]; try lia. congruence. Qed.

(** With no replacement, neither spare fuel nor the flag changes the result. *)
Lemma ToValidUTF8_loop_fuel f1 : forall f2 s inv1 inv2,
  (length s <= f1)%nat -> (length s <= f2)%nat ->
  bytes.ToValidUTF8_loop f1 s [] inv1 = bytes.ToValidUTF8_loop f2 s [] inv2.
Proof.
  induction f1 as [|f1 IH]; intros f2 s inv1 inv2 H1 H2.
  - destruct s; [|simpl in H1; lia]. destruct f2; reflexivity.
  - destruct s as [|c rest]; [destruct f2; reflexivity|].
    destruct f2 as [|f2]; [simpl in H2; lia|].
    cbn [bytes.ToValidUTF8_loop length] in *.
    destruct (bz c <? utf8.RuneSelf).
    + f_equal. apply IH; lia.
    + pose proof (DecodeRune_is_decoded (c :: rest)) as Hd.
      apply decoded_width in Hd as [Hw Hl]; [|discriminate].
      cbn [length] in Hl.
      destruct (snd (utf8.DecodeRune (c :: rest)) =? 1)%nat.
      * destruct inv1, inv2; cbn [app]; apply IH; lia.
      * f_equal. apply IH; rewrite length_drop; cbn [length]; lia.
Qed.

Lemma ToValidUTF8_nil : bytes.ToValidUTF8 [] [] = [].
Proof. reflexivity. Qed.

Lemma ToValidUTF8_ascii c rest :
  bz c < 0x80 -> bytes.ToValidUTF8 (c :: rest) [] = c :: bytes.ToValidUTF8 rest [].
Proof.
  intros Hc. unfold bytes.ToValidUTF8. cbn [length bytes.ToValidUTF8_loop].
  unfold utf8.RuneSelf. replace (bz c <? 128) with true by (symmetry; apply Z.ltb_lt; lia).
  reflexivity.
Qed.

Lemma ToValidUTF8_invalid c rest :
  0x80 <= bz c -> snd (utf8.DecodeRune (c :: rest)) = 1%nat ->
  bytes.ToValidUTF8 (c :: rest) [] = bytes.ToValidUTF8 rest [].
Proof.
  intros Hc Hw. unfold bytes.ToValidUTF8. cbn [length bytes.ToValidUTF8_loop].
  unfold utf8.RuneSelf. replace (bz c <? 128) with false by (symmetry; apply Z.ltb_ge; lia).
  rewrite Hw. cbn [Nat.eqb app]. apply ToValidUTF8_loop_fuel; lia.
Qed.

Lemma ToValidUTF8_multibyte c0 cs rest r :
  0x80 <= bz c0 -> (1 <= length cs)%nat ->
  utf8.DecodeRune ((c0 :: cs) ++ rest) = (r, S (length cs)) ->
  bytes.ToValidUTF8 ((c0 :: cs) ++ rest) [] = (c0 :: cs) ++ bytes.ToValidUTF8 rest [].
Proof.
  intros Hc Hlen Hdec. unfold bytes.ToValidUTF8.
  rewrite length_app. cbn [length app plus bytes.ToValidUTF8_loop].
  unfold utf8.RuneSelf. replace (bz c0 <? 128) with false by (symmetry; apply Z.ltb_ge; lia).
  change (c0 :: cs ++ rest) with ((c0 :: cs) ++ rest). rewrite Hdec. cbn [snd].
  replace (S (length cs) =? 1)%nat with false by (symmetry; apply Nat.eqb_neq; lia).
  rewrite take_app_length' by reflexivity.
  rewrite drop_app_length' by reflexivity.
  cbn [app]. do 2 f_equal. apply ToValidUTF8_loop_fuel; lia.
Qed.

Lemma ToValidUTF8_chunk l rest :
  utf8_chunk l -> bytes.ToValidUTF8 (l ++ rest) [] = l ++ bytes.ToValidUTF8 rest [].
Proof.
  intros [l' Hascii | p0 p1 S | p0 p1 p2 S | p0 p1 p2 p3 S].
  - induction Hascii as [|c l' Hc _ IH]; [reflexivity|].
    cbn [app]. rewrite ToValidUTF8_ascii by exact Hc. by rewrite IH.
  - apply (ToValidUTF8_multibyte p0 [p1] rest (rune2 p0 p1)).
    + destruct S. lia.
    + cbn [length]. lia.
    + by apply DecodeRune_2.
  - apply (ToValidUTF8_multibyte p0 [p1; p2] rest (rune3 p0 p1 p2)).
    + destruct S. lia.
    + cbn [length]. lia.
    + by apply DecodeRune_3.
  - apply (ToValidUTF8_multibyte p0 [p1; p2; p3] rest (rune4 p0 p1 p2 p3)).
    + destruct S. lia.
    + cbn [length]. lia.
    + by apply DecodeRune_4.
Qed.

(** Text made of such chunks. *)
Inductive utf8_text : list byte -> Prop :=
| text_nil : utf8_text []
| text_app chunk rest : utf8_chunk chunk -> utf8_text rest -> utf8_text (chunk ++ rest).

Lemma ToValidUTF8_text l rest :
  utf8_text l -> bytes.ToValidUTF8 (l ++ rest) [] = l ++ bytes.ToValidUTF8 rest [].
Proof.
  induction 1 as [|chunk l' Hc _ IH]; [reflexivity|].
  rewrite <- !app_assoc, ToValidUTF8_chunk by exact Hc. by rewrite IH.
Qed.

Lemma ToValidUTF8_text_id l : utf8_text l -> bytes.ToValidUTF8 l [] = l.
Proof.
  intros Ht. rewrite <- (app_nil_r l) at 1.
  rewrite ToValidUTF8_text by exact Ht. rewrite ToValidUTF8_nil. apply app_nil_r.
Qed.

Lemma utf8_text_ascii l : Forall (fun b => bz b < 0x80) l -> utf8_text l.
Proof.
  intros Hl. rewrite <- (app_nil_r l). apply text_app; [by apply chunk_ascii | constructor].
Qed.

Lemma utf8_text_app a b : utf8_text a -> utf8_text b -> utf8_text (a ++ b).
Proof.
  induction 1 as [|chunk a' Hc _ IH]; intros Hb; [exact Hb|].
  rewrite <- app_assoc. apply text_app; auto.
Qed.

Lemma appendQuoted_loop_text isPrintWide fuel s :
  utf8_text (strconv.appendQuoted_loop isPrintWide fuel s x22).
Proof.
  revert s. induction fuel as [|fuel IH]; intros s; [constructor|].
  destruct s as [|s0 rest]; [constructor|].
  rewrite appendQuoted_loop_step.
  apply text_app; [|apply IH].
  apply (step_utf8 _ _ _ (quote_step_ok isPrintWide s0 rest)).
Qed.

Lemma AppendQuote_text isPrintWide s : utf8_text (strconv.AppendQuote isPrintWide s).
Proof.
  unfold strconv.AppendQuote.
  apply utf8_text_app; [apply utf8_text_ascii; repeat constructor|].
  apply utf8_text_app; [apply appendQuoted_loop_text|].
  apply utf8_text_ascii; repeat constructor.
Qed.


(** * The wire codec *)

Lemma go_index_mid {A} (a : list A) x c i :
  i = Z.of_nat (length a) -> go_index (a ++ x :: c) i = Returns x.
Proof.
  intros ->. unfold go_index.
  replace (0 <=? Z.of_nat (length a)) with true by (symmetry; apply Z.leb_le; lia).
  rewrite Nat2Z.id, list_lookup_middle by reflexivity. reflexivity.
Qed.

Lemma go_slice_mid {A} (a b c : list A) lo hi :
  lo = Z.of_nat (length a) -> hi = Z.of_nat (length a + length b) ->
  go_slice (a ++ b ++ c) lo hi = Returns b.
Proof.
  intros -> ->. unfold go_slice, slice.
  rewrite !length_app.
  replace ((0 <=? Z.of_nat (length a))
           && (Z.of_nat (length a) <=? Z.of_nat (length a + length b))
           && (Z.of_nat (length a + length b)
               <=? Z.of_nat (length a + (length b + length c)))) with true.
  2:{ symmetry. rewrite !andb_true_iff, !Z.leb_le. lia. }
  rewrite !Nat2Z.id, drop_app_length.
  replace (length a + length b - length a)%nat with (length b) by lia.
  by rewrite take_app_length.
Qed.


(** ** [Unquote] always finishes *)

Lemma unquote_hex_shorter n multi s v mb rem :
  strconv.unquote_hex n multi s = Some (v, mb, rem) -> (length rem <= length s)%nat.
Proof.
  unfold strconv.unquote_hex. destruct (length s <? n)%nat; [discriminate|].
  destruct (strconv.hex_value (take n s)); [|discriminate].
  destruct multi; [destruct (utf8.ValidRune z)|]; intros [= <- <- <-] || discriminate;
    rewrite length_drop; lia.
Qed.

Lemma UnquoteChar_shorter s q v mb rem :
  strconv.UnquoteChar s q = Some (v, mb, rem) -> (length rem < length s)%nat.
Proof.
  unfold strconv.UnquoteChar. destruct s as [|c s1]; [discriminate|].
  destruct (Byte.eqb c q && (Byte.eqb q x27 || Byte.eqb q x22)); [discriminate|].
  destruct (utf8.RuneSelf <=? bz c).
  { pose proof (DecodeRune_is_decoded (c :: s1)) as Hd.
    apply decoded_width in Hd as [Hw _]; [|discriminate].
    destruct (utf8.DecodeRune (c :: s1)) as [r size]. cbn [snd] in Hw.
    intros [= <- <- <-]. rewrite length_drop. cbn [length]. lia. }
  destruct (negb (Byte.eqb c x5c)); [intros [= <- <- <-]; cbn [length]; lia|].
  destruct s1 as [|c1 s2]; [discriminate|]. cbn [length].
  repeat match goal with
         | |- (if ?b then _ else _) = _ -> _ => destruct b
         | |- Some _ = Some _ -> _ => intros [= <- <- <-]; rewrite ?length_drop; lia
         | |- None = Some _ -> _ => discriminate
         | |- strconv.unquote_hex _ _ _ = _ -> _ =>
             let E := fresh in intros E; apply unquote_hex_shorter in E; lia
         | |- match ?x with _ => _ end = _ -> _ => destruct x
         end.
Qed.

Lemma unquote_loop_finishes fuel : forall in_ buf,
  (length in_ <= fuel)%nat -> strconv.unquote_loop fuel in_ buf <> strconv.OutOfFuel.
Proof.
  induction fuel as [|fuel IH]; intros in_ buf Hlen.
  - destruct in_; [discriminate|simpl in Hlen; lia].
  - destruct in_ as [|c rest]; [discriminate|].
    cbn [strconv.unquote_loop]. destruct (Byte.eqb c x22).
    { destruct rest; discriminate. }
    destruct (strconv.UnquoteChar (c :: rest) x22) as [[[v mb] rem]|] eqn:E; [|discriminate].
    apply UnquoteChar_shorter in E. destruct (Byte.eqb c x0a); [discriminate|].
    apply IH. cbn [length] in *. lia.
Qed.

Lemma Unquote_double_finishes in_ : strconv.Unquote_double in_ <> strconv.OutOfFuel.
Proof.
  unfold strconv.Unquote_double. destruct (length in_ <? 2)%nat; [discriminate|].
  destruct (bytes.IndexByte (drop 1 in_) x22 <? 0); [discriminate|].
  match goal with |- (if ?c then _ else _) <> _ => destruct c end.
  - destruct (drop _ in_); discriminate.
  - apply unquote_loop_finishes. rewrite length_drop. lia.
Qed.

(** ** Tabs in a frame *)

(** The number of bytes of [s] equal to [c]. *)
Fixpoint count_byte (c : byte) (s : list byte) : nat :=
  match s with
  | [] => 0
  | x :: rest => (if Byte.eqb x c then 1 else 0) + count_byte c rest
  end.

(** The command token of a frame: the bytes before its first tab. *)
Definition command_token (s : list byte) : list byte :=
  take (Z.to_nat (bytes.IndexByte s x09)) s.

Lemma count_byte_app c a b : count_byte c (a ++ b) = (count_byte c a + count_byte c b)%nat.
Proof. induction a as [|x a IH]; cbn [app count_byte]; [reflexivity|]. rewrite IH. lia. Qed.

Lemma count_byte_here c rest : count_byte c (c :: rest) = S (count_byte c rest).
Proof.
  cbn [count_byte]. replace (Byte.eqb c c) with true by (symmetry; by apply byte_eqb_true).
  reflexivity.
Qed.

Lemma split_at_byte (c : byte) (l : list byte) :
  Forall (fun x => x <> c) l
  \/ exists a r, l = a ++ c :: r /\ Forall (fun x => x <> c) a.
Proof.
  induction l as [|x l IH]; [left; constructor|].
  destruct (Byte.eqb x c) eqn:E.
  - apply byte_eqb_true in E as ->. right. exists [], l. split; [reflexivity|constructor].
  - apply byte_eqb_false in E. destruct IH as [Hno|(a & r & -> & Ha)].
    + left. by constructor.
    + right. exists (x :: a), r. split; [reflexivity|by constructor].
Qed.

Lemma snoc_or_nil {A} (l : list A) : l = @nil A \/ exists (l' : list A) (x : A), l = l' ++ [x].
Proof. destruct l using rev_ind; [by left|right; eauto]. Qed.

Lemma go_index_last {A} (l : list A) x :
  go_index (l ++ [x]) (Z.of_nat (length (l ++ [x])) - 1) = Returns x.
Proof. apply go_index_mid. rewrite length_app. cbn [length]. lia. Qed.

Section Codec.

Context `{WhatPkg} `{JidPkg}.
Variable isPrintWide : Z -> bool.

Local Abbreviation wsParse := (wire.wsParse).
Local Abbreviation Append := (wire.Append isPrintWide).

(** What [wsParse] returns for a frame whose sanitised text has a command
    field, a jid field and a payload field. *)
Lemma wsParse_frame txt (A B Q : list byte) :
  bytes.ToValidUTF8 txt [] = A ++ x09 :: B ++ x09 :: Q ++ [x0a] ->
  Forall (fun b => b <> x09) A -> Forall (fun b => b <> x09) B ->
  wsParse txt
  = if What_IsValid (what_Parse A) then
      match Q with
      | x22 :: _ =>
          match strconv.Unquote_double Q with
          | strconv.Unquoted d =>
              Returns (wire.mkWsMsg d (JidParseString B) (what_Parse A), true)
          | strconv.ErrSyntax => Returns (wire.wsMsg_zero, false)
          | strconv.OutOfFuel => Unfinished
          end
      | _ => Returns (wire.mkWsMsg Q (JidParseString B) (what_Parse A), true)
      end
    else Returns (wire.wsMsg_zero, false).
Proof.
  intros Htxt HA HB. unfold wire.wsParse. rewrite Htxt.
  set (txt' := A ++ x09 :: B ++ x09 :: Q ++ [x0a]).
  assert (Hlen : Z.of_nat (length txt')
                 = Z.of_nat (length A) + Z.of_nat (length B) + Z.of_nat (length Q) + 3).
  { unfold txt'. rewrite length_app. cbn [length]. rewrite length_app. cbn [length].
    rewrite length_app. cbn [length]. lia. }
  replace (0 <? Z.of_nat (length txt')) with true by (symmetry; apply Z.ltb_lt; lia).
  (* the trailing newline *)
  assert (E1 : go_index txt' (Z.of_nat (length txt') - 1) = Returns x0a).
  { unfold txt'.
    replace (A ++ x09 :: B ++ x09 :: Q ++ [x0a]) with ((A ++ x09 :: B ++ x09 :: Q) ++ [x0a])
      by (rewrite <- !app_assoc; cbn [app]; rewrite <- !app_assoc; reflexivity).
    apply go_index_mid. rewrite !length_app. cbn [length]. rewrite !length_app.
    cbn [length]. lia. }
  rewrite E1. cbn [mbind GoResult_bind]. change (Byte.eqb x0a x0a) with true. cbv iota.
  (* the first tab *)
  assert (E2 : bytes.IndexByte txt' x09 = Z.of_nat (length A))
    by (apply IndexByte_first, HA).
  rewrite E2.
  replace (0 <=? Z.of_nat (length A)) with true by (symmetry; apply Z.leb_le; lia).
  assert (E3 : go_slice txt' (Z.of_nat (length A) + 1) (Z.of_nat (length txt'))
               = Returns (B ++ x09 :: Q ++ [x0a])).
  { unfold txt'.
    replace (A ++ x09 :: B ++ x09 :: Q ++ [x0a])
      with ((A ++ [x09]) ++ (B ++ x09 :: Q ++ [x0a]) ++ [])
      by (rewrite app_nil_r, <- !app_assoc; reflexivity).
    apply go_slice_mid; rewrite !length_app; cbn [length]; rewrite ?length_app;
      cbn [length]; rewrite ?length_app; cbn [length]; lia. }
  rewrite E3. cbn [mbind GoResult_bind].
  (* the second tab *)
  rewrite (IndexByte_first B x09 (Q ++ [x0a]) HB).
  replace (0 <=? Z.of_nat (length B)) with true by (symmetry; apply Z.leb_le; lia).
  assert (E4 : go_slice txt' 0 (Z.of_nat (length A)) = Returns A).
  { unfold txt'. apply (go_slice_mid [] A); cbn [length]; lia. }
  rewrite E4. cbn [mbind GoResult_bind].
  destruct (What_IsValid (what_Parse A)); [|reflexivity].
  assert (E5 : go_slice txt' (Z.of_nat (length B) + (Z.of_nat (length A) + 1) + 1)
                 (Z.of_nat (length txt') - 1) = Returns Q).
  { unfold txt'.
    replace (A ++ x09 :: B ++ x09 :: Q ++ [x0a])
      with ((A ++ x09 :: B ++ [x09]) ++ Q ++ [x0a])
      by (rewrite <- !app_assoc; cbn [app]; rewrite <- !app_assoc; reflexivity).
    apply go_slice_mid; rewrite !length_app; cbn [length]; rewrite ?length_app;
      cbn [length]; rewrite ?length_app; cbn [length]; lia. }
  rewrite E5. cbn [mbind GoResult_bind].
  assert (E6 : go_index txt' (Z.of_nat (length B) + (Z.of_nat (length A) + 1) + 1)
               = Returns (match Q with q :: _ => q | [] => x0a end)).
  { unfold txt'.
    replace (A ++ x09 :: B ++ x09 :: Q ++ [x0a])
      with ((A ++ x09 :: B ++ [x09]) ++ Q ++ [x0a])
      by (rewrite <- !app_assoc; cbn [app]; rewrite <- !app_assoc; reflexivity).
    destruct Q as [|q Q']; cbn [app]; apply go_index_mid;
      rewrite !length_app; cbn [length]; rewrite ?length_app; cbn [length]; lia. }
  rewrite E6. cbn [mbind GoResult_bind].
  assert (E7 : go_slice txt' (Z.of_nat (length A) + 1)
                 (Z.of_nat (length B) + (Z.of_nat (length A) + 1)) = Returns B).
  { unfold txt'.
    replace (A ++ x09 :: B ++ x09 :: Q ++ [x0a])
      with ((A ++ [x09]) ++ B ++ (x09 :: Q ++ [x0a]))
      by (rewrite <- !app_assoc; reflexivity).
    apply go_slice_mid; rewrite !length_app; cbn [length]; lia. }
  rewrite E7.
  destruct Q as [|q Q'].
  - reflexivity.
  - destruct (Byte.eqb q x22) eqn:Eq.
    + apply byte_eqb_true in Eq as ->.
      destruct (strconv.Unquote_double (x22 :: Q')); reflexivity.
    + apply byte_eqb_false in Eq. cbn [mbind GoResult_bind mret GoResult_ret].
      destruct q; try reflexivity. congruence.
Qed.

Lemma wsParse_empty txt :
  bytes.ToValidUTF8 txt [] = [] -> wsParse txt = Returns (wire.wsMsg_zero, false).
Proof. intros E. unfold wire.wsParse. rewrite E. reflexivity. Qed.

Lemma wsParse_no_newline txt l x :
  bytes.ToValidUTF8 txt [] = l ++ [x] -> x <> x0a ->
  wsParse txt = Returns (wire.wsMsg_zero, false).
Proof.
  intros E Hx. unfold wire.wsParse. rewrite E.
  replace (0 <? Z.of_nat (length (l ++ [x]))) with true
    by (symmetry; apply Z.ltb_lt; rewrite length_app; cbn [length]; lia).
  rewrite go_index_last. cbn [mbind GoResult_bind].
  replace (Byte.eqb x x0a) with false by (symmetry; by apply byte_eqb_false).
  reflexivity.
Qed.

Lemma wsParse_no_tab txt l :
  bytes.ToValidUTF8 txt [] = l ++ [x0a] -> Forall (fun b => b <> x09) l ->
  wsParse txt = Returns (wire.wsMsg_zero, false).
Proof.
  intros E Hl. unfold wire.wsParse. rewrite E.
  replace (0 <? Z.of_nat (length (l ++ [x0a]))) with true
    by (symmetry; apply Z.ltb_lt; rewrite length_app; cbn [length]; lia).
  rewrite go_index_last. cbn [mbind GoResult_bind]. change (Byte.eqb x0a x0a) with true.
  cbv iota. rewrite IndexByte_absent; [reflexivity|].
  apply Forall_app. split; [exact Hl|]. repeat constructor. discriminate.
Qed.

Lemma wsParse_one_tab txt A r1 :
  bytes.ToValidUTF8 txt [] = A ++ x09 :: r1 ++ [x0a] ->
  Forall (fun b => b <> x09) A -> Forall (fun b => b <> x09) r1 ->
  wsParse txt = Returns (wire.wsMsg_zero, false).
Proof.
  intros E HA Hr. unfold wire.wsParse. rewrite E.
  set (txt' := A ++ x09 :: r1 ++ [x0a]).
  assert (Hlen : Z.of_nat (length txt') = Z.of_nat (length A) + Z.of_nat (length r1) + 2).
  { unfold txt'. rewrite length_app. cbn [length]. rewrite length_app. cbn [length]. lia. }
  replace (0 <? Z.of_nat (length txt')) with true by (symmetry; apply Z.ltb_lt; lia).
  assert (E1 : go_index txt' (Z.of_nat (length txt') - 1) = Returns x0a).
  { unfold txt'.
    replace (A ++ x09 :: r1 ++ [x0a]) with ((A ++ x09 :: r1) ++ [x0a])
      by (rewrite <- !app_assoc; reflexivity).
    apply go_index_last. }
  rewrite E1. cbn [mbind GoResult_bind]. change (Byte.eqb x0a x0a) with true. cbv iota.
  assert (E2 : bytes.IndexByte txt' x09 = Z.of_nat (length A))
    by (apply IndexByte_first, HA).
  rewrite E2.
  replace (0 <=? Z.of_nat (length A)) with true by (symmetry; apply Z.leb_le; lia).
  assert (E3 : go_slice txt' (Z.of_nat (length A) + 1) (Z.of_nat (length txt'))
               = Returns (r1 ++ [x0a])).
  { unfold txt'.
    replace (A ++ x09 :: r1 ++ [x0a]) with ((A ++ [x09]) ++ (r1 ++ [x0a]) ++ [])
      by (rewrite app_nil_r, <- !app_assoc; reflexivity).
    apply go_slice_mid; rewrite !length_app; cbn [length]; rewrite ?length_app;
      cbn [length]; lia. }
  rewrite E3. cbn [mbind GoResult_bind].
  rewrite IndexByte_absent; [reflexivity|].
  apply Forall_app. split; [exact Hr|]. repeat constructor. discriminate.
Qed.

(** C5, amended. [wsParse] always returns, without a panic, and it returns
    the zero message and not-ok for every byte sequence which, once its
    invalid UTF-8 bytes are removed, lacks the trailing newline, or holds
    fewer than two tabs, or whose command token (the bytes before the first
    tab) is not a recognized command. *)
Theorem wsParse_rejects_malformed (txt : list byte) :
  (exists r, wsParse txt = Returns r)
  /\ (last (bytes.ToValidUTF8 txt []) <> Some x0a
      \/ (count_byte x09 (bytes.ToValidUTF8 txt []) < 2)%nat
      \/ What_IsValid (what_Parse (command_token (bytes.ToValidUTF8 txt []))) = false ->
      wsParse txt = Returns (wire.wsMsg_zero, false)).
Proof.
  destruct (snoc_or_nil (bytes.ToValidUTF8 txt [])) as [E|(l & x & E)].
  { rewrite (wsParse_empty _ E). eauto. }
  destruct (Byte.eqb x x0a) eqn:Ex.
  2:{ apply byte_eqb_false in Ex. rewrite (wsParse_no_newline _ _ _ E Ex). eauto. }
  apply byte_eqb_true in Ex as ->.
  destruct (split_at_byte x09 l) as [Hl|(A & r1 & -> & HA)].
  { rewrite (wsParse_no_tab _ _ E Hl). eauto. }
  destruct (split_at_byte x09 r1) as [Hr|(B & Q & -> & HB)].
  { rewrite <- app_assoc in E. cbn [app] in E. rewrite (wsParse_one_tab _ _ _ E HA Hr). eauto. }
  assert (E' : bytes.ToValidUTF8 txt [] = A ++ x09 :: B ++ x09 :: Q ++ [x0a]).
  { rewrite E, <- !app_assoc. cbn [app]. rewrite <- !app_assoc. reflexivity. }
  rewrite (wsParse_frame _ _ _ _ E' HA HB). split.
  - destruct (What_IsValid (what_Parse A)); [|eauto].
    destruct Q as [|q Q']; [eauto|].
    pose proof (Unquote_double_finishes (q :: Q')) as Hfin.
    destruct q; eauto. destruct (strconv.Unquote_double _); eauto. congruence.
  - intros [Hlast|[Hcount|Htoken]].
    + exfalso. apply Hlast. rewrite E. apply last_snoc.
    + exfalso. rewrite E' in Hcount.
      rewrite count_byte_app, count_byte_here, count_byte_app, count_byte_here in Hcount. lia.
    + unfold command_token in Htoken. rewrite E' in Htoken.
      rewrite (IndexByte_first A x09 _ HA), Nat2Z.id, take_app_length in Htoken.
      rewrite Htoken. reflexivity.
Qed.

(** A field of a frame: ASCII bytes, none of them a tab. *)
Definition plain_token (l : list byte) : Prop :=
  Forall (fun b => bz b < 0x80 /\ b <> x09) l.

Lemma plain_token_no_tab l : plain_token l -> Forall (fun b => b <> x09) l.
Proof. intros Hl. eapply Forall_impl; [exact Hl|]. by intros ? [? ?]. Qed.

Lemma plain_token_text l : plain_token l -> utf8_text l.
Proof. intros Hl. apply utf8_text_ascii. eapply Forall_impl; [exact Hl|]. by intros ? [? ?]. Qed.

(** What the codec needs from the two packages it calls: a valid command
    is printed as a plain token that parses back to it, and so is a positive
    jid; the empty jid field reads as jid zero. *)
Hypothesis what_Parse_String :
  forall w, What_IsValid w = true -> what_Parse (What_String w) = w.
Hypothesis What_String_plain :
  forall w, What_IsValid w = true -> plain_token (What_String w).
Hypothesis JidParseString_Append :
  forall j, 0 < j -> JidParseString (Jid_Append j) = j.
Hypothesis Jid_Append_plain :
  forall j, 0 < j -> plain_token (Jid_Append j).
Hypothesis JidParseString_empty : JidParseString [] = 0.

(** C1, amended. For every message whose command is valid and whose jid is
    not negative, decoding its encoding returns the message itself and ok:
    command, jid and payload are the same, also when the payload is empty and
    when the jid is zero and its field absent. *)
Theorem wsParse_Append_roundtrip (m : wire.wsMsg) :
  What_IsValid (wire.What_ m) = true ->
  0 <= wire.Jid m ->
  wsParse (Append m []) = Returns (m, true).
Proof.
  intros Hvalid Hjid. destruct m as [data j w]. cbn [wire.What_ wire.Jid] in *.
  set (J := if 0 <? j then Jid_Append j else []).
  set (Q := if (0 <? length data)%nat then strconv.AppendQuote isPrintWide data else []).
  assert (Hframe : Append (wire.mkWsMsg data j w) []
                   = What_String w ++ x09 :: J ++ x09 :: Q ++ [x0a]).
  { unfold wire.Append. cbn [wire.What_ wire.Jid wire.Data app].
    replace (0 <=? j) with true by (symmetry; apply Z.leb_le; lia).
    unfold J, Q. destruct (0 <? j); destruct (0 <? length data)%nat;
      rewrite <- ?app_assoc; cbn [app]; rewrite <- ?app_assoc; cbn [app];
      rewrite ?app_nil_r; reflexivity. }
  assert (HJ : plain_token J).
  { unfold J. destruct (Z.ltb_spec 0 j); [by apply Jid_Append_plain | constructor]. }
  assert (HJv : JidParseString J = j).
  { unfold J. destruct (Z.ltb_spec 0 j); [by apply JidParseString_Append|].
    rewrite JidParseString_empty. lia. }
  assert (HQ : utf8_text Q).
  { unfold Q. destruct (0 <? length data)%nat; [apply AppendQuote_text | constructor]. }
  pose proof (What_String_plain w Hvalid) as HS.
  rewrite (wsParse_frame _ (What_String w) J Q).
  - rewrite what_Parse_String, HJv, Hvalid by exact Hvalid.
    unfold Q. destruct data as [|d data'].
    + reflexivity.
    + cbn [length Nat.ltb Nat.leb]. unfold strconv.AppendQuote at 1. cbn [app].
      change (x22 :: strconv.appendQuoted_loop isPrintWide (length (d :: data')) (d :: data') x22
                ++ [x22])
        with (strconv.AppendQuote isPrintWide (d :: data')).
      rewrite Unquote_AppendQuote. reflexivity.
  - rewrite Hframe. apply ToValidUTF8_text_id.
    apply utf8_text_app; [by apply plain_token_text|].
    change (x09 :: J ++ x09 :: Q ++ [x0a]) with ([x09] ++ J ++ [x09] ++ Q ++ [x0a]).
    apply utf8_text_app; [apply utf8_text_ascii; repeat constructor|].
    apply utf8_text_app; [by apply plain_token_text|].
    apply utf8_text_app; [apply utf8_text_ascii; repeat constructor|].
    apply utf8_text_app; [exact HQ|].
    apply utf8_text_ascii; repeat constructor.
  - by apply plain_token_no_tab.
  - by apply plain_token_no_tab.
Qed.

End Codec.


(** * The packages read off the specification satisfy the codec's needs *)

Lemma SpecWhat_Parse_String (w : SpecWhat.What) :
  SpecWhat.IsValid w = true -> SpecWhat.Parse (SpecWhat.String w) = w.
Proof. destruct w; intros Hv; try discriminate Hv; reflexivity. Qed.

Lemma SpecWhat_String_plain (w : SpecWhat.What) :
  SpecWhat.IsValid w = true -> plain_token (SpecWhat.String w).
Proof.
  destruct w; intros Hv; try discriminate Hv;
    repeat constructor; discriminate.
Qed.

Lemma SpecJid_undigit_digit d : 0 <= d < 32 -> SpecJid.undigit (SpecJid.digit d) = Some d.
Proof.
  intros Hd. replace d with (Z.of_nat (Z.to_nat d)) by lia.
  assert (Hn : (Z.to_nat d < 32)%nat) by lia. revert Hn. generalize (Z.to_nat d). intros n Hn.
  do 32 (destruct n as [|n]; [reflexivity|]). lia.
Qed.

Lemma SpecJid_digit_plain d : bz (SpecJid.digit d) < 0x80 /\ SpecJid.digit d <> x09.
Proof.
  unfold SpecJid.digit. generalize (Z.to_nat d). intros n.
  do 32 (destruct n as [|n]; [split; [reflexivity|discriminate]|]).
  destruct n; split; (reflexivity || discriminate).
Qed.

Lemma SpecJid_format_value fuel : forall n acc,
  0 <= n <= Z.of_nat fuel ->
  foldl SpecJid.parse_step (Some 0) (SpecJid.format fuel n acc)
  = foldl SpecJid.parse_step (Some n) acc.
Proof.
  induction fuel as [|fuel IH]; intros n acc Hn.
  - replace n with 0 by lia. reflexivity.
  - cbn [SpecJid.format]. destruct (Z.ltb_spec n 32).
    + cbn [foldl SpecJid.parse_step]. rewrite SpecJid_undigit_digit by lia. reflexivity.
    + rewrite IH by (Z.div_mod_to_equations; lia).
      cbn [foldl SpecJid.parse_step].
      rewrite SpecJid_undigit_digit by (apply Z.mod_pos_bound; lia).
      do 2 f_equal. Z.div_mod_to_equations. lia.
Qed.

Lemma SpecJid_format_plain fuel : forall n acc,
  plain_token acc -> plain_token (SpecJid.format fuel n acc).
Proof.
  induction fuel as [|fuel IH]; intros n acc Hacc; [exact Hacc|].
  cbn [SpecJid.format]. destruct (n <? 32).
  - constructor; [apply SpecJid_digit_plain | exact Hacc].
  - apply IH. constructor; [apply SpecJid_digit_plain | exact Hacc].
Qed.

Lemma SpecJid_ParseString_Append j : 0 < j -> SpecJid.ParseString (SpecJid.Append j) = j.
Proof.
  intros Hj. unfold SpecJid.ParseString, SpecJid.Append.
  pose proof (SpecJid_format_value (Z.to_nat j) j [] ltac:(lia)) as Hv.
  cbn [foldl] in Hv.
  destruct (SpecJid.format (Z.to_nat j) j []) as [|d ds].
  - cbn [foldl] in Hv. injection Hv. lia.
  - rewrite Hv. reflexivity.
Qed.

Lemma SpecJid_Append_plain j : 0 < j -> plain_token (SpecJid.Append j).
Proof. intros _. apply SpecJid_format_plain. constructor. Qed.

(** A message with a payload, a jid and a command of the enumeration. *)
Definition sample_msg : wire.wsMsg :=
  wire.mkWsMsg (list_byte_of_string "bar") 33 SpecWhat.Input.

Lemma wsParse_Append_roundtrip_witness :
  wire.wsParse (wire.Append (fun _ => false) sample_msg []) = Returns (sample_msg, true).
Proof.
  apply (@wsParse_Append_roundtrip SpecWhat.pkg SpecJid.pkg (fun _ => false)
           SpecWhat_Parse_String SpecWhat_String_plain
           SpecJid_ParseString_Append SpecJid_Append_plain eq_refl sample_msg).
  - reflexivity.
  - cbn. lia.
Defined.

(** C1 as written fails for a valid message with a negative jid:
    [Append] then writes one tab only and [wsParse] rejects the frame. *)
Lemma wsParse_Append_negative_jid :
  What_IsValid (wire.What_ (wire.mkWsMsg [] (-1) SpecWhat.Input)) = true
  /\ wire.Append (fun _ => false) (wire.mkWsMsg [] (-1) SpecWhat.Input) []
     = list_byte_of_string "Input" ++ [x09; x0a]
  /\ wire.wsParse (wire.Append (fun _ => false) (wire.mkWsMsg [] (-1) SpecWhat.Input) [])
     = Returns (wire.wsMsg_zero, false)
  /\ wire.wsParse (wire.Append (fun _ => false) (wire.mkWsMsg [] (-1) SpecWhat.Input) [])
     <> Returns (wire.mkWsMsg [] (-1) SpecWhat.Input, true).
Proof. repeat split. discriminate. Qed.

(** C5 as written fails on raw bytes: a frame that ends in an
    invalid byte lacks the trailing newline, and a frame whose command field
    holds an invalid byte has no recognized command token, yet both decode,
    because the invalid bytes are removed first. *)
Lemma wsParse_accepts_unclean_frames :
  (last (list_byte_of_string "Input" ++ [x09; x09; x0a; xff]) <> Some x0a
   /\ wire.wsParse (list_byte_of_string "Input" ++ [x09; x09; x0a; xff])
      = Returns (wire.mkWsMsg [] 0 SpecWhat.Input, true))
  /\ (What_IsValid (what_Parse (command_token
        (list_byte_of_string "In" ++ [xff] ++ list_byte_of_string "put" ++ [x09; x09; x0a])))
      = false
      /\ wire.wsParse
           (list_byte_of_string "In" ++ [xff] ++ list_byte_of_string "put" ++ [x09; x09; x0a])
         = Returns (wire.mkWsMsg [] 0 SpecWhat.Input, true)).
Proof. repeat split. discriminate. Qed.

Lemma wsParse_rejects_malformed_witness :
  wire.wsParse (list_byte_of_string "Bogus" ++ [x09; x09; x0a])
  = Returns (wire.wsMsg_zero, false).
Proof.
  apply (proj2 (@wsParse_rejects_malformed SpecWhat.pkg SpecJid.pkg
                  (list_byte_of_string "Bogus" ++ [x09; x09; x0a]))).
  right. right. reflexivity.
Defined.


(** * The element registry over the life of a request (ui.go) *)

Section ElementsReachable.

Import Elements.

Variable UI : Type.
Variable Data : Type.
Context {Tag : Type} `{Countable Tag}.
Variable jidTag : Z -> Tag.
Variable self : ptr.

(** The stores a request goes through: it starts with no element and no
    tag, and changes by calls of [newElementLocked] only. *)
Inductive reachable : Store UI Data Tag -> Prop :=
| reach_fresh : reachable (mkStore [] ∅)
| reach_new st tags u d :
    reachable st -> reachable (snd (newElementLocked jidTag self st tags u d)).

(** How often [tag] occurs in [tags]. *)
Definition occurrences (tag : Tag) (tags : list Tag) : nat :=
  length (filter (fun t => t = tag) tags).

Local Abbreviation TagMap := (gmap Tag (list (Element UI Data))).

Lemma foldl_append_lists (tags : list Tag) (tm : TagMap) tag e :
  default [] (foldl (fun tm t => tagMap_append tm t e) tm tags !! tag)
  = default [] (tm !! tag) ++ replicate (occurrences tag tags) e.
Proof.
  revert tm. induction tags as [|t tags IH]; intros tm; simpl.
  - by rewrite app_nil_r.
  - rewrite IH. unfold tagMap_append, occurrences. rewrite filter_cons.
    destruct (decide (t = tag)) as [->|Hne].
    + rewrite lookup_insert_eq. simpl. by rewrite <- app_assoc.
    + by rewrite lookup_insert_ne.
Qed.

Lemma newElementLocked_elems (st : Store UI Data Tag) tags u d :
  elems (snd (newElementLocked jidTag self st tags u d))
  = if decide (0 < length tags)%nat
    then elems st ++ [mkElement (Z.of_nat (length (elems st)) + 1) u d self]
    else elems st.
Proof. unfold newElementLocked. by destruct (decide (0 < length tags)%nat). Qed.

Lemma newElementLocked_lists (st : Store UI Data Tag) tags u d tag :
  default [] (tagMap (snd (newElementLocked jidTag self st tags u d)) !! tag)
  = default [] (tagMap st !! tag)
    ++ if decide (0 < length tags)%nat
       then replicate
              (occurrences tag (jidTag (Z.of_nat (length (elems st)) + 1) :: tags))
              (mkElement (Z.of_nat (length (elems st)) + 1) u d self)
       else [].
Proof.
  unfold newElementLocked. destruct (decide (0 < length tags)%nat).
  - cbn [snd tagMap jid].
    exact (foldl_append_lists (jidTag (Z.of_nat (length (elems st)) + 1) :: tags)
             (tagMap st) tag _).
  - cbn [snd]. by rewrite app_nil_r.
Qed.

(** In a reachable store the element at position [i] has jid [i + 1]. *)
Lemma reachable_jids st :
  reachable st -> forall i e, elems st !! i = Some e -> jid e = Z.of_nat i + 1.
Proof.
  induction 1 as [|st tags u d _ IH]; intros i e Hi.
  - cbn [elems] in Hi. by rewrite lookup_nil in Hi.
  - rewrite newElementLocked_elems in Hi.
    destruct (decide (0 < length tags)%nat); [|by apply IH].
    apply lookup_app_Some in Hi as [Hi|[Hge Hi]]; [by apply IH|].
    apply list_lookup_singleton_Some in Hi as [Hz <-]. cbn [jid]. lia.
Qed.

(** In a reachable store every element a tag lists is a stored element. *)
Lemma reachable_tagged st :
  reachable st -> forall tag e, e ∈ default [] (tagMap st !! tag) -> e ∈ elems st.
Proof.
  induction 1 as [|st tags u d _ IH]; intros tag e Hin.
  - cbn [tagMap] in Hin. rewrite lookup_empty in Hin. by apply elem_of_nil in Hin.
  - rewrite newElementLocked_lists in Hin. rewrite newElementLocked_elems.
    destruct (decide (0 < length tags)%nat).
    + apply elem_of_app in Hin as [Hin|Hin].
      * apply elem_of_app. left. by eapply IH.
      * apply elem_of_replicate in Hin as [-> _].
        apply elem_of_app. right. apply list_elem_of_here.
    + rewrite app_nil_r in Hin. by eapply IH.
Qed.

Lemma GetElement_lookup (st : Store UI Data Tag) n :
  GetElement st n = if decide (0 < n) then elems st !! Z.to_nat (n - 1) else None.
Proof.
  unfold GetElement. destruct (decide (0 < n)); [|reflexivity].
  destruct (decide (n <= Z.of_nat (length (elems st)))); [reflexivity|].
  symmetry. apply lookup_ge_None. lia.
Qed.

Lemma Render_todo_app (st : Store UI Data Tag) tags1 tags2 :
  Render_todo st (tags1 ++ tags2) = Render_todo st tags1 ++ Render_todo st tags2.
Proof.
  unfold Render_todo. rewrite foldl_app.
  generalize (foldl (fun todo tag => todo ++ default [] (tagMap st !! tag)) [] tags1).
  induction tags2 as [|t tags2 IH] using rev_ind; intros acc.
  - by rewrite app_nil_r.
  - rewrite !foldl_app. cbn [foldl]. rewrite IH, app_assoc. reflexivity.
Qed.

Lemma Render_todo_cons (st : Store UI Data Tag) tag tags :
  Render_todo st (tag :: tags) = default [] (tagMap st !! tag) ++ Render_todo st tags.
Proof. exact (Render_todo_app st [tag] tags). Qed.

Lemma Render_todo_elem (st : Store UI Data Tag) tags e :
  e ∈ Render_todo st tags <-> exists tag, tag ∈ tags /\ e ∈ default [] (tagMap st !! tag).
Proof.
  induction tags as [|t tags IH].
  - split; [intros Hin; by apply elem_of_nil in Hin|].
    intros (tag & Hin & _). by apply elem_of_nil in Hin.
  - rewrite Render_todo_cons, elem_of_app, IH. split.
    + intros [Hin|(tag & Ht & Hin)].
      * exists t. split; [apply list_elem_of_here|exact Hin].
      * exists tag. split; [by apply list_elem_of_further|exact Hin].
    + intros (tag & Ht & Hin). apply elem_of_cons in Ht as [->|Ht]; [by left|].
      right. by exists tag.
Qed.


(** In a reachable store a jid resolves to a stored element with that
    jid, and every stored element is found under its jid. *)
Lemma GetElement_stored (st : Store UI Data Tag) :
  reachable st ->
  forall n e, GetElement st n = Some e <-> e ∈ elems st /\ jid e = n.
Proof.
  intros Hst n e. rewrite GetElement_lookup. split.
  - destruct (decide (0 < n)); [|discriminate]. intros Hi. split.
    + by eapply list_elem_of_lookup_2.
    + rewrite (reachable_jids st Hst _ _ Hi). lia.
  - intros [Hin <-]. apply list_elem_of_lookup_1 in Hin as [i Hi].
    rewrite (reachable_jids st Hst _ _ Hi).
    destruct (decide (0 < Z.of_nat i + 1)); [|lia].
    replace (Z.to_nat (Z.of_nat i + 1 - 1)) with i by lia. exact Hi.
Qed.

(** X1. In a store built by [newElementLocked] from the empty one,
    [GetElement] finds exactly the stored elements, each under its own jid:
    it returns [e] for [n] just when [e] is stored and has jid [n], so two
    stored elements never share a jid; and it returns nil just when [n] is
    not positive or exceeds the number of elements. *)
Theorem GetElement_exact (st : Store UI Data Tag) :
  reachable st ->
  (forall n e, GetElement st n = Some e <-> e ∈ elems st /\ jid e = n)
  /\ (forall e1 e2, e1 ∈ elems st -> e2 ∈ elems st -> jid e1 = jid e2 -> e1 = e2)
  /\ (forall n, GetElement st n = None <-> n <= 0 \/ Z.of_nat (length (elems st)) < n).
Proof.
  intros Hst. pose proof (GetElement_stored st Hst) as Hfind.
  split; [exact Hfind|]. split.
  - intros e1 e2 H1 H2 Heq.
    assert (G1 : GetElement st (jid e1) = Some e1) by (apply Hfind; auto).
    assert (G2 : GetElement st (jid e1) = Some e2) by (apply Hfind; auto).
    congruence.
  - intros n. rewrite GetElement_lookup.
    destruct (decide (0 < n)).
    + rewrite lookup_ge_None. lia.
    + split; [lia|reflexivity].
Qed.

(** X2. A call of [newElementLocked] with a non-empty tag list lengthens
    the list of every tag by one copy of the new element for each time the
    tag occurs among the element's jid and the tags supplied, after the
    entries the list had: other tags keep their lists, nothing is removed or
    reordered, and a tag supplied twice lists the element twice.  Every jid
    that resolved before the call resolves to the same element after it. *)
Theorem newElementLocked_tag_lists (st : Store UI Data Tag) (tags : list Tag) (u : UI) (d : Data) :
  (0 < length tags)%nat ->
  exists e st',
    newElementLocked jidTag self st tags u d = (Some e, st')
    /\ (forall tag,
          default [] (tagMap st' !! tag)
          = default [] (tagMap st !! tag)
            ++ replicate (occurrences tag (jidTag (jid e) :: tags)) e)
    /\ (forall n e0, GetElement st n = Some e0 -> GetElement st' n = Some e0).
Proof.
  intros Hlen.
  pose proof (newElementLocked_lists st tags u d) as Hlists.
  pose proof (newElementLocked_elems st tags u d) as Helems.
  unfold newElementLocked in *.
  destruct (decide (0 < length tags)%nat) as [_|]; [|contradiction].
  eexists _, _. split; [reflexivity|]. split.
  - intros tag. exact (Hlists tag).
  - intros n e0. rewrite !GetElement_lookup. cbn [snd] in Helems. rewrite Helems.
    destruct (decide (0 < n)); [|discriminate].
    intros Hi. by apply lookup_app_l_Some.
Qed.

(** X3. In a store built by [newElementLocked] from the empty one, every
    element the collecting loop of [Render] gathers is listed under one of
    the tags given and is a stored element, which [GetElement] returns for
    the element's jid. *)
Theorem Render_todo_stored (st : Store UI Data Tag) (tags : list Tag) (e : Element UI Data) :
  reachable st ->
  e ∈ Render_todo st tags ->
  (exists tag, tag ∈ tags /\ e ∈ default [] (tagMap st !! tag))
  /\ GetElement st (jid e) = Some e.
Proof.
  intros Hst Hin. apply Render_todo_elem in Hin as (tag & Ht & Hin).
  split; [by exists tag|].
  apply (GetElement_stored st Hst). split; [|reflexivity].
  by eapply reachable_tagged.
Qed.

End ElementsReachable.

(** A store with two elements, built from the empty one. *)
Definition sample_store : Elements.Store unit unit nat :=
  snd (Elements.newElementLocked (fun j => Z.to_nat j) 7%nat
         (snd (Elements.newElementLocked (fun j => Z.to_nat j) 7%nat
                 (Elements.mkStore [] ∅) [100%nat; 200%nat] tt tt))
         [200%nat; 200%nat] tt tt).

Lemma sample_store_reachable : reachable unit unit (fun j => Z.to_nat j) 7%nat sample_store.
Proof. unfold sample_store. do 2 apply reach_new. apply reach_fresh. Qed.

Lemma GetElement_exact_witness :
  Elements.GetElement sample_store 2 = Some (Elements.mkElement 2 tt tt 7%nat)
  /\ Elements.GetElement sample_store 3 = None.
Proof.
  destruct (GetElement_exact unit unit (fun j => Z.to_nat j) 7%nat sample_store
              sample_store_reachable) as (Hfind & _ & Hnone).
  split.
  - apply Hfind. split; [|reflexivity]. vm_compute.
    apply list_elem_of_further, list_elem_of_here.
  - apply Hnone. right. vm_compute. reflexivity.
Defined.

Lemma newElementLocked_tag_lists_witness :
  exists e st',
    Elements.newElementLocked (fun j => Z.to_nat j) 7%nat sample_store [200%nat; 200%nat] tt tt
    = (Some e, st')
    /\ length (default [] (Elements.tagMap st' !! 200%nat)) = 5%nat.
Proof.
  destruct (newElementLocked_tag_lists unit unit (fun j => Z.to_nat j) 7%nat
              sample_store [200%nat; 200%nat] tt tt)
    as (e & st' & Hnew & Hlists & _).
  - simpl. lia.
  - exists e, st'. split; [exact Hnew|]. rewrite Hlists.
    rewrite length_app, length_replicate.
    assert (He : Elements.jid e = 3).
    { apply (f_equal fst) in Hnew. vm_compute in Hnew. by injection Hnew as <-. }
    rewrite He. reflexivity.
Defined.

Lemma Render_todo_stored_witness :
  Elements.GetElement sample_store 1 = Some (Elements.mkElement 1 tt tt 7%nat).
Proof.
  apply (Render_todo_stored unit unit (fun j => Z.to_nat j) 7%nat sample_store
           [100%nat] (Elements.mkElement 1 tt tt 7%nat) sample_store_reachable).
  vm_compute. apply list_elem_of_here.
Defined.


(** * The handler registry: what registration keeps, what recycling clears *)

Section RegistryFrame.

Variable App : Type.
Variable MakeID : nat -> string.

Local Abbreviation EventFn := (Registry.EventFn App).
Local Abbreviation Elems := (gmap string (option EventFn)).

(** The reserved ids count as registered whatever the map holds. *)
Lemma GetEventFn_meta (elems : Elems) jid :
  jid ∈ [" alert"; " reload"; " redirect"; " ping"]%string ->
  snd (Registry.GetEventFn App elems jid) = true.
Proof.
  intros Hmeta. unfold Registry.GetEventFn.
  destruct (elems !! jid); [reflexivity|]. simpl.
  apply bool_decide_eq_true. unfold Registry.metaIds. set_unfold. tauto.
Qed.

Lemma GetEventFn_registered (elems : Elems) jid fn :
  elems !! jid = Some fn -> Registry.GetEventFn App elems jid = (fn, true).
Proof. intros E. unfold Registry.GetEventFn. by rewrite E. Qed.

(** X4. Whatever [RegisterEventFn] is called with, the id it returns is
    registered afterwards, it is the id asked for unless that was empty, and
    a handler that is not nil is the one bound to it, also when the id had
    a handler before; no other id changes its binding, and no id that was
    registered stops being so. *)
Theorem RegisterEventFn_keeps_others (fuel next : nat) (elems : Elems) (jid : string)
    (fn : option EventFn) (jid' : string) (elems' : Elems) (next' : nat) :
  Registry.RegisterEventFn App MakeID fuel next elems jid fn = Some (jid', elems', next') ->
  snd (Registry.GetEventFn App elems' jid') = true
  /\ (jid <> ""%string -> jid' = jid)
  /\ (forall h, fn = Some h -> Registry.GetEventFn App elems' jid' = (Some h, true))
  /\ (forall k, k <> jid' -> elems' !! k = elems !! k)
  /\ (forall k, is_Some (elems !! k) -> is_Some (elems' !! k)).
Proof.
  unfold Registry.RegisterEventFn. intros Hreg.
  assert (Hcases : (elems' = elems /\ is_Some (elems !! jid') /\ fn = None)
                   \/ elems' = <[jid' := fn]> elems).
  { destruct (decide (jid <> ""%string)).
    - destruct (elems !! jid) eqn:E; destruct fn; simplify_eq; eauto.
    - apply RegisterEventFn_gen_sound in Hreg as (_ & -> & _). by right. }
  split; [|split; [|split; [|split]]].
  - destruct Hcases as [(-> & [f Hf] & _)| ->].
    + by rewrite (GetEventFn_registered _ _ _ Hf).
    + by rewrite (GetEventFn_registered _ _ fn) by apply lookup_insert_eq.
  - intros Hne. destruct (decide (jid <> ""%string)); [|contradiction].
    destruct (elems !! jid); destruct fn; by simplify_eq.
  - intros h ->. destruct Hcases as [(_ & _ & ?)| ->]; [discriminate|].
    apply GetEventFn_registered, lookup_insert_eq.
  - intros k Hk. destruct Hcases as [(-> & _)| ->]; [reflexivity|].
    by apply lookup_insert_ne.
  - intros k Hk. destruct Hcases as [(-> & _)| ->]; [exact Hk|].
    destruct (decide (k = jid')) as [->|Hne].
    + rewrite lookup_insert_eq. eauto.
    + by rewrite lookup_insert_ne.
Qed.

Lemma recycle_elems_lookup (order : list string) (elems : Elems) k :
  Api.recycle_elems App order elems !! k = if decide (k ∈ order) then None else elems !! k.
Proof.
  unfold Api.recycle_elems. revert elems.
  induction order as [|x order IH]; intros elems; cbn [foldl].
  - destruct (decide (k ∈ [])) as [Hin|]; [by apply elem_of_nil in Hin|reflexivity].
  - rewrite IH. destruct (decide (k ∈ order)) as [Hin|Hout].
    + rewrite decide_True; [reflexivity|by apply list_elem_of_further].
    + destruct (decide (k = x)) as [->|Hne].
      * rewrite decide_True by apply list_elem_of_here. apply lookup_delete_eq.
      * rewrite decide_False; [by apply lookup_delete_ne|].
        intros Hin. apply elem_of_cons in Hin as [?|?]; contradiction.
Qed.

(** X5. However the clearing loop of [recycle] orders the keys, once it has
    visited every key of the handler map the map is empty: no id registered
    before is registered after, [GetEventFn] returning the nil handler for
    every id and ok for the reserved ids only. *)
Theorem recycle_forgets_handlers (order : list string) (elems : Elems) :
  (forall k, is_Some (elems !! k) -> k ∈ order) ->
  Api.recycle_elems App order elems = ∅
  /\ forall jid, Registry.GetEventFn App (Api.recycle_elems App order elems) jid
                 = (None, bool_decide (jid ∈ [" alert"; " reload"; " redirect"; " ping"]%string)).
Proof.
  intros Hall.
  assert (Hempty : Api.recycle_elems App order elems = ∅).
  { apply map_eq. intros k. rewrite recycle_elems_lookup, lookup_empty.
    destruct (decide (k ∈ order)) as [|Hout]; [reflexivity|].
    destruct (elems !! k) eqn:E; [|reflexivity].
    exfalso. apply Hout, Hall. eauto. }
  split; [exact Hempty|].
  intros jid. rewrite Hempty. unfold Registry.GetEventFn. rewrite lookup_empty.
  f_equal. apply bool_decide_ext. unfold Registry.metaIds. set_unfold. tauto.
Qed.

End RegistryFrame.

Lemma RegisterEventFn_keeps_others_witness :
  Registry.GetEventFn nat
    (<["btn"%string := Some (Api.event_wf nat "click" (fun _ n => (S n, None)))]> sample_elems)
    "btn"
  = (Some (Api.event_wf nat "click" (fun _ n => (S n, None))), true).
Proof.
  apply (RegisterEventFn_keeps_others nat MakeID_counter 1 0 sample_elems "btn"
           (Some (Api.event_wf nat "click" (fun _ n => (S n, None))))
           "btn" _ 0%nat); reflexivity.
Defined.

Lemma recycle_forgets_handlers_witness :
  Registry.GetEventFn nat (Api.recycle_elems nat ["x"; "btn"]%string sample_elems) "btn"
  = (None, false).
Proof.
  apply (recycle_forgets_handlers nat ["x"; "btn"]%string sample_elems).
  intros k [f Hk]. unfold sample_elems in Hk.
  apply lookup_singleton_Some in Hk as [<- _].
  apply list_elem_of_further, list_elem_of_here.
Defined.


(** * The event loop: what goes where *)

Section LoopRouting.

Import Loop.

Variable App : Type.

Local Abbreviation EventFn := (Registry.EventFn App).
Local Abbreviation Elems := (gmap string (option EventFn)).

(** The state after the message [m] went onto the outbound channel. *)
Definition forwarded (st : State App) (m : Message) : State App :=
  mkState (eventCallCh st) (send (outboundMsgCh st) (Some m)) (logged st) (app st).

(** The state after [line] was logged. *)
Definition with_log (st : State App) (line : LogLine) : State App :=
  mkState (eventCallCh st) (outboundMsgCh st) (logged st ++ [line]) (app st).

(** A pass that leaves the outbound channel and the application state as
    they were in [st], and does not panic. *)
Definition keeps_outbound (st : State App) (o : Outcome App) : Prop :=
  match o with
  | Continue st' | Return st' =>
      outboundMsgCh st' = outboundMsgCh st /\ app st' = app st
  | Panic => False
  end.

(** A queued call the dispatcher can make. *)
Definition runnable (c : eventFnCall App) : Prop := is_Some (fn c) /\ is_Some (msg c).

Definition calls_runnable (o : Outcome App) : Prop :=
  match o with
  | Continue st' | Return st' => Forall runnable (queue (eventCallCh st'))
  | Panic => True
  end.

Lemma offer_outbound_idle self (st : State App) m :
  offer_outbound App self false false st m
  = if can_send (outboundMsgCh st) then [Continue (forwarded st m)]
    else [Return (with_log st (OutboundMsgChFull self m))].
Proof. unfold offer_outbound. by destruct (can_send (outboundMsgCh st)). Qed.

(** Every way the offering [select] can end: the message is dropped because
    a done channel is closed, or it is sent, which needs room, or the loop
    returns with the log line, which needs that nothing else was ready. *)
Lemma offer_outbound_cases self jawsDone ctxDone (st : State App) m o :
  o ∈ offer_outbound App self jawsDone ctxDone st m ->
  (o = Continue st /\ (jawsDone = true \/ ctxDone = true))
  \/ (o = Continue (forwarded st m) /\ can_send (outboundMsgCh st) = true)
  \/ (o = Return (with_log st (OutboundMsgChFull self m))
      /\ jawsDone = false /\ ctxDone = false /\ can_send (outboundMsgCh st) = false).
Proof.
  unfold offer_outbound.
  destruct jawsDone, ctxDone, (can_send (outboundMsgCh st)); cbn [app];
    intros Hin; set_unfold; intuition (subst; auto).
Qed.

(** X6. An event that came in from the browser, and a trigger message
    whatever channel it came by, never reaches the browser and never runs a
    handler inside the loop: every way the pass can end leaves the outbound
    channel and the application state as they were, and none is a panic. *)
Theorem events_never_outbound (self : ptr) (elems : Elems) (jawsDone ctxDone : bool)
    (st : State App) (sel : Selected) :
  is_incoming sel = true
  \/ (exists m, received sel = Some m /\ What m = "trigger"%string) ->
  Forall (keeps_outbound st) (process_step App self elems jawsDone ctxDone st sel).
Proof.
  intros Hkind. unfold process_step.
  destruct (received sel) as [m|] eqn:Hrecv; [|by repeat constructor].
  destruct (decide (from m = Some self)); [by repeat constructor|].
  destruct (Registry.GetEventFn App elems (Elem m)) as [f [|]]; [|by repeat constructor].
  assert (Hq : is_incoming sel || bool_decide (What m = "trigger"%string) = true).
  { destruct Hkind as [->|(m' & Hm' & Hw)]; [reflexivity|].
    try rewrite Hrecv in Hm'. injection Hm' as <-.
    rewrite (bool_decide_eq_true_2 _ Hw). apply orb_true_r. }
  rewrite Hq. destruct f; [|by repeat constructor].
  destruct (can_send (eventCallCh st)); by repeat constructor.
Qed.

Lemma offer_outbound_calls self jawsDone ctxDone (st st0 : State App) m :
  eventCallCh st0 = eventCallCh st ->
  Forall runnable (queue (eventCallCh st)) ->
  Forall calls_runnable (offer_outbound App self jawsDone ctxDone st0 m).
Proof.
  intros Heq Hst. apply Forall_forall. intros o Hin.
  apply offer_outbound_cases in Hin as [[-> _]|[[-> _]|[-> _]]];
    cbn [calls_runnable forwarded with_log eventCallCh]; by rewrite Heq.
Qed.

(** X7. The loop queues only calls the dispatcher can make: if every call
    waiting in the handler-call queue has a handler and a message, so has
    every call waiting after a pass, however it ends; the queue [process]
    starts with is empty; and for a call with a handler and a message the
    dispatcher's iteration completes, without the panic of a nil handler or
    a nil message, and does not touch the queue. *)
Theorem queued_calls_runnable (self : ptr) (elems : Elems) (jawsDone ctxDone : bool)
    (st : State App) (sel : Selected) :
  Forall runnable (queue (eventCallCh st)) ->
  Forall calls_runnable (process_step App self elems jawsDone ctxDone st sel)
  /\ (forall c st0, runnable c ->
        exists st1, eventCaller_step App self st0 c = Some st1
                    /\ eventCallCh st1 = eventCallCh st0)
  /\ (forall outbound a, queue (eventCallCh (process_init App outbound a)) = []).
Proof.
  intros Hst. split; [|split].
  - unfold process_step.
    destruct (received sel) as [m|]; [|by repeat constructor].
    destruct (decide (from m = Some self)); [by repeat constructor|].
    destruct (Registry.GetEventFn App elems (Elem m)) as [f [|]]; [|by repeat constructor].
    destruct (is_incoming sel || bool_decide (What m = "trigger"%string)).
    + destruct f as [h|]; [|by repeat constructor].
      destruct (can_send (eventCallCh st)); repeat constructor; cbn; [|exact Hst].
      apply Forall_app. split; [exact Hst|].
      repeat constructor; cbn; eauto.
    + destruct (bool_decide (What m = "hook"%string)).
      * destruct f as [h|]; [|by repeat constructor].
        destruct (h self (Elem m) (What m) (Data m) (app st)) as [app' err].
        destruct (makeAlertDangerMessage err).
        -- by apply (offer_outbound_calls _ _ _ st).
        -- by repeat constructor.
      * by apply (offer_outbound_calls _ _ _ st).
  - intros c st0 [[h Hh] [m Hm]]. unfold eventCaller_step. rewrite Hh, Hm.
    destruct (h self (Elem m) (What m) (Data m) (app st0)) as [app' [text|]]; [|eauto].
    destruct (can_send (outboundMsgCh st0)); eauto.
  - reflexivity.
Qed.

(** The pass for a message that is to go out. *)
Lemma process_step_update (self : ptr) (elems : Elems) (jawsDone ctxDone : bool)
    (st : State App) (sel : Selected) (m : Message) :
  received sel = Some m ->
  from m <> Some self ->
  snd (Registry.GetEventFn App elems (Elem m)) = true ->
  is_incoming sel = false ->
  What m <> "trigger"%string ->
  What m <> "hook"%string ->
  process_step App self elems jawsDone ctxDone st sel
  = offer_outbound App self jawsDone ctxDone st m.
Proof.
  intros Hrecv Hfrom Hreg Hinc Htrig Hhook. unfold process_step. rewrite Hrecv.
  destruct (decide (from m = Some self)); [contradiction|].
  destruct (Registry.GetEventFn App elems (Elem m)) as [f ok]. cbn [snd] in Hreg. subst ok.
  rewrite Hinc, (bool_decide_eq_false_2 _ Htrig), (bool_decide_eq_false_2 _ Hhook).
  reflexivity.
Qed.

(** X8. A message for a registered id that is neither the loop's own
    broadcast, nor an event from the browser, nor a trigger, nor a hook, is
    offered to the outbound channel as it is.  While no done channel is
    closed it is sent when the channel can take it, and otherwise the loop
    logs the overload and returns with the channel as it was.  When a done
    channel is closed the pass can drop the message without a log line, and
    no way the pass can end is a return. *)
Theorem update_forwarded_or_overload (self : ptr) (elems : Elems) (jawsDone ctxDone : bool)
    (st : State App) (sel : Selected) (m : Message) :
  received sel = Some m ->
  from m <> Some self ->
  snd (Registry.GetEventFn App elems (Elem m)) = true ->
  is_incoming sel = false ->
  What m <> "trigger"%string ->
  What m <> "hook"%string ->
  let outcomes := process_step App self elems jawsDone ctxDone st sel in
  (jawsDone = false -> ctxDone = false ->
     outcomes = if can_send (outboundMsgCh st) then [Continue (forwarded st m)]
                else [Return (with_log st (OutboundMsgChFull self m))])
  /\ (jawsDone = true \/ ctxDone = true ->
      Continue st ∈ outcomes
      /\ forall o, o ∈ outcomes -> o = Continue st \/ o = Continue (forwarded st m))
  /\ (forall o, o ∈ outcomes ->
        o = Continue (forwarded st m) -> can_send (outboundMsgCh st) = true).
Proof.
  intros Hrecv Hfrom Hreg Hinc Htrig Hhook outcomes.
  assert (Hout : outcomes = offer_outbound App self jawsDone ctxDone st m)
    by (by apply process_step_update).
  rewrite Hout. split; [|split].
  - intros -> ->. apply offer_outbound_idle.
  - intros Hdone. split.
    + unfold offer_outbound.
      destruct jawsDone, ctxDone, (can_send (outboundMsgCh st)); cbn [app];
        destruct Hdone; try discriminate; set_unfold; tauto.
    + intros o Hin. apply offer_outbound_cases in Hin as [[-> _]|[[-> _]|(_ & -> & -> & _)]];
        [by left | by right | destruct Hdone; discriminate].
  - intros o Hin ->.
    apply offer_outbound_cases in Hin as [[Heq _]|[[_ Hcan]|[Heq _]]];
      [|exact Hcan|discriminate].
    injection Heq as Heq. apply (f_equal (fun s => length (queue (outboundMsgCh s)))) in Heq.
    cbn in Heq. rewrite length_app in Heq. cbn in Heq. lia.
Qed.


(** X9. A hook message runs the handler of its target inside the loop,
    with the command text hook, and is itself never forwarded: every way the
    pass can end has the application state the handler left and the
    handler-call queue as it was, and the outbound channel either as it was
    or with the alert for the handler's error added; with a nil result the
    pass just continues.  For a target that is registered without a handler
    the pass is the panic of calling a nil function. *)
Theorem hook_runs_in_loop (self : ptr) (elems : Elems) (jawsDone ctxDone : bool)
    (st : State App) (sel : Selected) (m : Message) :
  received sel = Some m ->
  from m <> Some self ->
  is_incoming sel = false ->
  What m = "hook"%string ->
  let outcomes := process_step App self elems jawsDone ctxDone st sel in
  (Registry.GetEventFn App elems (Elem m) = (None, true) -> outcomes = [Panic])
  /\ (forall h, Registry.GetEventFn App elems (Elem m) = (Some h, true) ->
        let '(app', err) := h self (Elem m) "hook"%string (Data m) (app st) in
        (err = None ->
           outcomes = [Continue (mkState (eventCallCh st) (outboundMsgCh st) (logged st) app')])
        /\ forall o, o ∈ outcomes ->
             exists st', (o = Continue st' \/ o = Return st')
               /\ app st' = app'
               /\ eventCallCh st' = eventCallCh st
               /\ (outboundMsgCh st' = outboundMsgCh st
                   \/ exists text, err = Some text
                        /\ outboundMsgCh st'
                           = send (outboundMsgCh st)
                               (Some (mkMessage " alert" "danger" (EscapeString text) None)))).
Proof.
  intros Hrecv Hfrom Hinc Hhook outcomes.
  assert (Hout : forall f, Registry.GetEventFn App elems (Elem m) = (f, true) ->
            outcomes
            = match f with
              | None => [Panic]
              | Some h =>
                  let '(app', err) := h self (Elem m) (What m) (Data m) (app st) in
                  let st' := mkState (eventCallCh st) (outboundMsgCh st) (logged st) app' in
                  match makeAlertDangerMessage err with
                  | Some alert => offer_outbound App self jawsDone ctxDone st' alert
                  | None => [Continue st']
                  end
              end).
  { intros f Hf. unfold outcomes, process_step. rewrite Hrecv.
    destruct (decide (from m = Some self)); [contradiction|].
    rewrite Hf, Hinc, Hhook. reflexivity. }
  split.
  - intros Hf. by rewrite (Hout _ Hf).
  - intros h Hf. rewrite (Hout _ Hf), Hhook.
    destruct (h self (Elem m) "hook"%string (Data m) (app st)) as [app' [text|]].
    + split; [discriminate|]. cbn [makeAlertDangerMessage].
      intros o Hin. apply offer_outbound_cases in Hin as [[-> _]|[[-> _]|[-> _]]];
        eexists; (split; [eauto|]); cbn; eauto 10.
    + split; [reflexivity|]. cbn [makeAlertDangerMessage].
      intros o Hin. apply list_elem_of_singleton in Hin as ->.
      eexists. split; [eauto|]. cbn. eauto.
Qed.

(** X10. [Alert] and [Redirect] need no registration.  On a request
    that is dead [Send] panics.  Otherwise it either gives up because a done
    channel is closed, returning false with nothing handed over, or hands
    the message to the receiving loop and returns true; and the loop offers
    that message to the outbound channel whatever the handler map holds,
    provided the alert level or the url is not the text trigger or hook:
    with no done channel closed it is sent when the channel can take it, and
    otherwise the loop logs the overload and returns. *)
Theorem meta_senders_reach_outbound (self : ptr) (elems : Elems) (st : State App)
    (alive jawsDone ctxDone receiving : bool)
    (run : option (list (bool * option Message))) (m : Message) (lvl text url : string) :
  (m = mkMessage " alert" lvl text None
   /\ run = Api.Alert (Api.Send alive jawsDone ctxDone receiving) lvl text)
  \/ (m = mkMessage " redirect" url "" None
      /\ run = Api.Redirect (Api.Send alive jawsDone ctxDone receiving) url) ->
  What m <> "trigger"%string ->
  What m <> "hook"%string ->
  (alive = false -> run = None)
  /\ (alive = true ->
      exists sent, run = Some sent
        /\ (forall r, r ∈ sent ->
              r = (false, None) \/ (r = (true, Some m) /\ receiving = true))
        /\ (receiving = true -> (true, Some m) ∈ sent))
  /\ process_step App self elems false false st (FromSendCh (Some m))
     = if can_send (outboundMsgCh st) then [Continue (forwarded st m)]
       else [Return (with_log st (OutboundMsgChFull self m))].
Proof.
  intros Hkind Htrig Hhook.
  assert (Hrun : run = Api.Send alive jawsDone ctxDone receiving m
                 /\ (Elem m = " alert"%string \/ Elem m = " redirect"%string)
                 /\ from m = None).
  { destruct Hkind as [[-> ->]|[-> ->]]; cbn; auto. }
  destruct Hrun as (-> & Helem & Hfrom).
  split; [|split].
  - intros ->. reflexivity.
  - intros ->. eexists. split; [reflexivity|]. split.
    + intros r Hin.
      destruct jawsDone, ctxDone, receiving; cbn [app] in Hin; set_unfold; intuition auto.
    + intros ->. destruct jawsDone, ctxDone; cbn [app]; set_unfold; tauto.
  - rewrite (process_step_update self elems false false st (FromSendCh (Some m)) m),
      offer_outbound_idle; try assumption; try reflexivity.
    + rewrite Hfrom. discriminate.
    + apply GetEventFn_meta. destruct Helem as [-> | ->]; set_unfold; tauto.
Qed.

(** X11. An id registered with the nil handler, by [SetEventFn] or by
    [Register] of an id not yet registered, is a target of updates but not
    of events: an event from the browser or a trigger for it is dropped with
    nothing queued, sent or logged, while any other message for it that is
    not a hook is offered to the outbound channel. *)
Theorem nil_handler_drops_events (MakeID : nat -> string) (self : ptr) (elems : Elems)
    (jid : string) (jawsDone ctxDone : bool) (st : State App) (sel : Selected) (m : Message) :
  received sel = Some m ->
  Elem m = jid ->
  from m <> Some self ->
  let elems' := Registry.SetEventFn App elems jid None in
  (is_incoming sel = true \/ What m = "trigger"%string ->
     process_step App self elems' jawsDone ctxDone st sel = [Continue st])
  /\ (is_incoming sel = false -> What m <> "trigger"%string -> What m <> "hook"%string ->
      process_step App self elems' jawsDone ctxDone st sel
      = offer_outbound App self jawsDone ctxDone st m)
  /\ (forall fuel next, jid <> ""%string -> elems !! jid = None ->
        Registry.Register App MakeID fuel next elems jid = Some (jid, elems', next)).
Proof.
  intros Hrecv Helem Hfrom elems'.
  assert (Hget : Registry.GetEventFn App elems' (Elem m) = (None, true)).
  { rewrite Helem. apply GetEventFn_registered. apply lookup_insert_eq. }
  split; [|split].
  - intros Hkind. unfold process_step. rewrite Hrecv.
    destruct (decide (from m = Some self)); [contradiction|].
    rewrite Hget.
    replace (is_incoming sel || bool_decide (What m = "trigger"%string)) with true;
      [reflexivity|].
    symmetry. destruct Hkind as [->|Hw]; [reflexivity|].
    rewrite (bool_decide_eq_true_2 _ Hw). apply orb_true_r.
  - intros Hinc Htrig Hhook. apply process_step_update; try assumption.
    by rewrite Hget.
  - intros fuel next Hne Hnew. unfold Registry.Register, Registry.RegisterEventFn.
    destruct (decide (jid <> ""%string)); [|contradiction].
    by rewrite Hnew.
Qed.

(** X12. [Trigger] reaches the handlers that [OnTrigger] registered on
    other connections.  The message it broadcasts is dropped by the sender's
    own loop; the loop of another connection, where [OnTrigger] bound a
    callback to the id, queues a call for it when the handler-call queue has
    room, sending nothing to the browser; and the dispatcher's iteration for
    that call runs the callback once on the application state, offering an
    alert to the outbound channel when the callback fails. *)
Theorem Trigger_runs_OnTrigger_handler (MakeID : nat -> string) (fuel next : nat)
    (elems : Elems) (jid val : string) (callback : Api.ClickFn App) (sender other : ptr)
    (jawsDone ctxDone : bool) (st : State App) :
  jid <> ""%string ->
  sender <> other ->
  can_send (eventCallCh st) = true ->
  exists elems' stamped call,
    Api.OnTrigger App MakeID fuel next elems jid (Some callback) = Some (elems', next, None)
    /\ (forall (Hub : Type) (publish : Message -> Hub -> Hub) (hub : Hub),
          Api.Trigger publish sender jid val hub = publish stamped hub)
    /\ (forall elems0 st0 sel, received sel = Some stamped ->
          process_step App sender elems0 jawsDone ctxDone st0 sel = [Continue st0])
    /\ process_step App other elems' jawsDone ctxDone st (FromBroadcastCh (Some stamped))
       = [Continue (mkState (send (eventCallCh st) call) (outboundMsgCh st)
                      (logged st) (app st))]
    /\ (forall st1,
          eventCaller_step App other st1 call
          = let '(app', err) := callback other (app st1) in
            Some match err with
                 | Some text =>
                     if can_send (outboundMsgCh st1)
                     then mkState (eventCallCh st1)
                            (send (outboundMsgCh st1)
                               (Some (mkMessage " alert" "danger" (EscapeString text) None)))
                            (logged st1) app'
                     else mkState (eventCallCh st1) (outboundMsgCh st1)
                            (logged st1 ++ [OutboundFullSendingEventError text]) app'
                 | None => mkState (eventCallCh st1) (outboundMsgCh st1) (logged st1) app'
                 end).
Proof.
  intros Hne Hother Hroom.
  exists (<[jid := Some (Api.event_wf App "trigger" callback)]> elems),
         (mkMessage jid "trigger" val (Some sender)),
         (mkCall (Some (Api.event_wf App "trigger" callback))
            (Some (mkMessage jid "trigger" val (Some sender)))).
  split; [|split; [|split; [|split]]].
  - unfold Api.OnTrigger, Api.maybeEvent, Registry.RegisterEventFn.
    destruct (decide (jid <> ""%string)); [|contradiction].
    cbn [fmap option_fmap option_map]. by destruct (elems !! jid).
  - reflexivity.
  - intros elems0 st0 sel Hrecv. unfold process_step. rewrite Hrecv. cbn [from].
    destruct (decide (Some sender = Some sender)); [reflexivity|contradiction].
  - unfold process_step. cbn [received from Elem What].
    destruct (decide (Some sender = Some other)) as [Heq|_]; [by simplify_eq|].
    rewrite (GetEventFn_registered _ _ _ _ (lookup_insert_eq _ _ _)).
    cbn [is_incoming orb]. rewrite bool_decide_eq_true_2 by reflexivity.
    by rewrite Hroom.
  - intros st1. unfold eventCaller_step, Api.event_wf. cbn [fn msg Elem What Data].
    rewrite bool_decide_eq_true_2 by reflexivity.
    destruct (callback other (app st1)) as [app' [text|]]; [|reflexivity].
    cbn [makeAlertDangerMessage]. by destruct (can_send (outboundMsgCh st1)).
Qed.

End LoopRouting.


Lemma events_never_outbound_witness :
  Forall (keeps_outbound nat (sample_state 1 1))
    (Loop.process_step nat 1%nat sample_elems false false (sample_state 1 1)
       (Loop.FromBroadcastCh (Some (Loop.mkMessage "btn" "trigger" "x" (Some 2%nat))))).
Proof.
  apply events_never_outbound. right.
  exists (Loop.mkMessage "btn" "trigger" "x" (Some 2%nat)). split; reflexivity.
Defined.

Lemma queued_calls_runnable_witness :
  Forall (calls_runnable nat)
    (Loop.process_step nat 1%nat sample_elems false false (sample_state 1 1)
       (Loop.FromIncomingCh (Some (Loop.mkMessage "btn" "input" "x" None)))).
Proof.
  apply (queued_calls_runnable nat 1%nat sample_elems false false (sample_state 1 1)).
  cbn. constructor.
Defined.

Lemma update_forwarded_or_overload_witness :
  Loop.Continue (sample_state 1 0)
  ∈ Loop.process_step nat 1%nat sample_elems true false (sample_state 1 0)
      (Loop.FromBroadcastCh (Some (Loop.mkMessage "btn" "inner" "x" (Some 2%nat)))).
Proof.
  apply (update_forwarded_or_overload nat 1%nat sample_elems true false (sample_state 1 0)
           (Loop.FromBroadcastCh (Some (Loop.mkMessage "btn" "inner" "x" (Some 2%nat))))
           (Loop.mkMessage "btn" "inner" "x" (Some 2%nat)));
    first [reflexivity | discriminate | by left].
Defined.

Lemma hook_runs_in_loop_witness :
  Loop.process_step nat 1%nat {[ "x"%string := None ]} false false (sample_state 1 1)
    (Loop.FromSendCh (Some (Loop.mkMessage "x" "hook" "" None)))
  = [Loop.Panic].
Proof.
  apply (hook_runs_in_loop nat 1%nat {[ "x"%string := None ]} false false (sample_state 1 1)
           (Loop.FromSendCh (Some (Loop.mkMessage "x" "hook" "" None)))
           (Loop.mkMessage "x" "hook" "" None));
    first [reflexivity | discriminate].
Defined.

Lemma meta_senders_reach_outbound_witness :
  Loop.process_step nat 1%nat sample_elems false false (sample_state 1 1)
    (Loop.FromSendCh (Some (Loop.mkMessage " alert" "info" "saved" None)))
  = [Loop.Continue (forwarded nat (sample_state 1 1)
                      (Loop.mkMessage " alert" "info" "saved" None))].
Proof.
  apply (meta_senders_reach_outbound nat 1%nat sample_elems (sample_state 1 1)
           true false false true
           (Api.Alert (Api.Send true false false true) "info" "saved")
           (Loop.mkMessage " alert" "info" "saved" None) "info" "saved" "");
    first [by left | discriminate].
Defined.

Lemma nil_handler_drops_events_witness :
  Loop.process_step nat 1%nat (Registry.SetEventFn nat sample_elems "btn" None)
    false false (sample_state 1 1)
    (Loop.FromIncomingCh (Some (Loop.mkMessage "btn" "click" "" None)))
  = [Loop.Continue (sample_state 1 1)].
Proof.
  apply (nil_handler_drops_events nat MakeID_counter 1%nat sample_elems "btn" false false
           (sample_state 1 1)
           (Loop.FromIncomingCh (Some (Loop.mkMessage "btn" "click" "" None)))
           (Loop.mkMessage "btn" "click" "" None));
    first [reflexivity | discriminate | by left].
Defined.

Lemma Trigger_runs_OnTrigger_handler_witness :
  exists elems' stamped call,
    Api.OnTrigger nat MakeID_counter 1 0 sample_elems "row" (Some (fun _ n => (S n, None)))
    = Some (elems', 0%nat, None)
    /\ Loop.process_step nat 2%nat elems' false false (sample_state 1 1)
         (Loop.FromBroadcastCh (Some stamped))
       = [Loop.Continue (Loop.mkState (Loop.send (Loop.make_chan 1) call)
                           (Loop.make_chan 1) [] 0%nat)]
    /\ Loop.eventCaller_step nat 2%nat (sample_state 1 1) call
       = Some (Loop.mkState (Loop.make_chan 1) (Loop.make_chan 1) [] 1%nat).
Proof.
  destruct (Trigger_runs_OnTrigger_handler nat MakeID_counter 1 0 sample_elems "row" "go"
              (fun _ n => (S n, None)) 1%nat 2%nat false false (sample_state 1 1))
    as (elems' & stamped & call & Hreg & _ & _ & Hloop & Hcall);
    [discriminate | lia | reflexivity |].
  exists elems', stamped, call. split; [exact Hreg|]. split; [exact Hloop|].
  exact (Hcall (sample_state 1 1)).
Defined.


(** * Handler wrappers and typed inputs *)

Section Wrappers.

Import Loop.

Variable App : Type.
Variable float64 : Type.
Variable float64_zero : float64.
Variable ParseFloat : string -> float64 * error.
Variable Time : Type.
Variable Time_zero : Time.
Variable time_Parse : string -> string -> Time * error.
Variable Quote : string -> string.

Local Abbreviation inputFloat_wf := (Input.inputFloat_wf App float64 float64_zero ParseFloat).
Local Abbreviation inputBool_wf := (Input.inputBool_wf App Quote).
Local Abbreviation inputDate_wf := (Input.inputDate_wf App Time Time_zero time_Parse).
Local Abbreviation inputText_wf := (Input.inputText_wf App).
Local Abbreviation ParseBool := (Input.ParseBool Quote).

(** The state the dispatcher leaves when the handler did not touch the
    application state and failed with [text]. *)
Definition reported (st : State App) (text : string) : State App :=
  if can_send (outboundMsgCh st)
  then mkState (eventCallCh st)
         (send (outboundMsgCh st)
            (Some (mkMessage " alert" "danger" (EscapeString text) None)))
         (logged st) (app st)
  else mkState (eventCallCh st) (outboundMsgCh st)
         (logged st ++ [OutboundFullSendingEventError text]) (app st).

Lemma eventCaller_step_failed self (st : State App) (h : Registry.EventFn App) m text :
  h self (Elem m) (What m) (Data m) (app st) = (app st, Some text) ->
  eventCaller_step App self st (mkCall (Some h) (Some m)) = Some (reported st text).
Proof.
  intros Hh. unfold eventCaller_step, reported. cbn [fn msg]. rewrite Hh.
  cbn [makeAlertDangerMessage]. by destruct (can_send (outboundMsgCh st)).
Qed.

Lemma eventCaller_step_idle self (st : State App) (h : Registry.EventFn App) m :
  h self (Elem m) (What m) (Data m) (app st) = (app st, None) ->
  eventCaller_step App self st (mkCall (Some h) (Some m)) = Some st.
Proof.
  intros Hh. unfold eventCaller_step. cbn [fn msg]. rewrite Hh. by destruct st.
Qed.

(** X13. A value that does not parse is never applied.  When the
    dispatcher runs the handler built by [maybeInputFloat], [maybeInputBool]
    or [maybeInputDate] for an input event whose payload is not empty and is
    refused by the parser, the user's callback is not run: the application
    state stays as it was, and the parser's error goes out as the alert, or
    is logged when the outbound channel is full.  [ParseBool] refuses
    everything but its twelve literals. *)
Theorem typed_input_bad_payload_reported (self : ptr) (st : State App) (m : Message)
    (ffn : Input.InputFloatFn App float64) (bfn : Input.InputBoolFn App)
    (dfn : Input.InputDateFn App Time) :
  What m = "input"%string ->
  Data m <> ""%string ->
  (forall v text, ParseFloat (Data m) = (v, Some text) ->
     eventCaller_step App self st (mkCall (Some (inputFloat_wf ffn)) (Some m))
     = Some (reported st text))
  /\ (forall v text, ParseBool (Data m) = (v, Some text) ->
        eventCaller_step App self st (mkCall (Some (inputBool_wf bfn)) (Some m))
        = Some (reported st text))
  /\ (forall v text, time_Parse "2006-01-02" (Data m) = (v, Some text) ->
        eventCaller_step App self st (mkCall (Some (inputDate_wf dfn)) (Some m))
        = Some (reported st text))
  /\ (Data m ∉ ["1"; "t"; "T"; "TRUE"; "true"; "True";
                "0"; "f"; "F"; "FALSE"; "false"; "False"]%string ->
      ParseBool (Data m)
      = (false, Some ("strconv.ParseBool: parsing " +:+ Quote (Data m)
                      +:+ ": invalid syntax")%string)).
Proof.
  intros Hwhat Hdata. split; [|split; [|split]].
  - intros v text Hparse. apply eventCaller_step_failed.
    unfold Input.inputFloat_wf. rewrite Hwhat.
    rewrite bool_decide_eq_true_2 by reflexivity.
    rewrite (bool_decide_eq_true_2 _ Hdata). by rewrite Hparse.
  - intros v text Hparse. apply eventCaller_step_failed.
    unfold Input.inputBool_wf. rewrite Hwhat.
    rewrite bool_decide_eq_true_2 by reflexivity.
    rewrite (bool_decide_eq_true_2 _ Hdata). by rewrite Hparse.
  - intros v text Hparse. apply eventCaller_step_failed.
    unfold Input.inputDate_wf, Input.ISO8601. rewrite Hwhat.
    rewrite bool_decide_eq_true_2 by reflexivity.
    rewrite (bool_decide_eq_true_2 _ Hdata). by rewrite Hparse.
  - intros Hlit. unfold Input.ParseBool.
    rewrite !bool_decide_eq_false_2; [reflexivity| |];
      intros Hin; apply Hlit; set_unfold; tauto.
Qed.

(** X14. The wrapped handlers act on their own event only.  Dispatched for
    a message with any other command, the handler that [maybeEvent] builds
    for an event, and those of [maybeInputText], [maybeInputFloat],
    [maybeInputBool] and [maybeInputDate], leave the connection's state as
    it was: no callback runs and nothing is sent or logged.  On its own
    event the handler of [maybeEvent] runs the callback, and that of
    [maybeInputText] passes it the payload as it is, also when empty. *)
Theorem wrapped_handlers_ignore_other_events (self : ptr) (st : State App) (m : Message)
    (event : string) (cfn : Api.ClickFn App) (tfn : Input.InputTextFn App)
    (ffn : Input.InputFloatFn App float64) (bfn : Input.InputBoolFn App)
    (dfn : Input.InputDateFn App Time) :
  (What m <> event ->
     eventCaller_step App self st (mkCall (Some (Api.event_wf App event cfn)) (Some m))
     = Some st)
  /\ (What m <> "input"%string ->
      Forall (fun h => eventCaller_step App self st (mkCall (Some h) (Some m)) = Some st)
        [inputText_wf tfn; inputFloat_wf ffn; inputBool_wf bfn; inputDate_wf dfn])
  /\ (What m = event ->
      Api.event_wf App event cfn self (Elem m) (What m) (Data m) (app st) = cfn self (app st))
  /\ (What m = "input"%string ->
      inputText_wf tfn self (Elem m) (What m) (Data m) (app st) = tfn self (Data m) (app st)).
Proof.
  split; [|split; [|split]].
  - intros Hne. apply eventCaller_step_idle. unfold Api.event_wf.
    by rewrite (bool_decide_eq_false_2 _ Hne).
  - intros Hne. repeat constructor; apply eventCaller_step_idle;
      unfold Input.inputText_wf, Input.inputFloat_wf, Input.inputBool_wf, Input.inputDate_wf;
      by rewrite (bool_decide_eq_false_2 _ Hne).
  - intros He. unfold Api.event_wf. by rewrite (bool_decide_eq_true_2 _ He).
  - intros He. unfold Input.inputText_wf. by rewrite (bool_decide_eq_true_2 _ He).
Qed.

End Wrappers.

Section UiInputBoolProofs.

Variable App : Type.
Variable What : Type.
Context `{EqDecision What}.
Variable what_Input : What.
Variable Quote : string -> string.

Local Abbreviation JawsEvent := (Api.JawsEvent App What what_Input Quote).
Local Abbreviation UiInputBool := (Api.UiInputBool App What).

Local Ltac literal_cases :=
  repeat split; auto; try contradiction; eauto;
  try (exfalso;
       repeat match goal with H : context [_ ∈ _] |- _ => progress set_unfold in H end;
       intuition (subst; first [contradiction | discriminate])).

(** X15. [UiInputBool.JawsEvent] without a legacy handler changes nothing
    but the stored value, and that on input events only: one of the six
    true literals stores true, one of the six false literals or the empty
    payload stores false, and any other payload is refused with an error
    and leaves the stored value as it was, as does any event that is not an
    input.  With a legacy handler set, the result is the handler's and the
    stored value is not touched. *)
Theorem UiInputBool_JawsEvent_value (ui : UiInputBool) (rq : ptr) (wht : What)
    (jid val : string) (a : App) :
  (Api.EventFn_ App What ui = None ->
   let '(ui', a', err) := JawsEvent ui rq wht jid val a in
   a' = a
   /\ Api.EventFn_ App What ui' = None
   /\ (wht <> what_Input -> ui' = ui /\ err = None)
   /\ (wht = what_Input ->
       (val ∈ ["1"; "t"; "T"; "TRUE"; "true"; "True"]%string ->
          Api.Value App What ui' = true /\ err = None)
       /\ (val ∈ [""; "0"; "f"; "F"; "FALSE"; "false"; "False"]%string ->
           Api.Value App What ui' = false /\ err = None)
       /\ (val ∉ [""; "1"; "t"; "T"; "TRUE"; "true"; "True";
                  "0"; "f"; "F"; "FALSE"; "false"; "False"]%string ->
           ui' = ui /\ is_Some err)))
  /\ (forall f, Api.EventFn_ App What ui = Some f ->
        JawsEvent ui rq wht jid val a
        = let '(a', err) := f rq wht jid val a in (ui, a', err)).
Proof.
  split.
  - intros Hnil. unfold Api.JawsEvent. rewrite Hnil.
    destruct (decide (wht = what_Input)) as [Hw|Hw].
    2:{ repeat split; auto; contradiction. }
    destruct (decide (val = ""%string)) as [->|Hval].
    { rewrite bool_decide_eq_false_2 by (intros Hc; by apply Hc).
      cbn [Api.EventFn_ Api.Value]. literal_cases. }
    rewrite (bool_decide_eq_true_2 _ Hval). unfold Input.ParseBool.
    destruct (decide (val ∈ ["1"; "t"; "T"; "TRUE"; "true"; "True"]%string)) as [Ht|Ht].
    { rewrite (bool_decide_eq_true_2 _ Ht). cbn [Api.EventFn_ Api.Value]. literal_cases. }
    rewrite (bool_decide_eq_false_2 _ Ht).
    destruct (decide (val ∈ ["0"; "f"; "F"; "FALSE"; "false"; "False"]%string)) as [Hf|Hf].
    { rewrite (bool_decide_eq_true_2 _ Hf). cbn [Api.EventFn_ Api.Value]. literal_cases. }
    rewrite (bool_decide_eq_false_2 _ Hf). literal_cases.
  - intros f Hf. unfold Api.JawsEvent. by rewrite Hf.
Qed.

End UiInputBoolProofs.


Lemma typed_input_bad_payload_reported_witness :
  Loop.eventCaller_step nat 1%nat (sample_state 1 1)
    (Loop.mkCall (Some (Input.inputBool_wf nat (fun s => s) (fun _ b n => (S n, None))))
       (Some (Loop.mkMessage "box" "input" "maybe" None)))
  = Some (reported nat (sample_state 1 1) "strconv.ParseBool: parsing maybe: invalid syntax").
Proof.
  destruct (typed_input_bad_payload_reported nat Z 0 (fun _ => (0, None)) Z 0
              (fun _ _ => (0, None)) (fun s => s) 1%nat (sample_state 1 1)
              (Loop.mkMessage "box" "input" "maybe" None)
              (fun _ _ n => (n, None)) (fun _ b n => (S n, None)) (fun _ _ n => (n, None)))
    as (_ & Hbool & _); [reflexivity | discriminate |].
  apply (Hbool false). reflexivity.
Defined.

(** * [radioGroup] *)

Lemma IndexByte_lower s c : -1 <= Api.IndexByte s c.
Proof.
  induction s as [|x rest IH]; cbn [Api.IndexByte]; [lia|].
  destruct (Ascii.eqb x c); [lia|]. destruct (Z.ltb_spec (Api.IndexByte rest c) 0); lia.
Qed.

Lemma radioGroup_cons x rest :
  Api.radioGroup (String x rest)
  = if Ascii.eqb x "/" then Some rest else Api.radioGroup rest.
Proof.
  unfold Api.radioGroup. cbn [Api.IndexByte].
  pose proof (IndexByte_lower rest "/") as Hlow.
  destruct (Ascii.eqb x "/"); [reflexivity|].
  destruct (Z.ltb_spec (Api.IndexByte rest "/") 0) as [Hneg|Hpos].
  - replace (Api.IndexByte rest "/") with (-1) by lia. reflexivity.
  - destruct (decide (Api.IndexByte rest "/" + 1 <> -1)); [|lia].
    destruct (decide (Api.IndexByte rest "/" <> -1)); [|lia].
    replace (Z.to_nat (Api.IndexByte rest "/" + 1 + 1))
      with (S (Z.to_nat (Api.IndexByte rest "/" + 1))) by lia.
    reflexivity.
Qed.

(** X16. [radioGroup] returns what follows the first slash of the jid:
    it returns [g] just when the jid is some slash-free text, a slash, and
    [g]; and it panics just when the jid holds no slash. *)
Theorem radioGroup_splits (jid : string) :
  (forall g, Api.radioGroup jid = Some g
             <-> exists b, jid = (b +:+ String "/" g)%string
                           /\ Forall (fun c => c <> "/"%char) (list_ascii_of_string b))
  /\ (Api.radioGroup jid = None
      <-> Forall (fun c => c <> "/"%char) (list_ascii_of_string jid)).
Proof.
  induction jid as [|x rest [IHsome IHnone]].
  - split.
    + intros g. split; [discriminate|]. intros ([|? ?] & Hb & _); discriminate.
    + split; [constructor|reflexivity].
  - rewrite radioGroup_cons. destruct (Ascii.eqb_spec x "/") as [->|Hne]; split.
    + intros g. split.
      * intros [= ->]. exists ""%string. split; [reflexivity|constructor].
      * intros (b & Hb & Hfree). destruct b as [|y b]; cbn in Hb.
        -- by injection Hb as ->.
        -- injection Hb as <- _. cbn in Hfree. by inversion Hfree.
    + split; [discriminate|]. cbn. intros Hfree. by inversion Hfree.
    + intros g. rewrite IHsome. split.
      * intros (b & -> & Hfree). exists (String x b). split; [reflexivity|].
        cbn. by constructor.
      * intros (b & Hb & Hfree). destruct b as [|y b]; cbn in Hb.
        -- injection Hb as -> _. contradiction.
        -- injection Hb as <- ->. exists b. split; [reflexivity|].
           cbn in Hfree. by inversion Hfree.
    + rewrite IHnone. cbn. split.
      * intros Hfree. by constructor.
      * intros Hfree. by inversion Hfree.
Qed.

(** * The alert for a handler's error *)

(** The characters [html.EscapeString] replaces, the ampersand apart. *)
Definition markup : list ascii := ["<"; ">"; "'"; Loop.dquote]%char.

(** Text in which no markup character occurs and every ampersand starts
    one of the five entities. *)
Fixpoint escaped (s : string) : bool :=
  match s with
  | EmptyString => true
  | String c rest =>
      (if Ascii.eqb c "&"
       then existsb (fun e => String.prefix e rest) ["amp;"; "#39;"; "lt;"; "gt;"; "#34;"]%string
       else negb (existsb (Ascii.eqb c) markup))
      && escaped rest
  end.

Lemma append_cons c (a b : string) : (String c a +:+ b = String c (a +:+ b))%string.
Proof. reflexivity. Qed.

Lemma append_empty (b : string) : ("" +:+ b = b)%string.
Proof. reflexivity. Qed.

Lemma escaped_entity (e body : string) :
  e ∈ ["amp;"; "#39;"; "lt;"; "gt;"; "#34;"]%string ->
  escaped body = true -> escaped (String "&" e +:+ body) = true.
Proof.
  intros He Hbody. set_unfold.
  destruct He as [->|[->|[->|[->|[->|[]]]]]];
    rewrite !append_cons, append_empty; simpl; rewrite Hbody; by destruct body.
Qed.

Lemma EscapeString_escaped s : escaped (Loop.EscapeString s) = true.
Proof.
  induction s as [|c rest IH]; [reflexivity|].
  cbn [Loop.EscapeString].
  destruct (Ascii.eqb_spec c "&") as [->|Ha];
    [apply (escaped_entity "amp;" _ ltac:(set_unfold; tauto) IH)|].
  destruct (Ascii.eqb_spec c "'") as [->|Hq];
    [apply (escaped_entity "#39;" _ ltac:(set_unfold; tauto) IH)|].
  destruct (Ascii.eqb_spec c "<") as [->|Hl];
    [apply (escaped_entity "lt;" _ ltac:(set_unfold; tauto) IH)|].
  destruct (Ascii.eqb_spec c ">") as [->|Hg];
    [apply (escaped_entity "gt;" _ ltac:(set_unfold; tauto) IH)|].
  destruct (Ascii.eqb_spec c Loop.dquote) as [->|Hd];
    [apply (escaped_entity "#34;" _ ltac:(set_unfold; tauto) IH)|].
  rewrite append_cons, append_empty. cbn [escaped]. rewrite IH, andb_true_r.
  apply Ascii.eqb_neq in Ha, Hq, Hl, Hg, Hd.
  rewrite Ha. unfold markup. cbn [existsb]. by rewrite Hq, Hl, Hg, Hd.
Qed.

Lemma EscapeString_plain s :
  Forall (fun c => c ∉ ("&"%char :: markup)) (list_ascii_of_string s) ->
  Loop.EscapeString s = s.
Proof.
  induction s as [|c rest IH]; [reflexivity|].
  cbn [list_ascii_of_string Loop.EscapeString]. intros Hs.
  apply Forall_cons in Hs as [Hc Hrest]. rewrite (IH Hrest).
  unfold markup in Hc.
  repeat match goal with
         | |- context [Ascii.eqb c ?x] =>
             destruct (Ascii.eqb_spec c x) as [->|?];
             [exfalso; apply Hc; set_unfold; tauto|]
         end.
  reflexivity.
Qed.

(** X17. The alert built for a handler's error targets the reserved id
    of alerts at level danger, and its text is safe to insert as HTML: no
    angle bracket and no quote character occurs in it, and every ampersand
    in it starts one of the five entities written by the escaping.  Text
    that holds none of the five special characters is passed as it is, and
    the nil error gives no message. *)
Theorem alert_payload_has_no_markup (text : string) :
  exists m,
    Loop.makeAlertDangerMessage (Some text) = Some m
    /\ Loop.Elem m = " alert"%string
    /\ Loop.What m = "danger"%string
    /\ Loop.from m = None
    /\ escaped (Loop.Data m) = true
    /\ (Forall (fun c => c ∉ ("&"%char :: markup)) (list_ascii_of_string text) ->
        Loop.Data m = text)
    /\ Loop.makeAlertDangerMessage None = None.
Proof.
  eexists. split; [reflexivity|]. cbn [Loop.Elem Loop.What Loop.from Loop.Data].
  repeat split.
  - apply EscapeString_escaped.
  - apply EscapeString_plain.
Qed.


(** * More on the wire codec *)

(** ** The output of [bytes.ToValidUTF8] is well-formed *)

Lemma ToValidUTF8_loop_text fuel : forall s inv,
  utf8_text (bytes.ToValidUTF8_loop fuel s [] inv).
Proof.
  induction fuel as [|fuel IH]; intros s inv; [constructor|].
  destruct s as [|c rest]; [constructor|].
  cbn [bytes.ToValidUTF8_loop]. unfold utf8.RuneSelf.
  destruct (Z.ltb_spec (bz c) 128) as [Hlow|Hhigh].
  - change (c :: bytes.ToValidUTF8_loop fuel rest [] false)
      with ([c] ++ bytes.ToValidUTF8_loop fuel rest [] false).
    apply text_app; [|apply IH]. apply chunk_ascii. by repeat constructor.
  - pose proof (DecodeRune_is_decoded (c :: rest)) as Hd.
    remember (snd (utf8.DecodeRune (c :: rest))) as w eqn:Ew.
    remember (fst (utf8.DecodeRune (c :: rest))) as r eqn:Er. clear Ew Er.
    inversion Hd; subst; cbn [Nat.eqb]; try lia.
    + destruct inv; cbn [app]; apply IH.
    + cbn [take firstn]. apply (text_app [c; p1]); [by apply chunk_2|apply IH].
    + cbn [take firstn]. apply (text_app [c; p1; p2]); [by apply chunk_3|apply IH].
    + cbn [take firstn]. apply (text_app [c; p1; p2; p3]); [by apply chunk_4|apply IH].
Qed.

Lemma ToValidUTF8_valid s : utf8_text (bytes.ToValidUTF8 s []).
Proof. apply ToValidUTF8_loop_text. Qed.


(** ** Quoted text holds no control byte *)

(** A byte that is not a C0 control character. *)
Definition visible (b : byte) : Prop := 0x20 <= bz b.

Lemma lowerhex_visible d : 0 <= d < 16 -> visible (strconv.lowerhex d).
Proof.
  intros Hd. unfold strconv.lowerhex, visible.
  assert (Hn : (Z.to_nat d < 16)%nat) by lia. revert Hn. generalize (Z.to_nat d). intros n Hn.
  do 16 (destruct n as [|n]; [vm_compute; discriminate|]). lia.
Qed.

Lemma hexdigits_visible n r : Forall visible (strconv.hexdigits n r).
Proof.
  induction n as [|n IH]; cbn [strconv.hexdigits]; constructor; [|exact IH].
  apply lowerhex_visible.
  rewrite (land_mask_low _ _ 4) by (lia || reflexivity).
  change (2 ^ 4) with 16. apply Z.mod_pos_bound. lia.
Qed.

Lemma high_visible l : Forall (fun b => 0x80 <= bz b) l -> Forall visible l.
Proof. intros Hl. eapply Forall_impl; [exact Hl|]. unfold visible. intros b Hb. lia. Qed.

Section QuoteVisible.

Variable isPrintWide : Z -> bool.

Local Abbreviation quote_chunk := (quote_chunk isPrintWide).

Lemma quote_chunk_visible_ascii s0 : bz s0 < 0x80 -> Forall visible (quote_chunk s0 (bz s0) 1).
Proof.
  intros Hs0.
  destruct s0; try (exfalso; vm_compute in Hs0; discriminate); clear Hs0;
    match goal with
    | |- Forall _ ?c => let v := eval vm_compute in c in change c with v
    end;
    repeat constructor; vm_compute; discriminate.
Qed.

Lemma quote_chunk_visible_invalid s0 : Forall visible (quote_chunk s0 utf8.RuneError 1).
Proof.
  unfold quote_chunk. cbn [Nat.eqb andb]. rewrite Z.eqb_refl.
  change [x5c; x78; strconv.lowerhex (Z.shiftr (bz s0) 4); strconv.lowerhex (Z.land (bz s0) 0xF)]
    with ([x5c; x78] ++ [strconv.lowerhex (Z.shiftr (bz s0) 4);
                         strconv.lowerhex (Z.land (bz s0) 0xF)]).
  rewrite hex_of_byte. apply Forall_app. split; [|apply hexdigits_visible].
  repeat constructor; vm_compute; discriminate.
Qed.

Lemma quote_chunk_visible_multibyte chunk0 r w :
  (2 <= w)%nat -> utf8.AppendRune r = chunk0 ->
  0x80 <= r -> utf8.ValidRune r = true ->
  Forall (fun b => 0x80 <= bz b) chunk0 ->
  Forall visible (quote_chunk (default x00 (head chunk0)) r w).
Proof.
  intros Hw Henc Hr Hvalid Hhigh. unfold quote_chunk.
  replace (w =? 1)%nat with false by (symmetry; apply Nat.eqb_neq; lia). cbn [andb].
  rewrite appendEscapedRune_high by (lia || assumption).
  destruct (strconv.IsPrint isPrintWide r).
  - rewrite Henc. by apply high_visible.
  - destruct (r <? 0x10000); apply Forall_app; (split; [|apply hexdigits_visible]);
      repeat constructor; vm_compute; discriminate.
Qed.

Lemma quote_chunk_visible s0 rest :
  Forall visible
    (quote_chunk s0 (fst (quote_rune (s0 :: rest))) (snd (quote_rune (s0 :: rest)))).
Proof.
  unfold quote_rune, utf8.RuneSelf.
  destruct (Z.leb_spec 128 (bz s0)) as [Hhigh|Hlow];
    [|apply quote_chunk_visible_ascii; lia].
  destruct (utf8.DecodeRune (s0 :: rest)) as [r w] eqn:E. cbn [fst snd].
  apply DecodeRune_decoded in E. inversion E; subst.
  - lia.
  - apply quote_chunk_visible_invalid.
  - match goal with S : seq2 _ _ |- _ =>
      pose proof (rune2_range _ _ S) as Hr; pose proof (AppendRune_2 _ _ S) as Henc;
      pose proof S as [S0 S1]; unfold cont in S1
    end.
    apply (quote_chunk_visible_multibyte [s0; p1]); try assumption; try lia.
    + apply ValidRune_range; lia.
    + repeat constructor; lia.
  - match goal with S : seq3 _ _ _ |- _ =>
      pose proof (rune3_range _ _ _ S) as [Hr Hsur]; pose proof (AppendRune_3 _ _ _ S) as Henc;
      pose proof S as (S0 & S1 & _ & _ & S2); unfold cont in S1, S2
    end.
    apply (quote_chunk_visible_multibyte [s0; p1; p2]); try assumption; try lia.
    + apply ValidRune_range; lia.
    + repeat constructor; lia.
  - match goal with S : seq4 _ _ _ _ |- _ =>
      pose proof (rune4_range _ _ _ _ S) as Hr; pose proof (AppendRune_4 _ _ _ _ S) as Henc;
      pose proof S as (S0 & S1 & _ & _ & S2 & S3); unfold cont in S1, S2, S3
    end.
    apply (quote_chunk_visible_multibyte [s0; p1; p2; p3]); try assumption; try lia.
    + apply ValidRune_range; lia.
    + repeat constructor; lia.
Qed.

Lemma appendQuoted_loop_visible fuel : forall s,
  Forall visible (strconv.appendQuoted_loop isPrintWide fuel s x22).
Proof.
  induction fuel as [|fuel IH]; intros s; [constructor|].
  destruct s as [|s0 rest]; [constructor|].
  rewrite appendQuoted_loop_step. apply Forall_app. split; [|apply IH].
  apply quote_chunk_visible.
Qed.

Lemma AppendQuote_visible s : Forall visible (strconv.AppendQuote isPrintWide s).
Proof.
  unfold strconv.AppendQuote. apply Forall_app. split; [repeat constructor; vm_compute; discriminate|].
  apply Forall_app. split; [apply appendQuoted_loop_visible|].
  repeat constructor; vm_compute; discriminate.
Qed.

End QuoteVisible.


Section CodecMore.

Context `{WhatPkg} `{JidPkg}.
Variable isPrintWide : Z -> bool.

Local Abbreviation wsParse := (wire.wsParse).
Local Abbreviation Append := (wire.Append isPrintWide).
Local Abbreviation Format := (wire.Format isPrintWide).

(** The two ways [wsParse] ends: the zero message and not-ok, or a message
    with a valid command and ok. *)
Lemma wsParse_cases (txt : list byte) :
  wsParse txt = Returns (wire.wsMsg_zero, false)
  \/ exists m, wsParse txt = Returns (m, true) /\ wire.IsValid m = true.
Proof.
  destruct (snoc_or_nil (bytes.ToValidUTF8 txt [])) as [E|(l & x & E)].
  { left. exact (wsParse_empty _ E). }
  destruct (Byte.eqb x x0a) eqn:Ex.
  2:{ apply byte_eqb_false in Ex. left. exact (wsParse_no_newline _ _ _ E Ex). }
  apply byte_eqb_true in Ex as ->.
  destruct (split_at_byte x09 l) as [Hl|(A & r1 & -> & HA)].
  { left. exact (wsParse_no_tab _ _ E Hl). }
  destruct (split_at_byte x09 r1) as [Hr|(B & Q & -> & HB)].
  { rewrite <- app_assoc in E. cbn [app] in E. left. exact (wsParse_one_tab _ _ _ E HA Hr). }
  assert (E' : bytes.ToValidUTF8 txt [] = A ++ x09 :: B ++ x09 :: Q ++ [x0a]).
  { rewrite E, <- !app_assoc. cbn [app]. rewrite <- !app_assoc. reflexivity. }
  rewrite (wsParse_frame _ _ _ _ E' HA HB).
  destruct (What_IsValid (what_Parse A)) eqn:Hvalid; [|by left].
  destruct Q as [|q Q']; [right; eauto|].
  pose proof (Unquote_double_finishes (q :: Q')) as Hfin.
  destruct q; try solve [right; eauto].
  destruct (strconv.Unquote_double _); [right; eauto|by left|congruence].
Qed.

(** X18. Whatever bytes [wsParse] is given, it returns; when it reports
    ok the message it returns carries a valid command, and when it does not
    the message is the zero message. *)
Theorem wsParse_ok_means_valid (txt : list byte) :
  exists m ok,
    wsParse txt = Returns (m, ok)
    /\ (ok = true -> wire.IsValid m = true)
    /\ (ok = false -> m = wire.wsMsg_zero).
Proof.
  destruct (wsParse_cases txt) as [E|(m & E & Hvalid)].
  - exists wire.wsMsg_zero, false. split; [exact E|].
    split; [discriminate|reflexivity].
  - exists m, true. split; [exact E|].
    split; [intros _; exact Hvalid|discriminate].
Qed.

(** X19. [wsParse] reads its input through [bytes.ToValidUTF8] only, and
    cleaning is idempotent: what [ToValidUTF8] returns is left as it is by a
    second pass, so a frame and its cleaned form decode alike. *)
Theorem wsParse_sanitises_once (txt : list byte) :
  bytes.ToValidUTF8 (bytes.ToValidUTF8 txt []) [] = bytes.ToValidUTF8 txt []
  /\ wsParse (bytes.ToValidUTF8 txt []) = wsParse txt.
Proof.
  assert (Hid : bytes.ToValidUTF8 (bytes.ToValidUTF8 txt []) [] = bytes.ToValidUTF8 txt [])
    by apply ToValidUTF8_text_id, ToValidUTF8_valid.
  split; [exact Hid|].
  unfold wire.wsParse. rewrite Hid. reflexivity.
Qed.

(** X20. Only the first two tabs of a cleaned frame separate fields.  For
    a frame with a valid command, a payload that does not start with a
    double quote is returned as it is, further tabs included; a payload that
    starts with one is returned unquoted, and the frame is refused when the
    payload is not a well-formed quoted string. *)
Theorem wsParse_payload_forms (txt A B Q : list byte) :
  bytes.ToValidUTF8 txt [] = A ++ x09 :: B ++ x09 :: Q ++ [x0a] ->
  Forall (fun b => b <> x09) A ->
  Forall (fun b => b <> x09) B ->
  What_IsValid (what_Parse A) = true ->
  (head Q <> Some x22 ->
     wsParse txt = Returns (wire.mkWsMsg Q (JidParseString B) (what_Parse A), true))
  /\ (head Q = Some x22 ->
      (forall d, strconv.Unquote_double Q = strconv.Unquoted d ->
         wsParse txt = Returns (wire.mkWsMsg d (JidParseString B) (what_Parse A), true))
      /\ (strconv.Unquote_double Q = strconv.ErrSyntax ->
          wsParse txt = Returns (wire.wsMsg_zero, false))).
Proof.
  intros E HA HB Hvalid. rewrite (wsParse_frame _ _ _ _ E HA HB), Hvalid.
  split.
  - intros Hq. destruct Q as [|q Q']; [reflexivity|].
    destruct q; try reflexivity. by destruct Hq.
  - intros Hq. destruct Q as [|q Q']; [discriminate|]. injection Hq as ->.
    split; [intros d Hd|intros Hd]; by rewrite Hd.
Qed.

(** X21. [Append] adds the frame after the bytes it is given and changes
    none of them.  The frame is the command text, a tab, the jid field with
    its tab unless the jid is negative, the payload field and a newline; and
    the payload field holds no control byte, so no tab or newline of the
    payload can be taken for a separator.  It is empty just when the payload
    is. *)
Theorem Append_frame_shape (m : wire.wsMsg) (b : list byte) :
  Append m b = b ++ Format m
  /\ last (Append m b) = Some x0a
  /\ exists field,
       Format m
       = What_String (wire.What_ m) ++ [x09]
         ++ (if 0 <=? wire.Jid m
             then (if 0 <? wire.Jid m then Jid_Append (wire.Jid m) else []) ++ [x09]
             else [])
         ++ field ++ [x0a]
       /\ Forall visible field
       /\ (field = [] <-> wire.Data m = []).
Proof.
  destruct m as [data j w]. unfold wire.Format, wire.Append.
  cbn [wire.Data wire.Jid wire.What_ app].
  split; [|split].
  - destruct (0 <=? j); destruct (0 <? j); destruct (0 <? length data)%nat;
      rewrite <- ?app_assoc; reflexivity.
  - apply last_snoc.
  - exists (if (0 <? length data)%nat then strconv.AppendQuote isPrintWide data else []).
    split; [|split].
    + destruct (0 <=? j); destruct (0 <? j); destruct (0 <? length data)%nat;
        rewrite <- ?app_assoc; cbn [app]; rewrite <- ?app_assoc; cbn [app];
        rewrite ?app_nil_r; reflexivity.
    + destruct (0 <? length data)%nat; [apply AppendQuote_visible|constructor].
    + destruct data; cbn [length Nat.ltb Nat.leb]; split; try done.
Qed.

End CodecMore.

Lemma wsParse_payload_forms_witness :
  wire.wsParse (bytes_of "Input" ++ [x09; x31; x09; x61; x09; x62; x0a])
  = Returns (wire.mkWsMsg [x61; x09; x62] 1 SpecWhat.Input, true).
Proof.
  destruct (@wsParse_payload_forms SpecWhat.pkg SpecJid.pkg
              (bytes_of "Input" ++ [x09; x31; x09; x61; x09; x62; x0a])
              (bytes_of "Input") [x31] [x61; x09; x62]) as [Hraw _].
  - reflexivity.
  - eval_closed (bytes_of "Input").
    repeat (apply List.Forall_cons; [discriminate|]). apply List.Forall_nil.
  - repeat (apply List.Forall_cons; [discriminate|]). apply List.Forall_nil.
  - reflexivity.
  - apply Hraw. discriminate.
Defined.


(** * The reader and the writer *)

Section ReaderProofs.

Context `{WhatPkg} `{JidPkg}.

Local Abbreviation wsReader := (ws.wsReader).

(** A read the reader passes over: no error, and either not a text message
    or text that [wsParse] refuses. *)
Definition passed_over (rc : ws.ReadResult * ws.SendCase) : Prop :=
  ws.err rc.1 = None
  /\ (ws.typ rc.1 <> ws.MessageText
      \/ exists m, wire.wsParse (ws.txt rc.1) = Returns (m, false)).

Lemma wsParse_returns txt :
  exists m ok, wire.wsParse txt = Returns (m, ok) /\ (ok = true -> wire.IsValid m = true).
Proof.
  destruct (wsParse_cases txt) as [E|(m & E & Hvalid)]; eexists _, _; (split; [exact E|]);
    [discriminate|intros _; exact Hvalid].
Qed.

(** X22. Whatever the peer sends, [wsReader] does not fail on it and
    hands to the loop only messages with a valid command.  A read that is
    not a text message, or whose text [wsParse] refuses, is passed over
    without ending the run: the run goes on as if it had not been there.  A
    read error on a read that is not a text message ends the run, and that
    error is the one [ccf] gets when it is set; a return from the [select]
    calls no [ccf]. *)
Theorem wsReader_passes_over_bad_frames (reads : list (ws.ReadResult * ws.SendCase)) :
  (wsReader reads).2 <> ws.ParseFailed
  /\ Forall (fun m => wire.IsValid m = true) (wsReader reads).1
  /\ (forall junk, Forall passed_over junk -> wsReader (junk ++ reads) = wsReader reads)
  /\ (forall r taken cause ccf_set,
        ws.err r = Some cause -> ws.typ r <> ws.MessageText ->
        wsReader ((r, taken) :: reads) = ([], ws.ReadFailed cause)
        /\ ws.reader_cancel ccf_set (wsReader ((r, taken) :: reads)).2
           = if ccf_set then Some cause else None)
  /\ (forall ccf_set, (wsReader reads).2 = ws.ReaderDone ->
        ws.reader_cancel ccf_set (wsReader reads).2 = None).
Proof.
  split; [|split; [|split; [|split]]].
  - induction reads as [|[r taken] rest IH]; cbn [ws.wsReader]; [discriminate|].
    assert (Hnext : (match ws.err r with
                     | None => wsReader rest
                     | Some cause => ([], ws.ReadFailed cause)
                     end).2 <> ws.ParseFailed).
    { destruct (ws.err r); [discriminate|exact IH]. }
    destruct (decide (ws.typ r = ws.MessageText)); [|exact Hnext].
    destruct (wsParse_returns (ws.txt r)) as (m & ok & -> & _).
    destruct ok; [|exact Hnext].
    destruct taken; try discriminate.
    destruct (match ws.err r with None => _ | Some _ => _ end). exact Hnext.
  - induction reads as [|[r taken] rest IH]; cbn [ws.wsReader]; [constructor|].
    assert (Hnext : Forall (fun m => wire.IsValid m = true)
                      (match ws.err r with
                       | None => wsReader rest
                       | Some cause => ([], ws.ReadFailed cause)
                       end).1).
    { destruct (ws.err r); [constructor|exact IH]. }
    destruct (decide (ws.typ r = ws.MessageText)); [|exact Hnext].
    destruct (wsParse_returns (ws.txt r)) as (m & ok & -> & Hvalid).
    destruct ok; [|exact Hnext].
    destruct taken; try constructor.
    destruct (match ws.err r with None => _ | Some _ => _ end). cbn [fst] in *.
    constructor; auto.
  - intros junk Hjunk. induction Hjunk as [|[r taken] junk [Herr Hskip] _ IH]; [reflexivity|].
    cbn [app ws.wsReader]. cbn [fst] in Herr, Hskip. rewrite Herr, IH.
    destruct (decide (ws.typ r = ws.MessageText)) as [Ht|]; [|reflexivity].
    destruct Hskip as [Hne|[m ->]]; [contradiction|reflexivity].
  - intros r taken cause ccf_set Herr Htyp. cbn [ws.wsReader]. rewrite Herr.
    destruct (decide (ws.typ r = ws.MessageText)); [contradiction|].
    split; reflexivity.
  - intros ccf_set ->. reflexivity.
Qed.

End ReaderProofs.

(** X23. [wsWriter] writes the messages it receives in the order it
    receives them, and stops at the first that cannot be written: after any
    number of successful writes, a failed write ends the run with that
    message as the last one handed to the socket and its error as the one
    [ccf] gets when it is set, whereas a closed done channel or a closed
    outbound channel ends the run with nothing more written and no [ccf]
    call; whatever would have come after is not looked at. *)
Theorem wsWriter_stops_at_first_failure (frames : list (list byte)) (stop : ws.WriterCase)
    (rest : list ws.WriterCase) (ccf_set : bool) :
  let run := ws.wsWriter (((fun f => ws.WRecv f None) <$> frames) ++ stop :: rest) in
  ws.wsWriter ((fun f => ws.WRecv f None) <$> frames) = (frames, ws.Waiting)
  /\ match stop with
     | ws.WRecv f None =>
         run = (let '(written, e) := ws.wsWriter rest in (frames ++ f :: written, e))
     | ws.WRecv f (Some cause) =>
         run = (frames ++ [f], ws.WriteFailed cause)
         /\ ws.writer_cancel ccf_set run.2 = if ccf_set then Some cause else None
     | _ =>
         run = (frames, ws.WriterDone) /\ ws.writer_cancel ccf_set run.2 = None
     end.
Proof.
  cbn zeta. split.
  - induction frames as [|f frames IH]; [reflexivity|].
    cbn [fmap list_fmap ws.wsWriter]. change (list_fmap _ _ ?g frames) with (g <$> frames).
    by rewrite IH.
  - induction frames as [|f frames IH].
    + cbn [fmap list_fmap app]. destruct stop as [| | |f [cause|]]; cbn [ws.wsWriter];
        try (split; reflexivity).
    + cbn [fmap list_fmap app ws.wsWriter].
      change (list_fmap _ _ ?g frames) with (g <$> frames).
      destruct stop as [| | |f0 [cause|]].
      * destruct IH as [-> _]. split; reflexivity.
      * destruct IH as [-> _]. split; reflexivity.
      * destruct IH as [-> _]. split; reflexivity.
      * destruct IH as [-> _]. split; reflexivity.
      * rewrite IH. by destruct (ws.wsWriter rest).
Qed.


(** * Event dispatch of a UI object *)

Section HtmlProofs.

Import Html.

Variable What : Type.
Context `{EqDecision What}.
Variable what_Input : What.
Variable what_Click : What.
Variable float64 : Type.
Variable float64_zero : float64.
Variable ParseFloat : string -> float64 * error.
Variable Time : Type.
Variable Time_zero : Time.
Variable time_Parse : string -> string -> Time * error.
Variable Quote : string -> string.

Local Abbreviation Call := (Html.Call What float64 Time).
Local Abbreviation JawsEvent :=
  (Html.JawsEvent What what_Input what_Click float64 float64_zero ParseFloat
     Time Time_zero time_Parse Quote).

Local Ltac settle_calls :=
  repeat match goal with
         | H : _ ∈ [] |- _ => by apply elem_of_nil in H
         | H : _ ∈ _ :: _ |- _ => apply elem_of_cons in H as [H|H]
         | H : _ ∈ _ ++ _ |- _ => apply elem_of_app in H as [H|H]
         | H : _ = _ |- _ => first [discriminate H | injection H as H; subst | subst]
         | H : is_true _ |- _ => discriminate H
         | H : false = true |- _ => discriminate H
         end.

(** X24. [UiHtml.JawsEvent] gives the event to one receiver, the first
    of: the legacy [EventFn], which gets every event; the click handler, for
    a click; the event handler; and, for an input event, the setter of the
    first kind the tag's type is of, after which the tag is marked dirty
    whatever the setter returned.  Each gets the event as it came and its
    result is what comes back, the set of a [NamedBoolArray] giving the nil
    error.  A typed setter gets the zero value for an empty payload and
    otherwise the value its parser returned without error; a payload that
    does not parse is never applied, and the parser's error is what comes
    back, with no call made.  An event that is no input and that no handler
    took makes no call and gives the nil error. *)
Theorem UiHtml_JawsEvent_dispatch (ui : Html.UiHtml) (debug : bool)
    (result : Call -> error) (wht : What) (val : string) :
  let run := JawsEvent ui debug result wht val in
  let calls := run.1 in
  let err := run.2 in
  ((EventFn ui = true ->
      calls = [CallEventFn wht val]
      /\ err = result (CallEventFn wht val))
   /\ (forall c, c ∈ calls -> is_setter c = true ->
         wht = what_Input /\ EventFn ui = false /\ EventHandler ui = false
         /\ calls = [c; CallDirty]
         /\ err = match c with CallSet _ => None | _ => result c end)
   /\ (forall v, CallJawsSetFloat v ∈ calls ->
         (val = ""%string /\ v = float64_zero) \/ ParseFloat val = (v, None))
   /\ (forall v, CallJawsSetBool v ∈ calls ->
         (val = ""%string /\ v = false) \/ Input.ParseBool Quote val = (v, None))
   /\ (forall v, CallJawsSetTime v ∈ calls ->
         (val = ""%string /\ v = Time_zero) \/ time_Parse "2006-01-02" val = (v, None))
   /\ (calls = [] -> err <> None ->
       wht = what_Input
       /\ exists text, err = Some text
            /\ val <> ""%string
            /\ ((exists v, ParseFloat val = (v, Some text))
                \/ (exists v, Input.ParseBool Quote val = (v, Some text))
                \/ (exists v, time_Parse "2006-01-02" val = (v, Some text)))))
  /\ (EventFn ui = false ->
      (wht = what_Click -> ClickHandler ui = true ->
         run = ([CallJawsClick val], result (CallJawsClick val)))
      /\ (wht <> what_Click \/ ClickHandler ui = false ->
          (EventHandler ui = true ->
             run = ([CallJawsEvent wht val], result (CallJawsEvent wht val)))
          /\ (EventHandler ui = false ->
              (wht <> what_Input -> run = ([], None))
              /\ (wht = what_Input ->
                  (isNamedBoolArray (Tag ui) = true ->
                     run = ([CallSet val; CallDirty], None))
                  /\ (isNamedBoolArray (Tag ui) = false ->
                      (isStringSetter (Tag ui) = true ->
                         run = ([CallJawsSetString val; CallDirty],
                                result (CallJawsSetString val)))
                      /\ (isStringSetter (Tag ui) = false ->
                          (isFloatSetter (Tag ui) = true ->
                             (val = ""%string ->
                                run = ([CallJawsSetFloat float64_zero; CallDirty],
                                       result (CallJawsSetFloat float64_zero)))
                             /\ (forall v, val <> ""%string -> ParseFloat val = (v, None) ->
                                   run = ([CallJawsSetFloat v; CallDirty],
                                          result (CallJawsSetFloat v)))
                             /\ (forall v text, val <> ""%string ->
                                   ParseFloat val = (v, Some text) ->
                                   run = ([], Some text)))
                          /\ (isFloatSetter (Tag ui) = false ->
                              (isBoolSetter (Tag ui) = true ->
                                 (val = ""%string ->
                                    run = ([CallJawsSetBool false; CallDirty],
                                           result (CallJawsSetBool false)))
                                 /\ (forall v, val <> ""%string ->
                                       Input.ParseBool Quote val = (v, None) ->
                                       run = ([CallJawsSetBool v; CallDirty],
                                              result (CallJawsSetBool v)))
                                 /\ (forall v text, val <> ""%string ->
                                       Input.ParseBool Quote val = (v, Some text) ->
                                       run = ([], Some text)))
                              /\ (isBoolSetter (Tag ui) = false ->
                                  (isTimeSetter (Tag ui) = true ->
                                     (val = ""%string ->
                                        run = ([CallJawsSetTime Time_zero; CallDirty],
                                               result (CallJawsSetTime Time_zero)))
                                     /\ (forall v, val <> ""%string ->
                                           time_Parse "2006-01-02" val = (v, None) ->
                                           run = ([CallJawsSetTime v; CallDirty],
                                                  result (CallJawsSetTime v)))
                                     /\ (forall v text, val <> ""%string ->
                                           time_Parse "2006-01-02" val = (v, Some text) ->
                                           run = ([], Some text)))
                                  /\ (isTimeSetter (Tag ui) = false ->
                                      run = ((if debug then [CallLog] else [])
                                               ++ [CallDirty], None)))))))))).
Proof.
  cbn zeta. split.
  { unfold Html.JawsEvent, Input.ISO8601.
    destruct (EventFn ui).
    { cbn [fst snd]. repeat split; intros; settle_calls. }
    destruct (bool_decide (wht = what_Click) && ClickHandler ui).
    { cbn [fst snd]. repeat split; intros; settle_calls. }
    destruct (EventHandler ui).
    { cbn [fst snd]. repeat split; intros; settle_calls. }
    destruct (bool_decide_reflect (wht = what_Input)) as [Hw|Hw].
    2:{ cbn [fst snd]. repeat split; intros; settle_calls; congruence. }
    destruct (isNamedBoolArray (Tag ui)).
    { cbn [fst snd]. repeat split; intros; settle_calls; auto; congruence. }
    destruct (isStringSetter (Tag ui)).
    { cbn [fst snd]. repeat split; intros; settle_calls; auto; congruence. }
    destruct (isFloatSetter (Tag ui)).
    { destruct (bool_decide_reflect (val <> ""%string)) as [Hv|Hv].
      - destruct (ParseFloat val) as [v [e|]] eqn:Ep; cbn [fst snd];
          repeat split; intros; settle_calls; eauto 10; congruence.
      - apply dec_stable in Hv. cbn [fst snd].
        repeat split; intros; settle_calls; auto; congruence. }
    destruct (isBoolSetter (Tag ui)).
    { destruct (bool_decide_reflect (val <> ""%string)) as [Hv|Hv].
      - destruct (Input.ParseBool Quote val) as [v [e|]] eqn:Ep; cbn [fst snd];
          repeat split; intros; settle_calls; eauto 10; congruence.
      - apply dec_stable in Hv. cbn [fst snd].
        repeat split; intros; settle_calls; auto; congruence. }
    destruct (isTimeSetter (Tag ui)).
    { destruct (bool_decide_reflect (val <> ""%string)) as [Hv|Hv].
      - destruct (time_Parse "2006-01-02" val) as [v [e|]] eqn:Ep; cbn [fst snd];
          repeat split; intros; settle_calls; eauto 10; congruence.
      - apply dec_stable in Hv. cbn [fst snd].
        repeat split; intros; settle_calls; auto; congruence. }
    cbn [fst snd]. destruct debug; cbn [app];
      repeat split; intros; settle_calls; congruence. }
  intros Hfn. split.
  { intros -> Hclick. unfold Html.JawsEvent.
    by rewrite Hfn, Hclick, (bool_decide_eq_true_2 (what_Click = what_Click) eq_refl). }
  intros Hnoclick.
  assert (Hskip : bool_decide (wht = what_Click) && ClickHandler ui = false).
  { destruct Hnoclick as [Hne| ->]; [|apply andb_false_r].
    by rewrite (bool_decide_eq_false_2 _ Hne). }
  split.
  { intros Heh. unfold Html.JawsEvent. by rewrite Hfn, Hskip, Heh. }
  intros Heh.
  split.
  { intros Hw. unfold Html.JawsEvent.
    by rewrite Hfn, Hskip, Heh, (bool_decide_eq_false_2 _ Hw). }
  intros ->.
  unfold Html.JawsEvent, Input.ISO8601. rewrite Hfn, Hskip, Heh.
  rewrite (bool_decide_eq_true_2 (what_Input = what_Input) eq_refl).
  split; [intros ->; reflexivity|]. intros ->.
  split; [intros ->; reflexivity|]. intros ->.
  split.
  { intros ->. split; [|split].
    - intros ->. by rewrite (bool_decide_eq_false_2 (""%string <> ""%string)
                               (fun H => H eq_refl)).
    - intros v Hv Hp. by rewrite (bool_decide_eq_true_2 _ Hv), Hp.
    - intros v text Hv Hp. by rewrite (bool_decide_eq_true_2 _ Hv), Hp. }
  intros ->. split.
  { intros ->. split; [|split].
    - intros ->. by rewrite (bool_decide_eq_false_2 (""%string <> ""%string)
                               (fun H => H eq_refl)).
    - intros v Hv Hp. by rewrite (bool_decide_eq_true_2 _ Hv), Hp.
    - intros v text Hv Hp. by rewrite (bool_decide_eq_true_2 _ Hv), Hp. }
  intros ->. split.
  { intros ->. split; [|split].
    - intros ->. by rewrite (bool_decide_eq_false_2 (""%string <> ""%string)
                               (fun H => H eq_refl)).
    - intros v Hv Hp. by rewrite (bool_decide_eq_true_2 _ Hv), Hp.
    - intros v text Hv Hp. by rewrite (bool_decide_eq_true_2 _ Hv), Hp. }
  intros ->. reflexivity.
Qed.

End HtmlProofs.
